(** * html2gemini: a shallow embedding of the renderer and its properties

    The sources hold two variants of the package.  [V1] embeds
    [html2gemini.go], where the citation accumulator is a package-level
    variable.  [V2] embeds the second copy of the package, the one that
    follows the text of the README and that the test-suite drives through
    [NewTraverseContext]: there the accumulator is a field of the
    traverse context, and list items and paragraphs are first rendered
    into a scratch context.

    Conventions.
    - A Go [string] is assumed to hold valid UTF-8 and is represented by its
      sequence of code points ([gostring]); a [rune] is a [Z].  All the
      patterns the program searches for are ASCII, so byte-wise and
      rune-wise search agree on such strings.
    - Go's [int] is 64 bits wide.  The sum [len(linkArray) + CitationStart]
      has a caller-chosen operand and is computed with [int_add], which
      wraps.  The other ints are lengths and counters of work done (runes
      written, paragraphs, nesting depth); they are kept exact in [Z].
    - [bytes.Buffer] writes never return an error, so every [error] the
      program passes around is [nil]; what remains of failure are run-time
      panics, which the monads below carry as [Panic]. *)

From Stdlib Require Import Ascii String DecimalString DecimalPos DecimalZ.
From Stdlib Require Import ZArith List Bool Lia.
Import ListNotations.
Local Open Scope Z_scope.
Local Open Scope list_scope.

(** ** Go strings and the library functions the program calls *)

Module Go.

Definition rune := Z.
Definition gostring := list rune.

(** Literals: [gs] reads a Rocq string of ASCII characters, with the Go
    escapes [\n] and [\t]. *)
Fixpoint gs (x : string) : gostring :=
  match x with
  | EmptyString => []
  | String "\" (String "n" r) => 10 :: gs r
  | String "\" (String "t" r) => 9 :: gs r
  | String a r => Z.of_N (N_of_ascii a) :: gs r
  end.
Arguments gs _%_string.

Fixpoint bytes_of (x : string) : gostring :=
  match x with
  | EmptyString => []
  | String a r => Z.of_N (N_of_ascii a) :: bytes_of r
  end.

Definition LF : rune := 10.
Definition SP : rune := 32.

Fixpoint string_eqb (a b : gostring) : bool :=
  match a, b with
  | [], [] => true
  | x :: a', y :: b' => (x =? y) && string_eqb a' b'
  | _, _ => false
  end.

Definition is_empty (s : gostring) : bool :=
  match s with [] => true | _ => false end.

(** 64-bit two's complement addition of Go's [int]. *)
Definition int_min : Z := - 2 ^ 63.
Definition int_max : Z := 2 ^ 63 - 1.
Definition wrap_int (z : Z) : Z := (z + 2 ^ 63) mod 2 ^ 64 - 2 ^ 63.
Definition int_add (a b : Z) : Z := wrap_int (a + b).
Definition len {A} (l : list A) : Z := Z.of_nat (length l).

(** [unicode.IsSpace] *)
Definition IsSpace (r : rune) : bool :=
  if r <=? 255 then
    ((9 <=? r) && (r <=? 13)) || (r =? 32) || (r =? 133) || (r =? 160)
  else
    (r =? 5760) || ((8192 <=? r) && (r <=? 8202)) || (r =? 8232)
    || (r =? 8233) || (r =? 8239) || (r =? 8287) || (r =? 12288).

Fixpoint dropWhile (f : rune -> bool) (s : gostring) : gostring :=
  match s with
  | [] => []
  | r :: s' => if f r then dropWhile f s' else s
  end.

Fixpoint takeWhile (f : rune -> bool) (s : gostring) : gostring :=
  match s with
  | [] => []
  | r :: s' => if f r then r :: takeWhile f s' else []
  end.

(** [strings.TrimSpace] *)
Definition TrimSpace (s : gostring) : gostring :=
  rev (dropWhile IsSpace (rev (dropWhile IsSpace s))).

Fixpoint HasPrefix (s pre : gostring) : bool :=
  match pre, s with
  | [], _ => true
  | p :: pre', r :: s' => (p =? r) && HasPrefix s' pre'
  | _ :: _, [] => false
  end.

Definition HasSuffix (s suf : gostring) : bool := HasPrefix (rev s) (rev suf).

(** [strings.TrimPrefix], [strings.TrimSuffix] *)
Definition TrimPrefix (s pre : gostring) : gostring :=
  if HasPrefix s pre then skipn (length pre) s else s.

Definition TrimSuffix (s suf : gostring) : gostring :=
  if HasSuffix s suf then firstn (length s - length suf)%nat s else s.

(** [strings.ReplaceAll s old new] for a non-empty [old]: the matches are
    taken from left to right and do not overlap.  [skip] counts the runes
    of a match that are still to be dropped. *)
Fixpoint ReplaceAll_from (skip : nat) (s old new : gostring) : gostring :=
  match s with
  | [] => []
  | r :: s' =>
      match skip with
      | S k => ReplaceAll_from k s' old new
      | O =>
          if HasPrefix s old
          then new ++ ReplaceAll_from (length old - 1) s' old new
          else r :: ReplaceAll_from 0 s' old new
      end
  end.

Definition ReplaceAll (s old new : gostring) : gostring :=
  ReplaceAll_from 0 s old new.

(** [strings.Contains s sub] *)
Fixpoint Contains (s sub : gostring) : bool :=
  HasPrefix s sub || match s with [] => false | _ :: s' => Contains s' sub end.

(** [strings.Split s sep] for a separator of one rune. *)
Fixpoint Split_from (cur : gostring) (s : gostring) (sep : rune) : list gostring :=
  match s with
  | [] => [rev cur]
  | r :: s' =>
      if r =? sep then rev cur :: Split_from [] s' sep
      else Split_from (r :: cur) s' sep
  end.

Definition Split (s : gostring) (sep : rune) : list gostring := Split_from [] s sep.

(** [strings.Repeat] with a count that is not negative. *)
Definition Repeat (s : gostring) (count : Z) : gostring :=
  concat (repeat s (Z.to_nat count)).

(** [fmt.Sprintf("%d", i)] *)
Definition itoa (i : Z) : gostring := bytes_of (NilZero.string_of_int (Z.to_int i)).

(** The regular expression [[ \r\n\t]+], every match replaced by one space. *)
Definition isSpacing (r : rune) : bool :=
  (r =? 32) || (r =? 13) || (r =? 10) || (r =? 9).

Fixpoint spacingRe_collapse (inRun : bool) (s : gostring) : gostring :=
  match s with
  | [] => []
  | r :: s' =>
      if isSpacing r
      then (if inRun then spacingRe_collapse true s' else SP :: spacingRe_collapse true s')
      else r :: spacingRe_collapse false s'
  end.

Definition spacingRe_ReplaceAll_space (s : gostring) : gostring :=
  spacingRe_collapse false s.

(** The regular expression [\n\n+], every match replaced by two newlines:
    of a run of newlines the first two are kept.  [seen] counts the
    newlines of the current run already kept. *)
Fixpoint newlineRe_collapse (seen : nat) (s : gostring) : gostring :=
  match s with
  | [] => []
  | r :: s' =>
      if r =? LF
      then match seen with
           | S (S _) => newlineRe_collapse seen s'
           | _ => LF :: newlineRe_collapse (S seen) s'
           end
      else r :: newlineRe_collapse 0 s'
  end.

Definition newlineRe_ReplaceAll_2nl (s : gostring) : gostring :=
  newlineRe_collapse 0 s.

(** [filepath.Base] and [filepath.Ext] with the separator [/]. *)
Definition isSlash (r : rune) : bool := r =? 47.

Definition Base (path : gostring) : gostring :=
  match path with
  | [] => gs "."
  | _ =>
      let stripped := dropWhile isSlash (rev path) in
      let last := rev (takeWhile (fun r => negb (isSlash r)) stripped) in
      match last with
      | [] => gs "/"
      | _ => last
      end
  end.

Fixpoint Ext_scan (revpath acc : gostring) : gostring :=
  match revpath with
  | [] => []
  | r :: rest =>
      if isSlash r then []
      else if r =? 46 then r :: acc
      else Ext_scan rest (r :: acc)
  end.

Definition Ext (path : gostring) : gostring := Ext_scan (rev path) [].

End Go.
Import Go.


(** ** Parsed HTML (package [golang.org/x/net/html]) *)

Module html.

Inductive NodeType :=
  ErrorNode | TextNode | DocumentNode | ElementNode | CommentNode | DoctypeNode | RawNode.

Record Attribute := { Key : gostring; Val : gostring }.

End html.

(** The atoms the renderer tells apart; [Other] stands for every other
    atom and for the zero atom of nodes that are not known elements. *)
Module atom.

Inductive Atom :=
  A | Blockquote | Br | Div | Footer | H1 | H2 | H3 | Head | Img | Li | Nav
  | P | Pre | Script | Style | Table | Td | Tfoot | Th | Tr | Ul | Other.

Definition eqb (x y : Atom) : bool :=
  match x, y with
  | A, A | Blockquote, Blockquote | Br, Br | Div, Div | Footer, Footer
  | H1, H1 | H2, H2 | H3, H3 | Head, Head | Img, Img | Li, Li | Nav, Nav
  | P, P | Pre, Pre | Script, Script | Style, Style | Table, Table
  | Td, Td | Tfoot, Tfoot | Th, Th | Tr, Tr | Ul, Ul | Other, Other => true
  | _, _ => false
  end.

End atom.

(** A node with its children in document order: [FirstChild] is the head
    of [children], [NextSibling] the next element of the parent's list. *)
Unset Elimination Schemes.
Inductive Node :=
  mkNode (Type_ : html.NodeType) (DataAtom : atom.Atom) (Data : gostring)
         (Attr : list html.Attribute) (children : list Node).
Set Elimination Schemes.

Definition Type_ (n : Node) := let (t, _, _, _, _) := n in t.
Definition DataAtom (n : Node) := let (_, a, _, _, _) := n in a.
Definition Data (n : Node) := let (_, _, d, _, _) := n in d.
Definition Attr (n : Node) := let (_, _, _, at_, _) := n in at_.
Definition children (n : Node) := let (_, _, _, _, cs) := n in cs.

Definition text (data : gostring) : Node :=
  mkNode html.TextNode atom.Other data [] [].
Definition element (a : atom.Atom) (attrs : list html.Attribute) (cs : list Node) : Node :=
  mkNode html.ElementNode a [] attrs cs.

(** What [html.Parse] makes of a body fragment: a document node, the
    [html] element, an empty [head] and the [body]. *)
Definition document (body : list Node) : Node :=
  mkNode html.DocumentNode atom.Other [] []
    [element atom.Other [] [element atom.Head [] []; element atom.Other [] body]].

Fixpoint getAttrVal_in (attrs : list html.Attribute) (attrName : gostring) : gostring :=
  match attrs with
  | [] => []
  | attr :: rest =>
      if string_eqb (html.Key attr) attrName then html.Val attr
      else getAttrVal_in rest attrName
  end.

Definition getAttrVal (node : Node) (attrName : gostring) : gostring :=
  getAttrVal_in (Attr node) attrName.

(** ** What the two variants share *)

(** Run-time panics: the slice [url[0:1]] of an empty string, an index
    past the end of a slice, [strings.Repeat] with a negative count, and
    the explicit panic of [handleTableElement]. *)
Inductive panic :=
  SliceBoundsOutOfRange | IndexOutOfRange | NegativeRepeatCount | PrettyTablesNotActive.

Section StateMonad.
Context {S : Type}.

Inductive Res (A : Type) :=
| Ok (a : A) (s : S)
| Panic (p : panic).
Global Arguments Ok {A} a s.
Global Arguments Panic {A} p.

Definition M (A : Type) := S -> Res A.

Definition ret {A} (a : A) : M A := fun s => Ok a s.

Definition bind {A B} (m : M A) (k : A -> M B) : M B :=
  fun s => match m s with
           | Ok a s' => k a s'
           | Panic p => Panic p
           end.

Definition get : M S := fun s => Ok s s.
Definition modify (f : S -> S) : M unit := fun s => Ok tt (f s).
Definition throw {A} (p : panic) : M A := fun _ => Panic p.
Definition when (b : bool) (m : M unit) : M unit := if b then m else ret tt.
End StateMonad.
Arguments Res : clear implicits.
Arguments M : clear implicits.

Notation "x <- m ;; k" := (bind m (fun x => k))
  (at level 61, m at next level, right associativity).
Notation "m ;; k" := (bind m (fun _ => k))
  (at level 61, right associativity).

Record Border := { Left : bool; Right : bool; Top : bool; Bottom : bool }.

Record PrettyTablesOptions := {
  AutoFormatHeader : bool;
  AutoWrapText : bool;
  ReflowDuringAutoWrap : bool;
  ColWidth : Z;
  ColumnSeparator : gostring;
  RowSeparator : gostring;
  CenterSeparator : gostring;
  HeaderAlignment : Z;
  FooterAlignment : Z;
  Alignment : Z;
  ColumnAlignment : list Z;
  NewLine : gostring;
  HeaderLine : bool;
  RowLine : bool;
  AutoMergeCells : bool;
  Borders : Border
}.

(** The package [tablewriter] is not part of the repository: the text it
    renders for a header, a footer and a body under the given settings
    ([None] is the nil pointer, the writer's defaults) is a parameter of
    the development. *)
Definition TableWriter :=
  option PrettyTablesOptions -> list gostring -> list gostring -> list (list gostring) -> gostring.

Record citationLink := { index : Z; url : gostring; display : gostring }.

Record tableTraverseContext := {
  header : list gostring;
  body : list (list gostring);
  footer : list gostring;
  tmpRow : Z;
  isInFooter : bool
}.

Definition tableCtx_zero : tableTraverseContext :=
  {| header := []; body := []; footer := []; tmpRow := 0; isInFooter := false |}.

(** [tableCtx.init()] *)
Definition tableCtx_init (_ : tableTraverseContext) : tableTraverseContext :=
  {| header := []; body := []; footer := []; tmpRow := 0; isInFooter := false |}.

Definition punctNoSpaceBefore (r : rune) : bool :=
  (r =? 46) || (r =? 44) || (r =? 59) || (r =? 33) || (r =? 63)
  || (r =? 41) || (r =? 93) || (r =? 62).

Definition punctNoSpaceAfter (r : rune) : bool :=
  (r =? 40) || (r =? 91) || (r =? 60).

Definition normalizeHrefLink (link : gostring) : gostring :=
  TrimPrefix (TrimSpace link) (gs "mailto:").

Definition formatGeminiCitation (idx : Z) (showMarker : bool) : gostring :=
  if showMarker then gs "[" ++ itoa idx ++ gs "]" else [].

(** The lines a flush writes: [i] is the position of the head of [links]
    in the link array. *)
Fixpoint citationLines (numbered : bool) (flushedToIndex : Z) (i : Z)
         (links : list citationLink) : gostring :=
  match links with
  | [] => []
  | link :: rest =>
      (if i >? flushedToIndex
       then gs "=> " ++ url link ++ [SP] ++ formatGeminiCitation (index link) numbered
            ++ [SP] ++ display link ++ [LF]
       else [])
      ++ citationLines numbered flushedToIndex (i + 1) rest
  end.

(** The text of an image: [alt], else the stem of the file name of [src],
    in brackets behind the marker prefix. *)
Definition imageAltText (node : Node) (imageMarkerPrefix : gostring) : gostring :=
  let altText :=
    let alt := getAttrVal node (gs "alt") in
    if negb (is_empty alt) then alt
    else
      let src := getAttrVal node (gs "src") in
      if negb (is_empty src)
      then let fileName := Base src in TrimSuffix fileName (Ext fileName)
      else [] in
  let altText := gs "[" ++ imageMarkerPrefix ++ gs " " ++ altText ++ gs "]" in
  let altText := ReplaceAll altText (gs "_") (gs " ") in
  let altText := ReplaceAll altText (gs "-") (gs " ") in
  ReplaceAll altText (gs "  ") (gs " ").

(** The end of [FromHTMLNode] in [html2gemini.go]. *)
Definition normalize (buf : gostring) : gostring :=
  TrimSpace (newlineRe_ReplaceAll_2nl (ReplaceAll buf (gs "\n ") (gs "\n"))).

(** [body[tmpRow] = append(body[tmpRow], res)] *)
Definition appendToRow (body : list (list gostring)) (tmpRow : Z) (res : gostring)
  : option (list (list gostring)) :=
  if tmpRow <? 0 then None
  else match nth_error body (Z.to_nat tmpRow) with
       | None => None
       | Some row =>
           Some (firstn (Z.to_nat tmpRow) body ++ [row ++ [res]]
                 ++ skipn (S (Z.to_nat tmpRow)) body)
       end.

Definition traverseChildren_of {S} (traverse : Node -> M S unit) : list Node -> M S unit :=
  fix go (cs : list Node) : M S unit :=
    match cs with
    | [] => ret tt
    | c :: cs' => traverse c ;; go cs'
    end.

(** [renderEachChild]: the children rendered one by one, a newline between
    two of them. *)
Definition renderEachChild_of {S} (render : Node -> M S gostring) : list Node -> M S gostring :=
  fix go (cs : list Node) : M S gostring :=
    match cs with
    | [] => ret []
    | c :: cs' =>
        s <- render c ;;
        rest <- go cs' ;;
        ret (s ++ (match cs' with [] => [] | _ => [LF] end) ++ rest)
    end.

(** ** The renderer of [html2gemini.go] *)

Module V1.

Record Options := {
  PrettyTables : bool;
  PrettyTablesOptions_ : option PrettyTablesOptions;
  OmitLinks : bool;
  CitationStart : Z;
  CitationMarkers : bool;
  LinkEmitFrequency : Z;
  NumberedLinks : bool;
  EmitImagesAsLinks : bool;
  ImageMarkerPrefix : gostring;
  EmptyLinkPrefix : gostring
}.

(** [NewOptions]; the marker prefix is U+2021. *)
Definition NewOptions (prettyTablesOptions : option PrettyTablesOptions) : Options := {|
  PrettyTables := false;
  PrettyTablesOptions_ := prettyTablesOptions;
  OmitLinks := false;
  CitationStart := 1;
  CitationMarkers := true;
  LinkEmitFrequency := 2;
  NumberedLinks := true;
  EmitImagesAsLinks := true;
  ImageMarkerPrefix := [8225];
  EmptyLinkPrefix := gs ">>"
|}.

(** The options of a call of [FromHTMLNode] that passes none: the zero
    value with [CitationStart] set to 1. *)
Definition Options_unset : Options := {|
  PrettyTables := false;
  PrettyTablesOptions_ := None;
  OmitLinks := false;
  CitationStart := 1;
  CitationMarkers := false;
  LinkEmitFrequency := 0;
  NumberedLinks := false;
  EmitImagesAsLinks := false;
  ImageMarkerPrefix := [];
  EmptyLinkPrefix := []
|}.

Record textifyTraverseContext := mkCtx {
  buf : gostring;
  prefix : gostring;
  tableCtx : tableTraverseContext;
  options : Options;
  endsWithSpace : bool;
  justClosedDiv : bool;
  blockquoteLevel : Z;
  lineLength : Z;
  isPre : bool
}.

Record linkAccumulatorType := mkAcc {
  emitParaCount : Z;
  linkArray : list citationLink;
  flushedToIndex : Z;
  tableNestLevel : Z
}.

Definition newLinkAccumulator : linkAccumulatorType :=
  {| emitParaCount := 0; linkArray := []; flushedToIndex := -1; tableNestLevel := 0 |}.

(** The receiver of the methods together with the package-level variable
    [linkAccumulator] they all read and write. *)
Record State := mkState {
  ctx : textifyTraverseContext;
  linkAccumulator : linkAccumulatorType
}.

Definition set_buf v c := mkCtx v (prefix c) (tableCtx c) (options c) (endsWithSpace c) (justClosedDiv c) (blockquoteLevel c) (lineLength c) (isPre c).
Definition set_prefix v c := mkCtx (buf c) v (tableCtx c) (options c) (endsWithSpace c) (justClosedDiv c) (blockquoteLevel c) (lineLength c) (isPre c).
Definition set_tableCtx v c := mkCtx (buf c) (prefix c) v (options c) (endsWithSpace c) (justClosedDiv c) (blockquoteLevel c) (lineLength c) (isPre c).
Definition set_endsWithSpace v c := mkCtx (buf c) (prefix c) (tableCtx c) (options c) v (justClosedDiv c) (blockquoteLevel c) (lineLength c) (isPre c).
Definition set_justClosedDiv v c := mkCtx (buf c) (prefix c) (tableCtx c) (options c) (endsWithSpace c) v (blockquoteLevel c) (lineLength c) (isPre c).
Definition set_blockquoteLevel v c := mkCtx (buf c) (prefix c) (tableCtx c) (options c) (endsWithSpace c) (justClosedDiv c) v (lineLength c) (isPre c).
Definition set_lineLength v c := mkCtx (buf c) (prefix c) (tableCtx c) (options c) (endsWithSpace c) (justClosedDiv c) (blockquoteLevel c) v (isPre c).
Definition set_isPre v c := mkCtx (buf c) (prefix c) (tableCtx c) (options c) (endsWithSpace c) (justClosedDiv c) (blockquoteLevel c) (lineLength c) v.

Definition set_emitParaCount v a := mkAcc v (linkArray a) (flushedToIndex a) (tableNestLevel a).
Definition set_linkArray v a := mkAcc (emitParaCount a) v (flushedToIndex a) (tableNestLevel a).
Definition set_flushedToIndex v a := mkAcc (emitParaCount a) (linkArray a) v (tableNestLevel a).
Definition set_tableNestLevel v a := mkAcc (emitParaCount a) (linkArray a) (flushedToIndex a) v.

Definition on_ctx (f : textifyTraverseContext -> textifyTraverseContext) : M State unit :=
  modify (fun s => mkState (f (ctx s)) (linkAccumulator s)).
Definition on_acc (f : linkAccumulatorType -> linkAccumulatorType) : M State unit :=
  modify (fun s => mkState (ctx s) (f (linkAccumulator s))).
Definition on_tableCtx (f : tableTraverseContext -> tableTraverseContext) : M State unit :=
  on_ctx (fun c => set_tableCtx (f (tableCtx c)) c).
Definition the_ctx : M State textifyTraverseContext := fun s => Ok (ctx s) s.
Definition the_acc : M State linkAccumulatorType := fun s => Ok (linkAccumulator s) s.

(** *** Breaking long lines inside block quotes *)

Definition maxLineLen : Z := 74.

(** [for i >= 0 && !unicode.IsSpace(runes[i]) { i-- }] from an [i] that
    is not negative: the position of the space found, [None] when [i]
    reached -1; the outer [None] is an index past the end of [runes]. *)
Fixpoint scanBack (runes : gostring) (i : nat) : option (option nat) :=
  match nth_error runes i with
  | None => None
  | Some r =>
      if IsSpace r then Some (Some i)
      else match i with
           | O => Some None
           | S j => scanBack runes j
           end
  end.

(** [for i < l && f(runes[i]) { i++ }], with [rest] the runes from [i] on. *)
Fixpoint scanWhile (f : rune -> bool) (rest : gostring) (i : nat) : nat :=
  match rest with
  | [] => i
  | r :: rest' => if f r then scanWhile f rest' (S i) else i
  end.

Inductive broken :=
| Lines (ret : list gostring)
| BadIndex
| NoFuel.

(** The loop [for l+existing > maxLineLen].  Every round drops at least
    one rune, so [fuel] above the length of [runes] is never used up
    (lemma [breakLoop_fuel]). *)
Fixpoint breakLoop (fuel : nat) (ret : list gostring) (runes : gostring) (existing : Z)
  : broken :=
  if len runes + existing >? maxLineLen then
    match fuel with
    | O => NoFuel
    | S fuel' =>
        let i0 := Z.to_nat (maxLineLen - existing) in
        match scanBack runes i0 with
        | None => BadIndex
        | Some found =>
            let i := match found with
                     | Some i => i
                     | None => scanWhile (fun r => negb (IsSpace r)) (skipn i0 runes) i0
                     end in
            let ret := ret ++ [firstn i runes ++ [LF]] in
            let i := scanWhile IsSpace (skipn i runes) i in
            breakLoop fuel' ret (skipn i runes) 0
        end
    end
  else
    Lines (match runes with [] => ret | _ => ret ++ [runes] end).

Definition breakLongLines (c : textifyTraverseContext) (data : gostring) : broken :=
  if blockquoteLevel c =? 0 then Lines [data]
  else
    let existing := lineLength c in
    if existing >=? maxLineLen
    then breakLoop (S (length data)) [[LF]] data 0
    else breakLoop (S (length data)) [] data existing.

(** *** The text emitter *)

(** One round of [for _, c := range line]. *)
Definition writeRune (c : textifyTraverseContext) (r : rune) : textifyTraverseContext :=
  let c := set_lineLength (lineLength c + 1) (set_buf (buf c ++ [r]) c) in
  if r =? LF then
    let c := set_lineLength 0 c in
    if negb (is_empty (prefix c)) then set_buf (buf c ++ prefix c) c else c
  else c.

(** One round of [for _, line := range lines]; [None] is the panic of
    [runes[0]] on an empty line. *)
Definition emitLine (c : textifyTraverseContext) (line : gostring)
  : option textifyTraverseContext :=
  match line with
  | [] => None
  | first :: _ =>
      let startsWithSpace := IsSpace first || punctNoSpaceBefore first in
      let c :=
        if negb startsWithSpace && negb (endsWithSpace c)
        then set_lineLength (lineLength c + 1) (set_buf (buf c ++ [SP]) c)
        else c in
      let final := last line first in
      let c := set_endsWithSpace (IsSpace final || punctNoSpaceAfter final) c in
      Some (fold_left writeRune line c)
  end.

Fixpoint emitLines (c : textifyTraverseContext) (lines : list gostring)
  : option textifyTraverseContext :=
  match lines with
  | [] => Some c
  | line :: rest =>
      match emitLine c line with
      | Some c' => emitLines c' rest
      | None => None
      end
  end.

Definition emit_ctx (c : textifyTraverseContext) (data : gostring)
  : option textifyTraverseContext :=
  if is_empty data then Some c
  else match breakLongLines c data with
       | Lines lines => emitLines c lines
       | BadIndex | NoFuel => None
       end.

Definition emit (data : gostring) : M State unit :=
  fun s => match emit_ctx (ctx s) data with
           | Some c => Ok tt (mkState c (linkAccumulator s))
           | None => Panic IndexOutOfRange
           end.

(** *** The citation accumulator *)

Definition ResetCitationCounters : M State unit :=
  on_acc (fun a => set_flushedToIndex (len (linkArray a) - 1) a) ;;
  on_acc (set_emitParaCount 0).

Definition forceFlushGeminiCitations : M State unit :=
  a <- the_acc ;;
  if tableNestLevel a >? 0 then ret tt
  else
    on_ctx (fun c => set_buf (buf c ++ gs "\n") c) ;;
    on_ctx (fun c => set_buf (buf c ++ [LF]) c) ;;
    on_ctx (fun c => set_buf
              (buf c ++ citationLines (NumberedLinks (options c)) (flushedToIndex a) 0
                                      (linkArray a)) c) ;;
    on_ctx (fun c => set_buf (buf c ++ [LF]) c) ;;
    ResetCitationCounters.

Definition emitGeminiCitations : M State unit :=
  a <- the_acc ;;
  if len (linkArray a) >? flushedToIndex a
  then forceFlushGeminiCitations
  else ret tt.

Definition FlushCitations : M State unit := emitGeminiCitations.

Definition CheckFlushCitations : M State unit :=
  a <- the_acc ;;
  c <- the_ctx ;;
  if (emitParaCount a >? LinkEmitFrequency (options c))
     && (len (linkArray a) >? flushedToIndex a + 1)
  then FlushCitations
  else on_acc (fun a => set_emitParaCount (emitParaCount a + 1) a).

Definition addGeminiCitation (url display : gostring) : M State gostring :=
  match url with
  | [] => throw SliceBoundsOutOfRange
  | first :: _ =>
      if first =? 35 then ret []
      else
        a <- the_acc ;;
        c <- the_ctx ;;
        let citation := {| index := int_add (len (linkArray a)) (CitationStart (options c));
                           url := url;
                           display := display |} in
        on_acc (set_linkArray (linkArray a ++ [citation])) ;;
        ret (formatGeminiCitation (index citation) (CitationMarkers (options c)))
  end.

(** *** The tree walker *)

Section Walker.
Variable tablewriter_Render : TableWriter.

(** In the handlers [traverseChildren] and [renderEachChild] are the
    methods of that name applied to the node at hand. *)
Definition paragraphHandler (traverseChildren : M State unit) : M State unit :=
  CheckFlushCitations ;;
  emit (gs "\n\n") ;;
  traverseChildren ;;
  emit (gs "\n\n").

Definition handleTableElement (traverseChildren : M State unit)
           (renderEachChild : M State gostring) (node : Node) : M State unit :=
  c <- the_ctx ;;
  if negb (PrettyTables (options c)) then throw PrettyTablesNotActive
  else
    match DataAtom node with
    | atom.Table =>
        a <- the_acc ;;
        (if tableNestLevel a =? 0 then emit (gs "\n\n```\n") else emit (gs "\n\n")) ;;
        on_acc (fun a => set_tableNestLevel (tableNestLevel a + 1) a) ;;
        on_tableCtx tableCtx_init ;;
        traverseChildren ;;
        c <- the_ctx ;;
        emit (tablewriter_Render (PrettyTablesOptions_ (options c))
                (header (tableCtx c)) (footer (tableCtx c)) (body (tableCtx c))) ;;
        on_acc (fun a => set_tableNestLevel (tableNestLevel a - 1) a) ;;
        a <- the_acc ;;
        if tableNestLevel a =? 0 then emit (gs "```\n\n") else emit (gs "\n\n")
    | atom.Tfoot =>
        on_tableCtx (fun t => {| header := header t; body := body t; footer := footer t;
                                 tmpRow := tmpRow t; isInFooter := true |}) ;;
        traverseChildren ;;
        on_tableCtx (fun t => {| header := header t; body := body t; footer := footer t;
                                 tmpRow := tmpRow t; isInFooter := false |})
    | atom.Tr =>
        on_tableCtx (fun t => {| header := header t; body := body t ++ [[]];
                                 footer := footer t; tmpRow := tmpRow t;
                                 isInFooter := isInFooter t |}) ;;
        traverseChildren ;;
        on_tableCtx (fun t => {| header := header t; body := body t; footer := footer t;
                                 tmpRow := tmpRow t + 1; isInFooter := isInFooter t |})
    | atom.Th =>
        res <- renderEachChild ;;
        on_tableCtx (fun t => {| header := header t ++ [res]; body := body t;
                                 footer := footer t; tmpRow := tmpRow t;
                                 isInFooter := isInFooter t |})
    | atom.Td =>
        res <- renderEachChild ;;
        c <- the_ctx ;;
        let t := tableCtx c in
        if isInFooter t then
          on_tableCtx (fun t => {| header := header t; body := body t;
                                   footer := footer t ++ [res]; tmpRow := tmpRow t;
                                   isInFooter := isInFooter t |})
        else
          match appendToRow (body t) (tmpRow t) res with
          | None => throw IndexOutOfRange
          | Some body' =>
              on_tableCtx (fun t => {| header := header t; body := body';
                                       footer := footer t; tmpRow := tmpRow t;
                                       isInFooter := isInFooter t |})
          end
    | _ => ret tt
    end.

Definition handleElement (traverseChildren : M State unit)
           (renderEachChild : M State gostring) (node : Node) : M State unit :=
  on_ctx (set_justClosedDiv false) ;;
  match DataAtom node with
  | atom.Br => emit (gs "\n")

  | atom.H1 | atom.H2 | atom.H3 =>
      prefix <- (if atom.eqb (DataAtom node) atom.H1
                 then FlushCitations ;; ret (gs "# ") else ret []) ;;
      prefix <- (if atom.eqb (DataAtom node) atom.H2
                 then FlushCitations ;; ret (gs "## ") else ret prefix) ;;
      prefix <- (if atom.eqb (DataAtom node) atom.H3
                 then FlushCitations ;; ret (gs "### ") else ret prefix) ;;
      emit (gs "\n" ++ prefix) ;;
      traverseChildren ;;
      emit (gs "\n")

  | atom.Blockquote =>
      FlushCitations ;;
      on_ctx (fun c => set_blockquoteLevel (blockquoteLevel c + 1) c) ;;
      c <- the_ctx ;;
      (if blockquoteLevel c <? 0 then throw NegativeRepeatCount
       else on_ctx (set_prefix (Repeat (gs ">") (blockquoteLevel c) ++ gs " "))) ;;
      emit (gs "\n") ;;
      c <- the_ctx ;;
      when (blockquoteLevel c =? 1) (emit (gs "\n")) ;;
      traverseChildren ;;
      on_ctx (fun c => set_blockquoteLevel (blockquoteLevel c - 1) c) ;;
      c <- the_ctx ;;
      (if blockquoteLevel c <? 0 then throw NegativeRepeatCount
       else on_ctx (set_prefix (Repeat (gs ">") (blockquoteLevel c)))) ;;
      when (blockquoteLevel c >? 0) (on_ctx (fun c => set_prefix (prefix c ++ gs " ") c)) ;;
      emit (gs "\n\n")

  | atom.Div =>
      c <- the_ctx ;;
      when (lineLength c >? 0) (emit (gs "\n")) ;;
      traverseChildren ;;
      c <- the_ctx ;;
      when (negb (justClosedDiv c)) (emit (gs "\n")) ;;
      on_ctx (set_justClosedDiv true)

  | atom.Li =>
      emit (gs "* ") ;;
      traverseChildren ;;
      emit (gs "\n")

  | atom.Img =>
      c <- the_ctx ;;
      let altText := imageAltText node (ImageMarkerPrefix (options c)) in
      if EmitImagesAsLinks (options c) then
        emit altText ;;
        hrefLink <-
          (let attrVal := getAttrVal node (gs "src") in
           if negb (is_empty attrVal) then
             let attrVal := normalizeHrefLink attrVal in
             if negb (OmitLinks (options c)) && negb (is_empty attrVal)
                && negb (string_eqb altText attrVal)
             then addGeminiCitation attrVal altText
             else ret []
           else ret []) ;;
        emit hrefLink
      else emit altText

  | atom.A =>
      let linkText :=
        match children node with
        | [first] =>
            match Type_ first with
            | html.TextNode => Data first
            | _ => []
            end
        | _ => []
        end in
      traverseChildren ;;
      c <- the_ctx ;;
      linkText <-
        match children node with
        | [img] =>
            if atom.eqb (DataAtom img) atom.Img
            then emit (gs " " ++ EmptyLinkPrefix (options c)) ;;
                 ret (EmptyLinkPrefix (options c))
            else ret linkText
        | _ => ret linkText
        end ;;
      hrefLink <-
        (let attrVal := getAttrVal node (gs "href") in
         if negb (is_empty attrVal) then
           let attrVal := normalizeHrefLink attrVal in
           if negb (OmitLinks (options c)) && negb (is_empty attrVal)
              && negb (string_eqb linkText attrVal)
           then addGeminiCitation attrVal linkText
           else ret []
         else ret []) ;;
      emit hrefLink

  | atom.P | atom.Ul => paragraphHandler traverseChildren

  | atom.Table | atom.Tfoot | atom.Th | atom.Tr | atom.Td =>
      c <- the_ctx ;;
      if PrettyTables (options c) then
        handleTableElement traverseChildren renderEachChild node
      else if atom.eqb (DataAtom node) atom.Table then
        emit (gs "\n\n" ++ [8862] ++ gs " table " ++ [8862] ++ gs "\n\n") ;;
        paragraphHandler traverseChildren
      else
        when (atom.eqb (DataAtom node) atom.Tr) (emit (gs "\n")) ;;
        traverseChildren

  | atom.Pre =>
      emit (gs "```\n") ;;
      on_ctx (set_isPre true) ;;
      traverseChildren ;;
      on_ctx (set_isPre false) ;;
      emit (gs "\n```")

  | atom.Style | atom.Script | atom.Head => ret tt

  | _ => traverseChildren
  end.

Definition newContext (options : Options) : textifyTraverseContext := {|
  buf := [];
  prefix := [];
  tableCtx := tableCtx_zero;
  options := options;
  endsWithSpace := false;
  justClosedDiv := false;
  blockquoteLevel := 0;
  lineLength := 0;
  isPre := false
|}.

(** [FromHTMLNode(doc, options)] called while a render is under way, as
    [renderEachChild] does: a context of its own, the package-level
    accumulator of everybody.  [traverse_doc] is [ctx.traverse(doc)]. *)
Definition FromHTMLNode_within (traverse_doc : M State unit) (options : Options)
  : M State gostring :=
  fun s =>
    match (traverse_doc ;; forceFlushGeminiCitations)
            (mkState (newContext options) (linkAccumulator s)) with
    | Ok _ s' => Ok (normalize (buf (ctx s'))) (mkState (ctx s) (linkAccumulator s'))
    | Panic p => Panic p
    end.

Fixpoint traverse (node : Node) : M State unit :=
  match node with
  | mkNode type _ data _ cs =>
      let traverseChildren := traverseChildren_of traverse cs in
      let renderEachChild :=
        renderEachChild_of
          (fun c => x <- the_ctx ;; FromHTMLNode_within (traverse c) (options x)) cs in
      match type with
      | html.TextNode =>
          c <- the_ctx ;;
          emit (if isPre c then data
                else TrimSpace (spacingRe_ReplaceAll_space data))
      | html.ElementNode => handleElement traverseChildren renderEachChild node
      | _ => traverseChildren
      end
  end.

Definition traverseChildren (node : Node) : M State unit :=
  traverseChildren_of traverse (children node).

Definition renderEachChild (node : Node) : M State gostring :=
  renderEachChild_of
    (fun c => x <- the_ctx ;; FromHTMLNode_within (traverse c) (options x))
    (children node).

(** [FromHTMLNode(doc, o...)]: the variadic options are a list, the
    package-level accumulator comes in and goes out. *)
Definition FromHTMLNode (doc : Node) (o : list Options)
           (acc : linkAccumulatorType) : Res linkAccumulatorType gostring :=
  let options := match o with o0 :: _ => o0 | [] => Options_unset end in
  match FromHTMLNode_within (traverse doc) options
          (mkState (newContext options) acc) with
  | Ok text s => Ok text (linkAccumulator s)
  | Panic p => Panic p
  end.

End Walker.

End V1.

(** ** The renderer of the second variant *)

Module V2.

Record Options := {
  PrettyTables : bool;
  PrettyTablesOptions_ : option PrettyTablesOptions;
  OmitLinks : bool;
  CitationStart : Z;
  CitationMarkers : bool;
  LinkEmitFrequency : Z;
  NumberedLinks : bool;
  EmitImagesAsLinks : bool;
  ImageMarkerPrefix : gostring;
  EmptyLinkPrefix : gostring;
  ListItemToLinkWordThreshold : Z
}.

Definition NewOptions (prettyTablesOptions : option PrettyTablesOptions) : Options := {|
  PrettyTables := false;
  PrettyTablesOptions_ := prettyTablesOptions;
  OmitLinks := false;
  CitationStart := 1;
  CitationMarkers := true;
  LinkEmitFrequency := 2;
  NumberedLinks := true;
  EmitImagesAsLinks := true;
  ImageMarkerPrefix := [8225];
  EmptyLinkPrefix := gs ">>";
  ListItemToLinkWordThreshold := 30
|}.

(** [Options{}] *)
Definition Options_zero : Options := {|
  PrettyTables := false;
  PrettyTablesOptions_ := None;
  OmitLinks := false;
  CitationStart := 0;
  CitationMarkers := false;
  LinkEmitFrequency := 0;
  NumberedLinks := false;
  EmitImagesAsLinks := false;
  ImageMarkerPrefix := [];
  EmptyLinkPrefix := [];
  ListItemToLinkWordThreshold := 0
|}.

Record linkAccumulatorType := mkAcc {
  emitParaCount : Z;
  linkArray : list citationLink;
  flushedToIndex : Z;
  tableNestLevel : Z
}.

Definition newlinkAccumulator : linkAccumulatorType :=
  {| emitParaCount := 0; linkArray := []; flushedToIndex := -1; tableNestLevel := 0 |}.

Record TextifyTraverseContext := mkCtx {
  buf : gostring;
  prefix : gostring;
  tableCtx : tableTraverseContext;
  options : Options;
  endsWithSpace : bool;
  justClosedDiv : bool;
  blockquoteLevel : Z;
  lineLength : Z;
  isPre : bool;
  linkAccumulator : linkAccumulatorType
}.

(** [TextifyTraverseContext{}], the scratch context of the probes: every
    field zero, so [flushedToIndex] is 0 and not -1. *)
Definition TextifyTraverseContext_zero : TextifyTraverseContext := {|
  buf := [];
  prefix := [];
  tableCtx := tableCtx_zero;
  options := Options_zero;
  endsWithSpace := false;
  justClosedDiv := false;
  blockquoteLevel := 0;
  lineLength := 0;
  isPre := false;
  linkAccumulator :=
    {| emitParaCount := 0; linkArray := []; flushedToIndex := 0; tableNestLevel := 0 |}
|}.

Definition set_buf v c := mkCtx v (prefix c) (tableCtx c) (options c) (endsWithSpace c) (justClosedDiv c) (blockquoteLevel c) (lineLength c) (isPre c) (linkAccumulator c).
Definition set_prefix v c := mkCtx (buf c) v (tableCtx c) (options c) (endsWithSpace c) (justClosedDiv c) (blockquoteLevel c) (lineLength c) (isPre c) (linkAccumulator c).
Definition set_tableCtx v c := mkCtx (buf c) (prefix c) v (options c) (endsWithSpace c) (justClosedDiv c) (blockquoteLevel c) (lineLength c) (isPre c) (linkAccumulator c).
Definition set_options v c := mkCtx (buf c) (prefix c) (tableCtx c) v (endsWithSpace c) (justClosedDiv c) (blockquoteLevel c) (lineLength c) (isPre c) (linkAccumulator c).
Definition set_endsWithSpace v c := mkCtx (buf c) (prefix c) (tableCtx c) (options c) v (justClosedDiv c) (blockquoteLevel c) (lineLength c) (isPre c) (linkAccumulator c).
Definition set_justClosedDiv v c := mkCtx (buf c) (prefix c) (tableCtx c) (options c) (endsWithSpace c) v (blockquoteLevel c) (lineLength c) (isPre c) (linkAccumulator c).
Definition set_blockquoteLevel v c := mkCtx (buf c) (prefix c) (tableCtx c) (options c) (endsWithSpace c) (justClosedDiv c) v (lineLength c) (isPre c) (linkAccumulator c).
Definition set_lineLength v c := mkCtx (buf c) (prefix c) (tableCtx c) (options c) (endsWithSpace c) (justClosedDiv c) (blockquoteLevel c) v (isPre c) (linkAccumulator c).
Definition set_isPre v c := mkCtx (buf c) (prefix c) (tableCtx c) (options c) (endsWithSpace c) (justClosedDiv c) (blockquoteLevel c) (lineLength c) v (linkAccumulator c).
Definition set_linkAccumulator v c := mkCtx (buf c) (prefix c) (tableCtx c) (options c) (endsWithSpace c) (justClosedDiv c) (blockquoteLevel c) (lineLength c) (isPre c) v.

Definition set_emitParaCount v a := mkAcc v (linkArray a) (flushedToIndex a) (tableNestLevel a).
Definition set_linkArray v a := mkAcc (emitParaCount a) v (flushedToIndex a) (tableNestLevel a).
Definition set_flushedToIndex v a := mkAcc (emitParaCount a) (linkArray a) v (tableNestLevel a).
Definition set_tableNestLevel v a := mkAcc (emitParaCount a) (linkArray a) (flushedToIndex a) v.

Definition State := TextifyTraverseContext.

Definition on_ctx (f : State -> State) : M State unit := modify f.
Definition on_acc (f : linkAccumulatorType -> linkAccumulatorType) : M State unit :=
  modify (fun c => set_linkAccumulator (f (linkAccumulator c)) c).
Definition on_tableCtx (f : tableTraverseContext -> tableTraverseContext) : M State unit :=
  modify (fun c => set_tableCtx (f (tableCtx c)) c).
Definition the_ctx : M State State := get.
Definition the_acc : M State linkAccumulatorType := fun c => Ok (linkAccumulator c) c.

Definition NewTraverseContext (options : Options) : TextifyTraverseContext :=
  let options := {|
    PrettyTables := PrettyTables options;
    PrettyTablesOptions_ := PrettyTablesOptions_ options;
    OmitLinks := OmitLinks options;
    CitationStart := 1;
    CitationMarkers := CitationMarkers options;
    LinkEmitFrequency := LinkEmitFrequency options;
    NumberedLinks := NumberedLinks options;
    EmitImagesAsLinks := EmitImagesAsLinks options;
    ImageMarkerPrefix := ImageMarkerPrefix options;
    EmptyLinkPrefix := EmptyLinkPrefix options;
    ListItemToLinkWordThreshold := ListItemToLinkWordThreshold options |} in
  {| buf := [];
     prefix := [];
     tableCtx := tableCtx_zero;
     options := options;
     endsWithSpace := false;
     justClosedDiv := false;
     blockquoteLevel := 0;
     lineLength := 0;
     isPre := false;
     linkAccumulator := newlinkAccumulator |}.

(** *** The text emitter *)

Definition writeRune (c : State) (r : rune) : State :=
  let c := set_lineLength (lineLength c + 1) (set_buf (buf c ++ [r]) c) in
  if r =? LF then
    let c := set_lineLength 0 c in
    if negb (is_empty (prefix c)) then set_buf (buf c ++ prefix c) c else c
  else c.

Definition emitLine (c : State) (line : gostring) : option State :=
  match line with
  | [] => None
  | first :: _ =>
      let startsWithSpace := IsSpace first || punctNoSpaceBefore first in
      let c :=
        if negb startsWithSpace && negb (endsWithSpace c)
        then set_lineLength (lineLength c + 1) (set_buf (buf c ++ [SP]) c)
        else c in
      let final := last line first in
      let c := set_endsWithSpace (IsSpace final || punctNoSpaceAfter final) c in
      Some (fold_left writeRune line c)
  end.

(** Here [lines] is just [[]string{data}]. *)
Definition emit (data : gostring) : M State unit :=
  fun c =>
    if is_empty data then Ok tt c
    else match emitLine c data with
         | Some c' => Ok tt c'
         | None => Panic IndexOutOfRange
         end.

(** *** The citation accumulator *)

Definition ResetCitationCounters : M State unit :=
  on_acc (fun a => set_flushedToIndex (len (linkArray a) - 1) a) ;;
  on_acc (set_emitParaCount 0).

Definition forceFlushGeminiCitations : M State unit :=
  a <- the_acc ;;
  if tableNestLevel a >? 0 then ret tt
  else
    on_ctx (fun c => set_buf (buf c ++ gs "\n") c) ;;
    on_ctx (fun c => set_buf (buf c ++ [LF]) c) ;;
    on_ctx (fun c => set_buf
              (buf c ++ citationLines (NumberedLinks (options c)) (flushedToIndex a) 0
                                      (linkArray a)) c) ;;
    on_ctx (fun c => set_buf (buf c ++ [LF]) c) ;;
    ResetCitationCounters.

Definition emitGeminiCitations : M State unit :=
  a <- the_acc ;;
  if len (linkArray a) >? flushedToIndex a
  then forceFlushGeminiCitations
  else ret tt.

Definition FlushCitations : M State unit := emitGeminiCitations.

Definition CheckFlushCitations : M State unit :=
  a <- the_acc ;;
  c <- the_ctx ;;
  if (emitParaCount a >? LinkEmitFrequency (options c))
     && (len (linkArray a) >? flushedToIndex a + 1)
  then FlushCitations
  else on_acc (fun a => set_emitParaCount (emitParaCount a + 1) a).

Definition addGeminiCitation (url display : gostring) : M State gostring :=
  match url with
  | [] => throw SliceBoundsOutOfRange
  | first :: _ =>
      if first =? 35 then ret []
      else
        a <- the_acc ;;
        c <- the_ctx ;;
        let idx := int_add (len (linkArray a)) (CitationStart (options c)) in
        let url := if Contains url (gs " ")
                   then ReplaceAll url (gs " ") (gs "%20") else url in
        let citation := {| index := idx; url := url; display := display |} in
        on_acc (set_linkArray (linkArray a ++ [citation])) ;;
        ret (formatGeminiCitation (index citation) (CitationMarkers (options c)))
  end.

(** *** The end of a render *)

(** [regexp.ReplaceAllString] for an expression that matches no empty
    string: [matchAt s] is the length of the match that starts [s]. *)
Fixpoint regexReplace_from (skip : nat) (matchAt : gostring -> option nat)
         (repl : gostring) (s : gostring) : gostring :=
  match s with
  | [] => []
  | r :: s' =>
      match skip with
      | S k => regexReplace_from k matchAt repl s'
      | O =>
          match matchAt s with
          | Some n => repl ++ regexReplace_from (n - 1) matchAt repl s'
          | None => r :: regexReplace_from 0 matchAt repl s'
          end
      end
  end.

(** [\n *\n+> \n] *)
Definition startQuote (s : gostring) : option nat :=
  match s with
  | r :: s1 =>
      if r =? LF then
        let spaces := takeWhile (fun r => r =? SP) s1 in
        let s2 := skipn (length spaces) s1 in
        let newlines := takeWhile (fun r => r =? LF) s2 in
        let s3 := skipn (length newlines) s2 in
        if (1 <=? length newlines)%nat && HasPrefix s3 (gs "> \n")
        then Some (1 + length spaces + length newlines + 3)%nat
        else None
      else None
  | [] => None
  end.

(** [\n> \n\n+] *)
Definition endQuote (s : gostring) : option nat :=
  if HasPrefix s (gs "\n> \n") then
    let newlines := takeWhile (fun r => r =? LF) (skipn 4 s) in
    if (1 <=? length newlines)%nat then Some (4 + length newlines)%nat else None
  else None.

Definition tidyQuotes (text : gostring) : gostring :=
  let text := regexReplace_from 0 startQuote (gs "\n\n") text in
  let text := regexReplace_from 0 endQuote (gs "\n\n") text in
  regexReplace_from 0 endQuote (gs "\n\n") text.

(** *** The tree walker *)

Section Walker.
Variable tablewriter_Render : TableWriter.

Definition paragraphHandler (traverseChildren : M State unit) : M State unit :=
  CheckFlushCitations ;;
  emit (gs "\n\n") ;;
  traverseChildren ;;
  emit (gs "\n\n") ;;
  ret tt.

Definition handleTableElement (traverseChildren : M State unit)
           (renderEachChild : M State gostring) (node : Node) : M State unit :=
  c <- the_ctx ;;
  if negb (PrettyTables (options c)) then throw PrettyTablesNotActive
  else
    match DataAtom node with
    | atom.Table =>
        a <- the_acc ;;
        (if tableNestLevel a =? 0 then emit (gs "\n\n```\n") else emit (gs "\n\n")) ;;
        on_acc (fun a => set_tableNestLevel (tableNestLevel a + 1) a) ;;
        on_tableCtx tableCtx_init ;;
        traverseChildren ;;
        c <- the_ctx ;;
        emit (tablewriter_Render (PrettyTablesOptions_ (options c))
                (header (tableCtx c)) (footer (tableCtx c)) (body (tableCtx c))) ;;
        on_acc (fun a => set_tableNestLevel (tableNestLevel a - 1) a) ;;
        a <- the_acc ;;
        if tableNestLevel a =? 0 then emit (gs "```\n\n") else emit (gs "\n\n")
    | atom.Tfoot =>
        on_tableCtx (fun t => {| header := header t; body := body t; footer := footer t;
                                 tmpRow := tmpRow t; isInFooter := true |}) ;;
        traverseChildren ;;
        on_tableCtx (fun t => {| header := header t; body := body t; footer := footer t;
                                 tmpRow := tmpRow t; isInFooter := false |})
    | atom.Tr =>
        on_tableCtx (fun t => {| header := header t; body := body t ++ [[]];
                                 footer := footer t; tmpRow := tmpRow t;
                                 isInFooter := isInFooter t |}) ;;
        traverseChildren ;;
        on_tableCtx (fun t => {| header := header t; body := body t; footer := footer t;
                                 tmpRow := tmpRow t + 1; isInFooter := isInFooter t |})
    | atom.Th =>
        res <- renderEachChild ;;
        on_tableCtx (fun t => {| header := header t ++ [res]; body := body t;
                                 footer := footer t; tmpRow := tmpRow t;
                                 isInFooter := isInFooter t |})
    | atom.Td =>
        res <- renderEachChild ;;
        c <- the_ctx ;;
        let t := tableCtx c in
        if isInFooter t then
          on_tableCtx (fun t => {| header := header t; body := body t;
                                   footer := footer t ++ [res]; tmpRow := tmpRow t;
                                   isInFooter := isInFooter t |})
        else
          match appendToRow (body t) (tmpRow t) res with
          | None => throw IndexOutOfRange
          | Some body' =>
              on_tableCtx (fun t => {| header := header t; body := body';
                                       footer := footer t; tmpRow := tmpRow t;
                                       isInFooter := isInFooter t |})
          end
    | _ => ret tt
    end.

(** [testCtx := TextifyTraverseContext{}; testCtx.traverseChildren(node)]:
    the children rendered into a scratch context, which is the result;
    the context of the caller is not touched. *)
Definition probe (traverseChildren : M State unit) : M State State :=
  fun c =>
    match traverseChildren TextifyTraverseContext_zero with
    | Ok _ testCtx => Ok testCtx c
    | Panic p => Panic p
    end.

(** The test both probes make: fewer pieces between single spaces than
    the threshold, and exactly one link. *)
Definition singletonLink (maxSingletonLinkLength : Z) (testCtx : State) : bool :=
  (len (Split (buf testCtx) SP) <? maxSingletonLinkLength)
  && (len (linkArray (linkAccumulator testCtx)) =? 1).

Definition linkLine (testCtx : State) : gostring :=
  gs "=> " ++ url (nth 0 (linkArray (linkAccumulator testCtx))
                       {| index := 0; url := []; display := [] |})
  ++ gs " " ++ buf testCtx ++ gs "\n".

Definition handleElement (traverseChildren : M State unit)
           (renderEachChild : M State gostring) (node : Node) : M State unit :=
  on_ctx (set_justClosedDiv false) ;;
  match DataAtom node with
  | atom.Footer | atom.Nav => ret tt

  | atom.Br => emit (gs "\n")

  | atom.H1 | atom.H2 | atom.H3 =>
      prefix <- (if atom.eqb (DataAtom node) atom.H1
                 then FlushCitations ;; ret (gs "# ") else ret []) ;;
      prefix <- (if atom.eqb (DataAtom node) atom.H2
                 then FlushCitations ;; ret (gs "## ") else ret prefix) ;;
      prefix <- (if atom.eqb (DataAtom node) atom.H3
                 then FlushCitations ;; ret (gs "### ") else ret prefix) ;;
      emit (gs "\n\n" ++ prefix) ;;
      traverseChildren ;;
      emit (gs "\n\n")

  | atom.Blockquote =>
      FlushCitations ;;
      on_ctx (fun c => set_blockquoteLevel (blockquoteLevel c + 1) c) ;;
      c <- the_ctx ;;
      (if blockquoteLevel c <? 0 then throw NegativeRepeatCount
       else on_ctx (set_prefix (Repeat (gs ">") (blockquoteLevel c) ++ gs " "))) ;;
      traverseChildren ;;
      on_ctx (fun c => set_blockquoteLevel (blockquoteLevel c - 1) c) ;;
      c <- the_ctx ;;
      (if blockquoteLevel c <? 0 then throw NegativeRepeatCount
       else on_ctx (set_prefix (Repeat (gs ">") (blockquoteLevel c)))) ;;
      when (blockquoteLevel c >? 0) (on_ctx (fun c => set_prefix (prefix c ++ gs " ") c)) ;;
      emit []

  | atom.Div =>
      c <- the_ctx ;;
      when (lineLength c >? 0) (emit (gs "\n")) ;;
      traverseChildren ;;
      c <- the_ctx ;;
      when (negb (justClosedDiv c)) (emit (gs "\n")) ;;
      on_ctx (set_justClosedDiv true)

  | atom.Li =>
      testCtx <- probe traverseChildren ;;
      c <- the_ctx ;;
      let maxSingletonLinkLength := ListItemToLinkWordThreshold (options c) in
      if singletonLink maxSingletonLinkLength testCtx then emit (linkLine testCtx)
      else if len (linkArray (linkAccumulator testCtx)) =? 0
      then emit (gs "* " ++ buf testCtx ++ gs "\n")
      else
        emit (gs "* ") ;;
        traverseChildren ;;
        emit (gs "\n")

  | atom.Img =>
      c <- the_ctx ;;
      let altText := imageAltText node (ImageMarkerPrefix (options c)) in
      if EmitImagesAsLinks (options c) then
        emit altText ;;
        hrefLink <-
          (let attrVal := getAttrVal node (gs "src") in
           if negb (is_empty attrVal) then
             let attrVal := normalizeHrefLink attrVal in
             if negb (OmitLinks (options c)) && negb (is_empty attrVal)
                && negb (string_eqb altText attrVal)
             then addGeminiCitation attrVal altText
             else ret []
           else ret []) ;;
        emit hrefLink
      else emit altText

  | atom.A =>
      let linkText :=
        match children node with
        | [first] =>
            match Type_ first with
            | html.TextNode => Data first
            | _ => []
            end
        | _ => []
        end in
      traverseChildren ;;
      c <- the_ctx ;;
      linkText <-
        match children node with
        | [img] =>
            if atom.eqb (DataAtom img) atom.Img
            then emit (gs " " ++ EmptyLinkPrefix (options c)) ;;
                 ret (EmptyLinkPrefix (options c))
            else ret linkText
        | _ => ret linkText
        end ;;
      hrefLink <-
        (let attrVal := getAttrVal node (gs "href") in
         if negb (is_empty attrVal) then
           let attrVal := normalizeHrefLink attrVal in
           if negb (OmitLinks (options c)) && negb (is_empty attrVal)
              && negb (string_eqb linkText attrVal)
           then addGeminiCitation attrVal linkText
           else ret []
         else ret []) ;;
      emit hrefLink

  | atom.Ul => paragraphHandler traverseChildren

  | atom.P =>
      testCtx <- probe traverseChildren ;;
      c <- the_ctx ;;
      let maxSingletonLinkLength := ListItemToLinkWordThreshold (options c) in
      if singletonLink maxSingletonLinkLength testCtx then emit (linkLine testCtx)
      else if len (linkArray (linkAccumulator testCtx)) =? 0
      then emit (buf testCtx ++ gs "\n")
      else paragraphHandler traverseChildren

  | atom.Table | atom.Tfoot | atom.Th | atom.Tr | atom.Td =>
      c <- the_ctx ;;
      if PrettyTables (options c) then
        handleTableElement traverseChildren renderEachChild node
      else if atom.eqb (DataAtom node) atom.Table then
        emit (gs "\n\n" ++ [8862] ++ gs " table " ++ [8862] ++ gs "\n\n") ;;
        paragraphHandler traverseChildren
      else
        when (atom.eqb (DataAtom node) atom.Tr) (emit (gs "\n")) ;;
        traverseChildren

  | atom.Pre =>
      emit (gs "\n\n```\n") ;;
      on_ctx (set_isPre true) ;;
      traverseChildren ;;
      on_ctx (set_isPre false) ;;
      emit (gs "\n```\n\n")

  | atom.Style | atom.Script | atom.Head => ret tt

  | _ => traverseChildren
  end.

(** [FromHTMLNode(doc, ctx)], with [traverse_doc] for [ctx.traverse(doc)].
    The context is passed by value: the state of the result is the copy
    the call worked on, which the caller never sees. *)
Definition FromHTMLNode_of (traverse_doc : M State unit) (ctx : TextifyTraverseContext)
  : Res State gostring :=
  (traverse_doc ;;
   forceFlushGeminiCitations ;;
   c <- the_ctx ;;
   ret (tidyQuotes (normalize (buf c)))) ctx.

(** [FromHTMLNode(c, *ctx)] as [renderEachChild] calls it: the render
    works on a copy of the context and the caller keeps its own.  The
    copy is shallow.  What the copy appends to the buffer, to the link
    array, to the header and the footer lies behind the lengths the
    caller holds and is not seen by it.  The rows of [tableCtx.body] are
    shared, though: a [td] rendered inside the copy, with no [table]
    element in between to start a table of its own, assigns to
    [body[tmpRow]] of the caller's open table.  That write is left out
    here (what it needs, the capacity of the slices, is the runtime's
    business), so for such trees the [tableCtx] of the caller, and the
    text of the table printed from it, are not those of the program;
    nothing below reads them there. *)
Definition renderCopy (traverse_doc : M State unit) : M State gostring :=
  fun ctx =>
    match FromHTMLNode_of traverse_doc ctx with
    | Ok s _ => Ok s ctx
    | Panic p => Panic p
    end.

Fixpoint traverse (node : Node) : M State unit :=
  match node with
  | mkNode type _ data _ cs =>
      let traverseChildren := traverseChildren_of traverse cs in
      let renderEachChild :=
        renderEachChild_of (fun c => renderCopy (traverse c)) cs in
      match type with
      | html.TextNode =>
          c <- the_ctx ;;
          emit (if isPre c then data
                else TrimSpace (spacingRe_ReplaceAll_space data))
      | html.ElementNode => handleElement traverseChildren renderEachChild node
      | _ => traverseChildren
      end
  end.

Definition traverseChildren (node : Node) : M State unit :=
  traverseChildren_of traverse (children node).

Definition renderEachChild (node : Node) : M State gostring :=
  renderEachChild_of (fun c => renderCopy (traverse c)) (children node).

Definition FromHTMLNode (doc : Node) (ctx : TextifyTraverseContext) : Res State gostring :=
  FromHTMLNode_of (traverse doc) ctx.

End Walker.

End V2.

(** ** Vocabulary of the statements *)

(** A fragment as [emit] copies it: the line prefix after every newline. *)
Definition withPrefix (prefix data : gostring) : gostring :=
  flat_map (fun r => if r =? LF then LF :: prefix else [r]) data.

(** The separator [emit] writes before a line that starts with [first]. *)
Definition separator (endsWithSpace : bool) (first : rune) : gostring :=
  if negb (IsSpace first || punctNoSpaceBefore first) && negb endsWithSpace
  then [SP] else [].

Definition endsInWhitespace (s : gostring) : bool :=
  match rev s with
  | [] => false
  | r :: _ => IsSpace r
  end.

(** The context as the block quote handler leaves it for the children
    of an outermost quote (the newlines of the flush before it left out),
    and the same context after a word of 74 letters. *)
Definition quoteOpened : V1.textifyTraverseContext := {|
  V1.buf := gs "\n> \n> ";
  V1.prefix := gs "> ";
  V1.tableCtx := tableCtx_zero;
  V1.options := V1.Options_unset;
  V1.endsWithSpace := true;
  V1.justClosedDiv := false;
  V1.blockquoteLevel := 1;
  V1.lineLength := 0;
  V1.isPre := false
|}.

Definition quotedFullLine : V1.textifyTraverseContext := {|
  V1.buf := gs "\n> \n> " ++ repeat 97 74;
  V1.prefix := gs "> ";
  V1.tableCtx := tableCtx_zero;
  V1.options := V1.Options_unset;
  V1.endsWithSpace := false;
  V1.justClosedDiv := false;
  V1.blockquoteLevel := 1;
  V1.lineLength := 74;
  V1.isPre := false
|}.

(** A context whose buffer ends with an opening parenthesis, as [emit]
    leaves it after the fragment "(". *)
Definition afterParenthesis : V1.textifyTraverseContext := {|
  V1.buf := gs " (";
  V1.prefix := [];
  V1.tableCtx := tableCtx_zero;
  V1.options := V1.Options_unset;
  V1.endsWithSpace := true;
  V1.justClosedDiv := false;
  V1.blockquoteLevel := 0;
  V1.lineLength := 2;
  V1.isPre := false
|}.

(** The state of a process that has rendered nothing yet. *)
Definition freshState (o : V1.Options) : V1.State :=
  V1.mkState (V1.newContext o) V1.newLinkAccumulator.

Definition oneLink : citationLink :=
  {| index := 1; url := gs "x"; display := gs "L" |}.

(** Two paragraphs counted since the last flush, the frequency 2 of
    [NewOptions], one citation waiting. *)
Definition twoParagraphsOneLink : V1.State :=
  V1.mkState (V1.newContext (V1.NewOptions None))
             {| V1.emitParaCount := 2; V1.linkArray := [oneLink];
                V1.flushedToIndex := -1; V1.tableNestLevel := 0 |}.

(** Properties of a returned text. *)
Definition trimmed (text : gostring) : Prop :=
  match text with
  | [] => True
  | first :: _ => IsSpace first = false /\ IsSpace (last text first) = false
  end.

Definition occursIn (sub text : gostring) : Prop :=
  exists before after, text = before ++ sub ++ after.

(** A table writer for the examples below, none of which lays out a table. *)
Definition blankTableWriter : TableWriter := fun _ _ _ _ => [].

Definition attr (key val : gostring) : html.Attribute :=
  {| html.Key := key; html.Val := val |}.

(** [<a href="x"></a><a href="y"></a>] *)
Definition twoEmptyLinks : Node :=
  document [element atom.A [attr (gs "href") (gs "x")] [];
            element atom.A [attr (gs "href") (gs "y")] []].

(** [<h1>Test</h1>] *)
Definition headingTest : Node :=
  document [element atom.H1 [] [text (gs "Test")]].

(** [<a href="x">L</a>] *)
Definition oneLinkDoc : Node :=
  document [element atom.A [attr (gs "href") (gs "x")] [text (gs "L")]].

(** [<pre>a\n  b</pre>] *)
Definition preDoc : Node :=
  document [element atom.Pre [] [text (gs "a\n  b")]].

(** A header cell that stands in no table, with a link in it. *)
Definition strayHeaderCell : Node :=
  element atom.Th [] [element atom.A [attr (gs "href") (gs "x")] [text (gs "L")]].

Definition prettyOptions : V1.Options := {|
  V1.PrettyTables := true;
  V1.PrettyTablesOptions_ := None;
  V1.OmitLinks := false;
  V1.CitationStart := 1;
  V1.CitationMarkers := true;
  V1.LinkEmitFrequency := 2;
  V1.NumberedLinks := true;
  V1.EmitImagesAsLinks := true;
  V1.ImageMarkerPrefix := [8225];
  V1.EmptyLinkPrefix := gs ">>"
|}.

(** [<p><a href="x">short</a></p>] and its paragraph. *)
Definition shortLinkParagraph : Node :=
  element atom.P [] [element atom.A [attr (gs "href") (gs "x")] [text (gs "short")]].

Definition shortLinkDoc : Node := document [shortLinkParagraph].

(** The scratch context after the children of [shortLinkParagraph]. *)
Definition scratchAfterShortLink : V2.State :=
  V2.set_linkAccumulator
    {| V2.emitParaCount := 0;
       V2.linkArray := [ {| index := 0; url := gs "x"; display := gs "short" |} ];
       V2.flushedToIndex := 0;
       V2.tableNestLevel := 0 |}
    (V2.set_lineLength 6 (V2.set_buf (gs " short") V2.TextifyTraverseContext_zero)).

(** The citations [added] behind [count] earlier ones carry the indices
    the program gives them, and none is a link into the page itself. *)
Definition registeredFrom (o : V1.Options) (count : Z) (added : list citationLink) : Prop :=
  forall (k : nat) (c : citationLink),
    nth_error added k = Some c ->
    index c = int_add (count + Z.of_nat k) (V1.CitationStart o)
    /\ HasPrefix (url c) (gs "#") = false.

Definition extends (o : V1.Options) (links links' : list citationLink) : Prop :=
  exists added, links' = links ++ added /\ registeredFrom o (len links) added.

(** A computation is steady when it keeps the options, only appends
    well-numbered citations to the link array, and never slices an empty
    url. *)
Definition steady {A : Type} (m : M V1.State A) : Prop :=
  forall s : V1.State,
    match m s with
    | Ok _ s' =>
        V1.options (V1.ctx s') = V1.options (V1.ctx s)
        /\ extends (V1.options (V1.ctx s)) (V1.linkArray (V1.linkAccumulator s))
                   (V1.linkArray (V1.linkAccumulator s'))
    | Panic p => p <> SliceBoundsOutOfRange
    end.

(** The line of one citation in a flushed block. *)
Definition citationLine (numbered : bool) (link : citationLink) : gostring :=
  gs "=> " ++ url link ++ [SP] ++ formatGeminiCitation (index link) numbered
  ++ [SP] ++ display link ++ [LF].

(** *** What a walk keeps

    The facts a walk of a subtree leaves as they were, told against the
    values [g] they had when the walk began: the options, the depth of
    quoting and the line prefix, the table nesting, a flush cursor that
    does not fall below [g_cursor] nor run ahead of the link array (when
    it did not to begin with), and a link array that only grows behind
    [g_links], and not at all when links are omitted. *)
Record ghost := mkGhost {
  g_options : V1.Options;
  g_level : Z;
  g_prefix : gostring;
  g_nest : Z;
  g_bounded : bool;
  g_cursor : Z;
  g_links : list citationLink
}.

Definition holds (g : ghost) (s : V1.State) : Prop :=
  let a := V1.linkAccumulator s in
  V1.options (V1.ctx s) = g_options g
  /\ V1.blockquoteLevel (V1.ctx s) = g_level g
  /\ V1.prefix (V1.ctx s) = g_prefix g
  /\ V1.tableNestLevel a = g_nest g
  /\ (g_bounded g = true ->
      g_cursor g <= V1.flushedToIndex a <= len (V1.linkArray a) - 1)
  /\ (exists added, V1.linkArray a = g_links g ++ added)
  /\ (V1.OmitLinks (g_options g) = true -> V1.linkArray a = g_links g).

(** The one panic a walk can end in: an index past the rows of a table,
    which needs pretty tables. *)
Definition tablePanic (g : ghost) (p : panic) : Prop :=
  p = IndexOutOfRange /\ V1.PrettyTables (g_options g) = true.

Definition moves {A : Type} (g g' : ghost) (m : M V1.State A) : Prop :=
  forall s : V1.State,
    holds g s ->
    match m s with
    | Ok _ s' => holds g' s'
    | Panic p => tablePanic g p
    end.

(** The prefix of a line at a depth of quoting. *)
Definition quotePrefix (level : Z) : gostring :=
  if level >? 0 then Repeat (gs ">") level ++ gs " " else Repeat (gs ">") level.

Definition wellQuoted (g : ghost) : Prop :=
  0 <= g_level g /\ g_prefix g = quotePrefix (g_level g).

Definition with_quote (level : Z) (prefix : gostring) (g : ghost) : ghost :=
  mkGhost (g_options g) level prefix (g_nest g) (g_bounded g) (g_cursor g) (g_links g).

Definition with_nest (nest : Z) (g : ghost) : ghost :=
  mkGhost (g_options g) (g_level g) (g_prefix g) nest (g_bounded g) (g_cursor g) (g_links g).

(** The values at a state. *)
Definition ghostOf (bounded : bool) (s : V1.State) : ghost :=
  mkGhost (V1.options (V1.ctx s)) (V1.blockquoteLevel (V1.ctx s)) (V1.prefix (V1.ctx s))
          (V1.tableNestLevel (V1.linkAccumulator s)) bounded
          (V1.flushedToIndex (V1.linkAccumulator s)) (V1.linkArray (V1.linkAccumulator s)).

(** A data cell that stands in no row, and a quoted word. *)
Definition strayDataCell : Node := element atom.Td [] [text (gs "c")].

Definition quotedWord : Node := element atom.Blockquote [] [text (gs "q")].

Definition omittingOptions : V1.Options := {|
  V1.PrettyTables := false;
  V1.PrettyTablesOptions_ := None;
  V1.OmitLinks := true;
  V1.CitationStart := 1;
  V1.CitationMarkers := true;
  V1.LinkEmitFrequency := 2;
  V1.NumberedLinks := true;
  V1.EmitImagesAsLinks := true;
  V1.ImageMarkerPrefix := [8225];
  V1.EmptyLinkPrefix := gs ">>"
|}.

(** The options a call of [FromHTMLNode] works with. *)
Definition optionsOf (o : list V1.Options) : V1.Options :=
  match o with o0 :: _ => o0 | [] => V1.Options_unset end.

(** Runes that are not white space. *)
Definition visible (r : rune) : bool := negb (IsSpace r).

(** A context of the second variant with pretty tables on. *)
Definition prettyContext : V2.State :=
  V2.NewTraverseContext {|
    V2.PrettyTables := true;
    V2.PrettyTablesOptions_ := None;
    V2.OmitLinks := false;
    V2.CitationStart := 1;
    V2.CitationMarkers := true;
    V2.LinkEmitFrequency := 2;
    V2.NumberedLinks := true;
    V2.EmitImagesAsLinks := true;
    V2.ImageMarkerPrefix := [8225];
    V2.EmptyLinkPrefix := gs ">>";
    V2.ListItemToLinkWordThreshold := 30 |}.

(** A context inside a table with [twoParagraphsOneLink]'s citation
    waiting. *)
Definition insideTable : V1.State :=
  V1.mkState (V1.newContext (V1.NewOptions None))
             {| V1.emitParaCount := 2; V1.linkArray := [oneLink];
                V1.flushedToIndex := -1; V1.tableNestLevel := 1 |}.

(** *** Numbering in the second variant

    Citations [added] behind [count] earlier ones, numbered with the
    start [start] in the arithmetic of [int], none of them a link into
    the page itself. *)
Definition numberedFrom (start count : Z) (added : list citationLink) : Prop :=
  forall (k : nat) (c : citationLink),
    nth_error added k = Some c ->
    index c = int_add (count + Z.of_nat k) start
    /\ HasPrefix (url c) (gs "#") = false.

(** The context [c'] carries the options of [c] and its link array with
    well-numbered citations behind it. *)
Definition appended (c c' : V2.State) : Prop :=
  V2.options c' = V2.options c
  /\ exists added,
       V2.linkArray (V2.linkAccumulator c')
       = V2.linkArray (V2.linkAccumulator c) ++ added
       /\ numberedFrom (V2.CitationStart (V2.options c))
                       (len (V2.linkArray (V2.linkAccumulator c))) added.

Definition appending {A : Type} (m : M V2.State A) : Prop :=
  forall (c : V2.State) (a : A) (c' : V2.State), m c = Ok a c' -> appended c c'.

(** *** Where a render can fault

    A tree has a data cell when one of its element nodes is a [td]. *)
Fixpoint hasDataCell (n : Node) : bool :=
  match n with
  | mkNode type a _ _ cs =>
      (match type with
       | html.ElementNode => atom.eqb a atom.Td
       | _ => false
       end)
      || existsb hasDataCell cs
  end.

(** A computation that runs into an index out of range only when [b]
    holds. *)
Definition cellFault {A : Type} (b : bool) (m : M V1.State A) : Prop :=
  forall s : V1.State, m s = Panic IndexOutOfRange -> b = true.

(** Options of either variant with a start of the caller's choosing. *)
Definition startAtFive : V2.Options := {|
  V2.PrettyTables := false;
  V2.PrettyTablesOptions_ := None;
  V2.OmitLinks := false;
  V2.CitationStart := 5;
  V2.CitationMarkers := true;
  V2.LinkEmitFrequency := 2;
  V2.NumberedLinks := true;
  V2.EmitImagesAsLinks := true;
  V2.ImageMarkerPrefix := [8225];
  V2.EmptyLinkPrefix := gs ">>";
  V2.ListItemToLinkWordThreshold := 30 |}.

Definition startAtMaxInt : V1.Options := {|
  V1.PrettyTables := false;
  V1.PrettyTablesOptions_ := None;
  V1.OmitLinks := false;
  V1.CitationStart := int_max;
  V1.CitationMarkers := true;
  V1.LinkEmitFrequency := 2;
  V1.NumberedLinks := true;
  V1.EmitImagesAsLinks := true;
  V1.ImageMarkerPrefix := [8225];
  V1.EmptyLinkPrefix := gs ">>"
|}.

(** [a<blockquote><br></blockquote><br><br>b] *)
Definition quoteThenBreaks : Node :=
  document [text (gs "a"); element atom.Blockquote [] [element atom.Br [] []];
            element atom.Br [] []; element atom.Br [] []; text (gs "b")].

(** What a render may append to the link array [before]: no link into
    the page itself; each index the one before plus 1, in the arithmetic
    of [int]; and, behind an empty array and for a start that is an
    [int], a first index that is the start. *)
Definition wellNumbered (start : Z) (before added : list citationLink) : Prop :=
  (forall (k : nat) (c : citationLink),
      nth_error added k = Some c -> HasPrefix (url c) (gs "#") = false)
  /\ (forall (k : nat) (c c' : citationLink),
        nth_error added k = Some c -> nth_error added (S k) = Some c' ->
        index c' = int_add (index c) 1)
  /\ (before = [] -> int_min <= start <= int_max ->
      forall c : citationLink, nth_error added 0 = Some c -> index c = start).

(** ** The text emitter *)

Lemma writeRune_fields (c : V1.textifyTraverseContext) (r : rune) :
  V1.buf (V1.writeRune c r) = V1.buf c ++ withPrefix (V1.prefix c) [r]
  /\ V1.prefix (V1.writeRune c r) = V1.prefix c
  /\ V1.options (V1.writeRune c r) = V1.options c
  /\ V1.endsWithSpace (V1.writeRune c r) = V1.endsWithSpace c
  /\ V1.justClosedDiv (V1.writeRune c r) = V1.justClosedDiv c
  /\ V1.blockquoteLevel (V1.writeRune c r) = V1.blockquoteLevel c
  /\ V1.isPre (V1.writeRune c r) = V1.isPre c
  /\ V1.tableCtx (V1.writeRune c r) = V1.tableCtx c.
Proof.
  unfold V1.writeRune, withPrefix. cbn [flat_map].
  destruct (r =? LF) eqn:E; cbn.
  - apply Z.eqb_eq in E. subst r.
    destruct (V1.prefix c) eqn:Ep; cbn; rewrite ?Ep, ?app_nil_r, <- ?app_assoc; cbn; auto 10.
  - rewrite ?app_nil_r. auto 10.
Qed.

Lemma withPrefix_app (p a b : gostring) :
  withPrefix p (a ++ b) = withPrefix p a ++ withPrefix p b.
Proof. unfold withPrefix. apply flat_map_app. Qed.

Lemma withPrefix_nil (data : gostring) : withPrefix [] data = data.
Proof.
  induction data as [|r data IH]; cbn; [reflexivity|].
  fold (withPrefix [] data). rewrite IH. destruct (r =? LF) eqn:E; cbn; [|reflexivity].
  apply Z.eqb_eq in E. now subst.
Qed.

Lemma writeRunes_fields (data : gostring) : forall c : V1.textifyTraverseContext,
  V1.buf (fold_left V1.writeRune data c) = V1.buf c ++ withPrefix (V1.prefix c) data
  /\ V1.prefix (fold_left V1.writeRune data c) = V1.prefix c
  /\ V1.options (fold_left V1.writeRune data c) = V1.options c
  /\ V1.endsWithSpace (fold_left V1.writeRune data c) = V1.endsWithSpace c
  /\ V1.justClosedDiv (fold_left V1.writeRune data c) = V1.justClosedDiv c
  /\ V1.blockquoteLevel (fold_left V1.writeRune data c) = V1.blockquoteLevel c
  /\ V1.isPre (fold_left V1.writeRune data c) = V1.isPre c
  /\ V1.tableCtx (fold_left V1.writeRune data c) = V1.tableCtx c.
Proof.
  induction data as [|r data IH]; intros c.
  - cbn. rewrite app_nil_r. auto 10.
  - cbn [fold_left].
    destruct (IH (V1.writeRune c r)) as (Hb & Hp & Ho & He & Hj & Hq & Hi & Ht).
    destruct (writeRune_fields c r) as (Hb' & Hp' & Ho' & He' & Hj' & Hq' & Hi' & Ht').
    rewrite Hb, Hp, Ho, He, Hj, Hq, Hi, Ht, Hb', Hp', Ho', He', Hj', Hq', Hi', Ht'.
    change (r :: data) with ([r] ++ data). rewrite withPrefix_app, app_assoc. auto 10.
Qed.

Lemma emitLine_fields (c : V1.textifyTraverseContext) (first : rune) (rest : gostring) :
  exists c',
    V1.emitLine c (first :: rest) = Some c'
    /\ V1.buf c' = V1.buf c ++ separator (V1.endsWithSpace c) first
                   ++ withPrefix (V1.prefix c) (first :: rest)
    /\ V1.endsWithSpace c' =
         IsSpace (last (first :: rest) first) || punctNoSpaceAfter (last (first :: rest) first)
    /\ V1.prefix c' = V1.prefix c
    /\ V1.options c' = V1.options c
    /\ V1.justClosedDiv c' = V1.justClosedDiv c
    /\ V1.blockquoteLevel c' = V1.blockquoteLevel c
    /\ V1.isPre c' = V1.isPre c
    /\ V1.tableCtx c' = V1.tableCtx c.
Proof.
  unfold V1.emitLine. eexists. split; [reflexivity|].
  match goal with |- context [fold_left V1.writeRune ?l ?c0] =>
    destruct (writeRunes_fields l c0) as (Hb & Hp & Ho & He & Hj & Hq & Hi & Ht) end.
  rewrite Hb, Hp, Ho, He, Hj, Hq, Hi, Ht. unfold separator.
  destruct (negb (IsSpace first || punctNoSpaceBefore first) && negb (V1.endsWithSpace c));
    cbn; rewrite <- ?app_assoc; auto 10.
Qed.

(** C9, as amended.  Outside block quotes (depth 0, where no line is
    broken) [emit] does this: the empty fragment changes nothing; a
    fragment that is not empty is appended to the buffer, the line prefix
    after each of its newlines, behind one space exactly when its first
    rune is neither white space nor one of [. , ; ! ? ) ] >] and the
    ends-with-space flag of the context is off; afterwards that flag tells
    whether the last rune is white space or one of [( [ <].  The other
    flags stay as they are. *)
Theorem emit_outside_blockquote (s : V1.State) (first : rune) (rest : gostring) :
  V1.blockquoteLevel (V1.ctx s) = 0 ->
  V1.emit [] s = Ok tt s
  /\ exists c',
      V1.emit (first :: rest) s = Ok tt (V1.mkState c' (V1.linkAccumulator s))
      /\ V1.buf c' = V1.buf (V1.ctx s)
                     ++ separator (V1.endsWithSpace (V1.ctx s)) first
                     ++ withPrefix (V1.prefix (V1.ctx s)) (first :: rest)
      /\ (V1.prefix (V1.ctx s) = [] ->
          V1.buf c' = V1.buf (V1.ctx s)
                      ++ separator (V1.endsWithSpace (V1.ctx s)) first ++ first :: rest)
      /\ V1.endsWithSpace c' =
           IsSpace (last (first :: rest) first)
           || punctNoSpaceAfter (last (first :: rest) first)
      /\ V1.prefix c' = V1.prefix (V1.ctx s)
      /\ V1.options c' = V1.options (V1.ctx s)
      /\ V1.justClosedDiv c' = V1.justClosedDiv (V1.ctx s)
      /\ V1.blockquoteLevel c' = V1.blockquoteLevel (V1.ctx s)
      /\ V1.isPre c' = V1.isPre (V1.ctx s)
      /\ V1.tableCtx c' = V1.tableCtx (V1.ctx s).
Proof.
  intros Hq. split.
  - destruct s as [c a]. reflexivity.
  - destruct (emitLine_fields (V1.ctx s) first rest)
      as (c' & Hc & Hb & He & Hp & Ho & Hj & Hl & Hi & Ht).
    exists c'. split.
    + unfold V1.emit, V1.emit_ctx, V1.breakLongLines. rewrite Hq.
      cbn [is_empty Z.eqb V1.emitLines]. rewrite Hc. reflexivity.
    + repeat split; try assumption.
      intros Hnil. rewrite Hb, Hnil, withPrefix_nil. reflexivity.
Qed.

Lemma emit_outside_blockquote_witness :
  exists c',
    V1.emit (gs "a") (V1.mkState afterParenthesis V1.newLinkAccumulator)
    = Ok tt (V1.mkState c' V1.newLinkAccumulator)
    /\ V1.buf c' = gs " (a".
Proof.
  destruct (emit_outside_blockquote
              (V1.mkState afterParenthesis V1.newLinkAccumulator) 97 [] eq_refl)
    as (_ & c' & He & Hb & _).
  exists c'. split; [exact He | rewrite Hb; reflexivity].
Defined.

(** C9 as it was stated fails twice.  Inside a block quote, behind a
    word that fills the line, the fragment "a" goes to a new, prefixed
    line and gets no separator although the flag is off.  And at depth 0,
    behind an opening parenthesis, the buffer does not end in white space
    and "a" does not start with white space or punctuation, yet no
    separator is written: what is consulted is the flag, which "(" has
    set. *)
Lemma emit_not_plain_append :
  (V1.emit_ctx quoteOpened (repeat 97 74) = Some quotedFullLine
   /\ V1.endsWithSpace quotedFullLine = false
   /\ exists c',
       V1.emit_ctx quotedFullLine (gs "a") = Some c'
       /\ V1.buf c' = V1.buf quotedFullLine ++ gs "\n> a"
       /\ V1.buf c' <> V1.buf quotedFullLine ++ [SP] ++ gs "a")
  /\ (V1.emit_ctx (V1.newContext V1.Options_unset) (gs "(") = Some afterParenthesis
      /\ endsInWhitespace (V1.buf afterParenthesis) = false
      /\ exists c',
          V1.emit_ctx afterParenthesis (gs "a") = Some c'
          /\ V1.buf c' = gs " (a"
          /\ V1.buf c' <> V1.buf afterParenthesis ++ [SP] ++ gs "a").
Proof.
  split; (split; [vm_compute; reflexivity|]); (split; [reflexivity|]);
    eexists; (split; [vm_compute; reflexivity|]);
    (split; [vm_compute; reflexivity | vm_compute; discriminate]).
Qed.

(** ** The citation accumulator *)

Lemma forceFlush_outside_table (s : V1.State) :
  (V1.tableNestLevel (V1.linkAccumulator s) >? 0) = false ->
  V1.forceFlushGeminiCitations s =
  Ok tt (V1.mkState
           (V1.set_buf
              (V1.buf (V1.ctx s) ++ gs "\n\n"
               ++ citationLines (V1.NumberedLinks (V1.options (V1.ctx s)))
                    (V1.flushedToIndex (V1.linkAccumulator s)) 0
                    (V1.linkArray (V1.linkAccumulator s))
               ++ gs "\n")
              (V1.ctx s))
           {| V1.emitParaCount := 0;
              V1.linkArray := V1.linkArray (V1.linkAccumulator s);
              V1.flushedToIndex := len (V1.linkArray (V1.linkAccumulator s)) - 1;
              V1.tableNestLevel := V1.tableNestLevel (V1.linkAccumulator s) |}).
Proof.
  intros Ht. destruct s as [c a]. cbn in *.
  unfold V1.forceFlushGeminiCitations, bind, V1.the_acc.
  cbn [V1.linkAccumulator V1.ctx]. rewrite Ht.
  cbn. unfold V1.set_buf. cbn. repeat rewrite <- app_assoc. reflexivity.
Qed.

(** Inside a table a flush, forced or not, leaves the whole state alone. *)
Lemma forceFlush_inside_table (s : V1.State) :
  (V1.tableNestLevel (V1.linkAccumulator s) >? 0) = true ->
  V1.forceFlushGeminiCitations s = Ok tt s
  /\ (V1.FlushCitations s = Ok tt s).
Proof.
  intros Ht. destruct s as [c a]. cbn in *.
  assert (Hf : V1.forceFlushGeminiCitations (V1.mkState c a) = Ok tt (V1.mkState c a)).
  { unfold V1.forceFlushGeminiCitations, bind, V1.the_acc.
    cbn [V1.linkAccumulator V1.ctx]. rewrite Ht. reflexivity. }
  split; [exact Hf|].
  unfold V1.FlushCitations, V1.emitGeminiCitations, bind, V1.the_acc.
  cbn [V1.linkAccumulator V1.ctx].
  destruct (len (V1.linkArray a) >? V1.flushedToIndex a); [exact Hf | reflexivity].
Qed.

(** C6, as amended.  [CheckFlushCitations] looks at the paragraph counter
    as it stands before the call.  Exactly when that value exceeds the
    link-emit frequency and a citation beyond [flushedToIndex] exists, it
    is a flush: outside a table the waiting lines are written and the
    counter is back at zero (inside a table nothing happens at all).  In
    every other case nothing is flushed and the counter goes up by one. *)
Theorem CheckFlushCitations_rule (s : V1.State) :
  let c := V1.ctx s in
  let a := V1.linkAccumulator s in
  if (V1.emitParaCount a >? V1.LinkEmitFrequency (V1.options c))
     && (len (V1.linkArray a) >? V1.flushedToIndex a + 1)
  then
    V1.CheckFlushCitations s = V1.FlushCitations s
    /\ (if V1.tableNestLevel a >? 0
        then V1.CheckFlushCitations s = Ok tt s
        else V1.CheckFlushCitations s =
             Ok tt (V1.mkState
                      (V1.set_buf
                         (V1.buf c ++ gs "\n\n"
                          ++ citationLines (V1.NumberedLinks (V1.options c))
                               (V1.flushedToIndex a) 0 (V1.linkArray a)
                          ++ gs "\n") c)
                      {| V1.emitParaCount := 0;
                         V1.linkArray := V1.linkArray a;
                         V1.flushedToIndex := len (V1.linkArray a) - 1;
                         V1.tableNestLevel := V1.tableNestLevel a |}))
  else
    V1.CheckFlushCitations s =
    Ok tt (V1.mkState c (V1.set_emitParaCount (V1.emitParaCount a + 1) a)).
Proof.
  intros c a.
  assert (Hc : V1.CheckFlushCitations s =
               if (V1.emitParaCount a >? V1.LinkEmitFrequency (V1.options c))
                  && (len (V1.linkArray a) >? V1.flushedToIndex a + 1)
               then V1.FlushCitations s
               else Ok tt (V1.mkState c (V1.set_emitParaCount (V1.emitParaCount a + 1) a))).
  { unfold V1.CheckFlushCitations, bind, V1.the_acc, V1.the_ctx. cbn.
    fold a c. destruct (_ && _); reflexivity. }
  destruct ((V1.emitParaCount a >? V1.LinkEmitFrequency (V1.options c))
            && (len (V1.linkArray a) >? V1.flushedToIndex a + 1)) eqn:E.
  - split; [exact Hc|]. rewrite Hc.
    apply andb_true_iff in E. destruct E as [_ E].
    assert (Hp : (len (V1.linkArray a) >? V1.flushedToIndex a) = true).
    { apply Z.gtb_lt. apply Z.gtb_lt in E. lia. }
    destruct (V1.tableNestLevel a >? 0) eqn:Et.
    + apply forceFlush_inside_table. exact Et.
    + unfold V1.FlushCitations, V1.emitGeminiCitations, bind, V1.the_acc.
      cbn. fold a. rewrite Hp. apply forceFlush_outside_table. exact Et.
  - exact Hc.
Qed.

(** C6 as it was stated: with two paragraphs counted, frequency 2 and a
    citation waiting, the incremented counter 3 exceeds the frequency, so a
    flush was promised; the code writes nothing and leaves the citation
    waiting. *)
Lemma CheckFlushCitations_tests_before_counting :
  let c := V1.ctx twoParagraphsOneLink in
  let a := V1.linkAccumulator twoParagraphsOneLink in
  ((V1.emitParaCount a + 1 >? V1.LinkEmitFrequency (V1.options c))
   && (len (V1.linkArray a) >? V1.flushedToIndex a + 1)) = true
  /\ V1.CheckFlushCitations twoParagraphsOneLink =
     Ok tt (V1.mkState c {| V1.emitParaCount := 3; V1.linkArray := [oneLink];
                            V1.flushedToIndex := -1; V1.tableNestLevel := 0 |}).
Proof. split; reflexivity. Qed.

(** C5: the code at the failing input.  With no citation registered at
    all, a flush still writes three newlines into the buffer: the guard of
    [emitGeminiCitations] compares the length with [flushedToIndex] and not
    with [flushedToIndex + 1]. *)
Theorem FlushCitations_writes_when_nothing_is_pending :
  V1.FlushCitations (freshState (V1.NewOptions None)) =
  Ok tt (V1.mkState (V1.set_buf (gs "\n\n\n") (V1.newContext (V1.NewOptions None)))
                    V1.newLinkAccumulator).
Proof. reflexivity. Qed.

(** ** The end of a render *)

Lemma dropWhile_suffix (f : rune -> bool) (s : gostring) :
  exists p, s = p ++ dropWhile f s.
Proof.
  induction s as [|r s [p IH]]; cbn.
  - exists []. reflexivity.
  - destruct (f r).
    + exists (r :: p). cbn. now rewrite <- IH.
    + exists []. reflexivity.
Qed.

Lemma dropWhile_head (f : rune -> bool) (s : gostring) (r : rune) (t : gostring) :
  dropWhile f s = r :: t -> f r = false.
Proof.
  induction s as [|x s IH]; cbn; [discriminate|].
  destruct (f x) eqn:E; [exact IH|].
  intros H. injection H as -> _. exact E.
Qed.

Lemma TrimSpace_infix (s : gostring) :
  exists p q, s = p ++ TrimSpace s ++ q.
Proof.
  unfold TrimSpace.
  destruct (dropWhile_suffix IsSpace s) as [p Hp].
  destruct (dropWhile_suffix IsSpace (rev (dropWhile IsSpace s))) as [q Hq].
  exists p, (rev q).
  rewrite <- rev_app_distr, <- Hq, rev_involutive. exact Hp.
Qed.

Lemma last_app_cons (a : gostring) (x d : rune) : last (a ++ [x]) d = x.
Proof. apply last_last. Qed.

Lemma TrimSpace_trimmed (s : gostring) : trimmed (TrimSpace s).
Proof.
  unfold TrimSpace.
  set (t := dropWhile IsSpace s).
  destruct (dropWhile IsSpace (rev t)) as [|x u] eqn:Eu; [exact I|].
  pose proof (dropWhile_head _ _ _ _ Eu) as Hx.
  destruct (dropWhile_suffix IsSpace (rev t)) as [q Hq]. rewrite Eu in Hq.
  assert (Ht : t = rev u ++ x :: rev q).
  { rewrite <- (rev_involutive t), Hq, rev_app_distr. cbn. now rewrite <- app_assoc. }
  cbn [rev]. unfold trimmed.
  destruct (rev u ++ [x]) as [|first w] eqn:Ew.
  { destruct (rev u); discriminate. }
  split.
  - destruct t as [|h t'] eqn:Et.
    { destruct (rev u); discriminate. }
    assert (Hh : IsSpace h = false) by (apply (dropWhile_head IsSpace s h t'); exact Et).
    destruct (rev u) as [|y v] eqn:Ey; cbn in Ew, Ht.
    + injection Ew as <- _. exact Hx.
    + injection Ew as <- _. injection Ht as -> _. exact Hh.
  - rewrite <- Ew, last_app_cons. exact Hx.
Qed.

Lemma Contains_infix (sub before after : gostring) :
  Contains (before ++ sub ++ after) sub = true.
Proof.
  assert (Hp : forall a b, HasPrefix (a ++ b) a = true).
  { induction a as [|x a IH]; intros b; cbn; [destruct b; reflexivity|].
    rewrite Z.eqb_refl. apply IH. }
  induction before as [|x before IH]; cbn [app].
  - destruct (sub ++ after) eqn:E; cbn [Contains]; rewrite <- ?E, Hp; reflexivity.
  - cbn [Contains]. rewrite IH. apply orb_true_r.
Qed.

(** The number of newlines a text starts with. *)
Lemma newlineRe_collapse_start (s : gostring) : forall seen : nat,
  (seen <= 2)%nat ->
  HasPrefix (newlineRe_collapse seen s) (repeat LF (3 - seen)) = false.
Proof.
  induction s as [|r s IH]; intros seen Hs.
  - cbn. destruct seen as [|[|[|?]]]; cbn; try reflexivity; lia.
  - cbn [newlineRe_collapse]. destruct (r =? LF) eqn:E.
    + destruct seen as [|[|[|?]]]; try lia.
      * specialize (IH 1%nat ltac:(lia)). cbn in IH |- *. exact IH.
      * specialize (IH 2%nat ltac:(lia)). cbn in IH |- *. exact IH.
      * apply (IH 2%nat). lia.
    + destruct seen as [|[|[|?]]]; try lia; cbn [Nat.sub repeat HasPrefix];
        rewrite Z.eqb_sym, E; reflexivity.
Qed.

Lemma HasPrefix_nil (s : gostring) : HasPrefix s [] = true.
Proof. destruct s; reflexivity. Qed.

Lemma newlineRe_collapse_no_triple (s : gostring) : forall seen : nat,
  (seen <= 2)%nat ->
  Contains (newlineRe_collapse seen s) [LF; LF; LF] = false.
Proof.
  induction s as [|r s IH]; intros seen Hs.
  - reflexivity.
  - cbn [newlineRe_collapse]. destruct (r =? LF) eqn:E.
    + destruct seen as [|[|[|?]]]; try lia.
      * cbn [Contains]. rewrite (IH 1%nat) by lia.
        pose proof (newlineRe_collapse_start s 1 ltac:(lia)) as H.
        cbn [Nat.sub repeat] in H. cbn [HasPrefix].
        rewrite H, Z.eqb_refl. reflexivity.
      * cbn [Contains]. rewrite (IH 2%nat) by lia.
        pose proof (newlineRe_collapse_start s 2 ltac:(lia)) as H.
        cbn [Nat.sub repeat] in H. cbn [HasPrefix].
        destruct (newlineRe_collapse 2 s) as [|y w]; [reflexivity|].
        cbn [HasPrefix] in H |- *. rewrite HasPrefix_nil, andb_true_r in H.
        rewrite H. reflexivity.
      * apply (IH 2%nat). lia.
    + cbn [Contains]. rewrite (IH 0%nat) by lia.
      cbn [HasPrefix]. rewrite Z.eqb_sym, E. reflexivity.
Qed.

Lemma normalize_no_triple (buf : gostring) :
  ~ occursIn [LF; LF; LF] (normalize buf).
Proof.
  unfold normalize. intros (a & b & H).
  match type of H with TrimSpace ?t = _ => destruct (TrimSpace_infix t) as (p & q & Hpq);
    pose proof (newlineRe_collapse_no_triple (ReplaceAll buf (gs "\n ") (gs "\n")) 0 ltac:(lia))
      as Hn end.
  unfold newlineRe_ReplaceAll_2nl in *.
  rewrite Hpq, H in Hn.
  replace (p ++ (a ++ [LF; LF; LF] ++ b) ++ q)
    with ((p ++ a) ++ [LF; LF; LF] ++ (b ++ q)) in Hn
    by (repeat rewrite <- app_assoc; reflexivity).
  rewrite Contains_infix in Hn. discriminate.
Qed.

Lemma FromHTMLNode_text (tw : TableWriter) (doc : Node) (o : list V1.Options)
      (acc acc' : V1.linkAccumulatorType) (text : gostring) :
  V1.FromHTMLNode tw doc o acc = Ok text acc' ->
  exists s',
    (V1.traverse tw doc ;; V1.forceFlushGeminiCitations)
      (V1.mkState (V1.newContext (optionsOf o)) acc) = Ok tt s'
    /\ acc' = V1.linkAccumulator s'
    /\ text = normalize (V1.buf (V1.ctx s')).
Proof.
  unfold V1.FromHTMLNode, V1.FromHTMLNode_within, optionsOf.
  destruct (bind _ _ _) as [[] s|p]; [|discriminate].
  intros H. injection H as <- <-. exists s. repeat split.
Qed.

(** C8, as amended.  The text of every completed render of
    [html2gemini.go] has no white space at its start or its end and no
    run of three newlines; it is the buffer that the traversal of the
    tree and the final flush of the citations leave, with the one space
    behind each newline taken out, the runs of newlines cut to two, and
    the ends trimmed.  (A space in front of a newline is not looked
    for.) *)
Theorem FromHTMLNode_normalized (tw : TableWriter) (doc : Node) (o : list V1.Options)
        (acc acc' : V1.linkAccumulatorType) (text : gostring) :
  V1.FromHTMLNode tw doc o acc = Ok text acc' ->
  trimmed text
  /\ ~ occursIn [LF; LF; LF] text
  /\ exists s',
       (V1.traverse tw doc ;; V1.forceFlushGeminiCitations)
         (V1.mkState (V1.newContext (optionsOf o)) acc) = Ok tt s'
       /\ acc' = V1.linkAccumulator s'
       /\ text = TrimSpace (newlineRe_ReplaceAll_2nl
                              (ReplaceAll (V1.buf (V1.ctx s')) (gs "\n ") (gs "\n"))).
Proof.
  intros H. destruct (FromHTMLNode_text _ _ _ _ _ _ H) as (s' & Hs & Ha & ->).
  split; [apply TrimSpace_trimmed|]. split; [apply normalize_no_triple|].
  exists s'. split; [exact Hs|]. split; [exact Ha | reflexivity].
Qed.

Lemma FromHTMLNode_normalized_witness :
  V1.FromHTMLNode blankTableWriter headingTest [V1.NewOptions None] V1.newLinkAccumulator
  = Ok (gs "# Test") V1.newLinkAccumulator
  /\ trimmed (gs "# Test")
  /\ ~ occursIn [LF; LF; LF] (gs "# Test")
  /\ exists s',
       (V1.traverse blankTableWriter headingTest ;; V1.forceFlushGeminiCitations)
         (V1.mkState (V1.newContext (V1.NewOptions None)) V1.newLinkAccumulator) = Ok tt s'
       /\ gs "# Test" = normalize (V1.buf (V1.ctx s')).
Proof.
  assert (H : V1.FromHTMLNode blankTableWriter headingTest [V1.NewOptions None]
                V1.newLinkAccumulator = Ok (gs "# Test") V1.newLinkAccumulator)
    by (vm_compute; reflexivity).
  split; [exact H|].
  destruct (FromHTMLNode_normalized _ _ _ _ _ _ H) as (Ht & Hn & s' & Hs & _ & Hb).
  split; [exact Ht|]. split; [exact Hn|]. exists s'. split; [exact Hs | exact Hb].
Defined.

(** C8 as it was stated: two links without text give a first citation
    line that ends in a space, and that space stays in front of its
    newline in the returned text. *)
Lemma FromHTMLNode_keeps_space_before_newline :
  V1.FromHTMLNode blankTableWriter twoEmptyLinks [V1.NewOptions None] V1.newLinkAccumulator
  = Ok (gs "[1] [2]\n\n=> x [1] \n=> y [2]")
       {| V1.emitParaCount := 0;
          V1.linkArray := [ {| index := 1; url := gs "x"; display := [] |};
                            {| index := 2; url := gs "y"; display := [] |} ];
          V1.flushedToIndex := 1;
          V1.tableNestLevel := 0 |}
  /\ occursIn [SP; LF] (gs "[1] [2]\n\n=> x [1] \n=> y [2]").
Proof.
  split; [vm_compute; reflexivity|].
  exists (gs "[1] [2]\n\n=> x [1]"), (gs "=> y [2]"). reflexivity.
Qed.

(** The second variant is outside C8, and differs: its tidying of block
    quotes comes after the runs of newlines were cut, and on
    [a<blockquote><br></blockquote><br><br>b] it leaves three newlines in
    a row. *)
Lemma tidied_quote_leaves_three_newlines :
  (exists ctx',
      V2.FromHTMLNode blankTableWriter quoteThenBreaks
        (V2.NewTraverseContext (V2.NewOptions None))
      = Ok (gs "a\n\n\nb") ctx')
  /\ occursIn [LF; LF; LF] (gs "a\n\n\nb").
Proof.
  split; [vm_compute; eexists; reflexivity|].
  exists (gs "a"), (gs "b"). reflexivity.
Qed.

(** ** Renders of single documents *)

(** C1: the code at the failing input.  The same tree rendered twice with
    the same options in one process: the second call finds the citation
    of the first in the package-level accumulator and numbers its own
    link 2. *)
Theorem second_render_counts_on :
  let acc1 := {| V1.emitParaCount := 0; V1.linkArray := [oneLink];
                 V1.flushedToIndex := 0; V1.tableNestLevel := 0 |} in
  let acc2 := {| V1.emitParaCount := 0;
                 V1.linkArray := [oneLink; {| index := 2; url := gs "x"; display := gs "L" |}];
                 V1.flushedToIndex := 1; V1.tableNestLevel := 0 |} in
  V1.FromHTMLNode blankTableWriter oneLinkDoc [V1.NewOptions None] V1.newLinkAccumulator
  = Ok (gs "L [1]\n\n=> x [1] L") acc1
  /\ V1.FromHTMLNode blankTableWriter oneLinkDoc [V1.NewOptions None] acc1
     = Ok (gs "L [2]\n\n=> x [2] L") acc2
  /\ gs "L [1]\n\n=> x [1] L" <> gs "L [2]\n\n=> x [2] L".
Proof. split; [|split]; [vm_compute; reflexivity .. | discriminate]. Qed.

(** C7: the code at the failing input.  The text of the block reaches the
    buffer as it is, but the replacement of newline-space by newline at
    the end of the render takes one of the two spaces that start the
    second line. *)
Theorem pre_loses_a_leading_space :
  V1.FromHTMLNode blankTableWriter preDoc [V1.NewOptions None] V1.newLinkAccumulator
  = Ok (gs "```\na\n b\n```") V1.newLinkAccumulator
  /\ V2.FromHTMLNode blankTableWriter preDoc (V2.NewTraverseContext (V2.NewOptions None))
     = Ok (gs "```\na\n b\n```")
          (V2.set_buf (gs "\n\n```\na\n  b\n```\n\n\n\n\n")
             (V2.set_lineLength 0
                (V2.set_endsWithSpace true
                   (V2.NewTraverseContext (V2.NewOptions None))))).
Proof. split; vm_compute; reflexivity. Qed.

(** C4: the code at the failing input.  With pretty tables on, a header
    cell outside a table renders its children in a render of its own,
    whose final flush writes the citation into the text of the cell; no
    table ever prints that text.  The citation is registered, counted as
    flushed, and missing from the result. *)
Theorem stray_cell_loses_its_citation :
  V1.FromHTMLNode blankTableWriter strayHeaderCell [prettyOptions] V1.newLinkAccumulator
  = Ok [] {| V1.emitParaCount := 0; V1.linkArray := [oneLink];
             V1.flushedToIndex := 0; V1.tableNestLevel := 0 |}.
Proof. vm_compute. reflexivity. Qed.

(** ** The probes of the second variant *)

Lemma V2_writeRunes_fields (data : gostring) : forall c : V2.State,
  V2.buf (fold_left V2.writeRune data c) = V2.buf c ++ withPrefix (V2.prefix c) data
  /\ V2.prefix (fold_left V2.writeRune data c) = V2.prefix c
  /\ V2.endsWithSpace (fold_left V2.writeRune data c) = V2.endsWithSpace c
  /\ V2.linkAccumulator (fold_left V2.writeRune data c) = V2.linkAccumulator c.
Proof.
  induction data as [|r data IH]; intros c.
  - cbn. rewrite app_nil_r. auto.
  - cbn [fold_left]. destruct (IH (V2.writeRune c r)) as (Hb & Hp & He & Ha).
    rewrite Hb, Hp, He, Ha.
    change (r :: data) with ([r] ++ data). rewrite withPrefix_app, app_assoc.
    unfold V2.writeRune, withPrefix. cbn [flat_map].
    destruct (r =? LF) eqn:E; cbn.
    + apply Z.eqb_eq in E. subst r.
      destruct (V2.prefix c) eqn:Ep; cbn; rewrite ?Ep, ?app_nil_r, <- ?app_assoc; cbn; auto.
    + rewrite ?app_nil_r. auto.
Qed.

Lemma V2_emit_fields (c : V2.State) (first : rune) (rest : gostring) :
  exists c',
    V2.emit (first :: rest) c = Ok tt c'
    /\ V2.buf c' = V2.buf c ++ separator (V2.endsWithSpace c) first
                   ++ withPrefix (V2.prefix c) (first :: rest)
    /\ V2.linkAccumulator c' = V2.linkAccumulator c.
Proof.
  unfold V2.emit, V2.emitLine. cbn [is_empty]. eexists. split; [reflexivity|].
  match goal with |- context [fold_left V2.writeRune ?l ?c0] =>
    destruct (V2_writeRunes_fields l c0) as (Hb & Hp & He & Ha) end.
  rewrite Hb, Ha. unfold separator.
  destruct (negb (IsSpace first || punctNoSpaceBefore first) && negb (V2.endsWithSpace c));
    cbn; rewrite <- ?app_assoc; auto.
Qed.

(** C2, as amended.  In the variant that probes: for a list item or a
    paragraph whose children, rendered into the zero-valued scratch
    context, leave exactly one citation there and a scratch text of fewer
    space-separated pieces than the threshold, the node is rendered by one
    [emit] of "=> ", the url, a space, the scratch text and a newline;
    neither bullet nor paragraph break is written and the accumulator of
    the live context stays as it was: nothing is registered in it and its
    flush index does not move. *)
Theorem probe_emits_link_line (tw : TableWriter) (kind : atom.Atom)
        (attrs : list html.Attribute) (cs : list Node) (c testCtx : V2.State)
        (link : citationLink) :
  kind = atom.Li \/ kind = atom.P ->
  V2.traverseChildren tw (element kind attrs cs) V2.TextifyTraverseContext_zero
  = Ok tt testCtx ->
  V2.linkArray (V2.linkAccumulator testCtx) = [link] ->
  len (Split (V2.buf testCtx) SP) < V2.ListItemToLinkWordThreshold (V2.options c) ->
  let line := gs "=> " ++ url link ++ gs " " ++ V2.buf testCtx ++ gs "\n" in
  V2.traverse tw (element kind attrs cs) c
  = V2.emit line (V2.set_justClosedDiv false c)
  /\ exists c',
      V2.traverse tw (element kind attrs cs) c = Ok tt c'
      /\ V2.buf c' = V2.buf c ++ separator (V2.endsWithSpace c) 61
                     ++ withPrefix (V2.prefix c) line
      /\ V2.linkAccumulator c' = V2.linkAccumulator c.
Proof.
  intros Hk Hprobe Hlink Hwords line.
  assert (Hs : V2.singletonLink (V2.ListItemToLinkWordThreshold (V2.options c)) testCtx = true).
  { unfold V2.singletonLink. rewrite Hlink. cbn.
    rewrite andb_true_r. apply Z.ltb_lt. exact Hwords. }
  assert (Hl : V2.linkLine testCtx = line).
  { unfold V2.linkLine. rewrite Hlink. reflexivity. }
  assert (Ht : V2.traverse tw (element kind attrs cs) c
               = V2.emit line (V2.set_justClosedDiv false c)).
  { unfold V2.traverseChildren in Hprobe. cbn [children element] in Hprobe.
    unfold element. cbn [V2.traverse]. unfold V2.handleElement.
    cbn [DataAtom]. unfold bind at 1. unfold V2.on_ctx at 1, modify at 1.
    destruct Hk as [-> | ->]; unfold bind, V2.probe; rewrite Hprobe;
      unfold V2.the_ctx, get; cbn [V2.options V2.set_justClosedDiv];
      rewrite Hs, Hl; reflexivity. }
  split; [exact Ht|].
  rewrite Ht. unfold line. cbn [gs app].
  destruct (V2_emit_fields (V2.set_justClosedDiv false c) 61
              ([62; 32] ++ url link ++ gs " " ++ V2.buf testCtx ++ gs "\n"))
    as (c' & He & Hb & Ha).
  exists c'. split; [exact He|]. split; [exact Hb | exact Ha].
Qed.

Lemma probe_emits_link_line_witness :
  exists c',
    V2.traverse blankTableWriter shortLinkParagraph
      (V2.NewTraverseContext (V2.NewOptions None)) = Ok tt c'
    /\ V2.buf c' = gs " => x  short\n"
    /\ V2.linkAccumulator c' = V2.newlinkAccumulator.
Proof.
  destruct (probe_emits_link_line blankTableWriter atom.P []
              [element atom.A [attr (gs "href") (gs "x")] [text (gs "short")]]
              (V2.NewTraverseContext (V2.NewOptions None)) scratchAfterShortLink
              {| index := 0; url := gs "x"; display := gs "short" |}
              (or_intror eq_refl) eq_refl eq_refl eq_refl)
    as (_ & c' & Ht & Hb & Ha).
  exists c'. split; [exact Ht|]. split; [rewrite Hb; reflexivity | exact Ha].
Defined.

(** C2 as it was stated.  For [<p><a href="x">short</a></p>] the variant
    that probes returns the link line with the scratch text " short"
    behind the url, two spaces between them, and the flush index of the
    live accumulator is -1 before and after the render: it moves by
    nothing, not by one.  [html2gemini.go] has no probe: it returns the
    paragraph and the flushed citation. *)
Lemma short_link_paragraph_renders :
  (exists c',
     V2.FromHTMLNode blankTableWriter shortLinkDoc
       (V2.NewTraverseContext (V2.NewOptions None)) = Ok (gs "=> x  short") c'
     /\ V2.flushedToIndex (V2.linkAccumulator (V2.NewTraverseContext (V2.NewOptions None)))
        = -1
     /\ V2.linkAccumulator c' = V2.newlinkAccumulator)
  /\ gs "=> x  short" <> gs "=> x short"
  /\ V1.FromHTMLNode blankTableWriter shortLinkDoc [V1.NewOptions None]
       V1.newLinkAccumulator
     = Ok (gs "short [1]\n\n=> x [1] short")
          {| V1.emitParaCount := 0;
             V1.linkArray := [ {| index := 1; url := gs "x"; display := gs "short" |} ];
             V1.flushedToIndex := 0;
             V1.tableNestLevel := 0 |}.
Proof.
  split; [|split; [discriminate | vm_compute; reflexivity]].
  eexists. split; [vm_compute; reflexivity|]. split; reflexivity.
Qed.

(** ** What a whole render keeps *)

Lemma Node_induction (P : Node -> Prop) :
  (forall type a data attrs cs, Forall P cs -> P (mkNode type a data attrs cs)) ->
  forall node, P node.
Proof.
  intros H. fix IH 1. intros [type a data attrs cs]. apply H.
  induction cs as [|c cs IHcs]; constructor; [apply IH | exact IHcs].
Qed.

Lemma extends_refl (o : V1.Options) (l : list citationLink) : extends o l l.
Proof.
  exists []. split; [now rewrite app_nil_r|].
  intros k c H. destruct k; discriminate.
Qed.

Lemma extends_trans (o : V1.Options) (l1 l2 l3 : list citationLink) :
  extends o l1 l2 -> extends o l2 l3 -> extends o l1 l3.
Proof.
  intros (a & -> & Ha) (b & -> & Hb). exists (a ++ b). split; [now rewrite app_assoc|].
  intros k c H. destruct (Nat.lt_ge_cases k (length a)) as [Hk|Hk].
  - rewrite nth_error_app1 in H by exact Hk. apply Ha. exact H.
  - rewrite nth_error_app2 in H by exact Hk. destruct (Hb _ _ H) as [Hi Hu].
    split; [|exact Hu]. rewrite Hi. f_equal. unfold len. rewrite length_app. lia.
Qed.

Lemma steady_ret {A} (a : A) : steady (ret a).
Proof. intros s. cbn. split; [reflexivity | apply extends_refl]. Qed.

Lemma steady_bind {A B} (m : M V1.State A) (k : A -> M V1.State B) :
  steady m -> (forall a, steady (k a)) -> steady (bind m k).
Proof.
  intros Hm Hk s. unfold bind. specialize (Hm s).
  destruct (m s) as [a s1|p]; [|exact Hm].
  destruct Hm as [Ho He]. specialize (Hk a s1).
  destruct (k a s1) as [b s2|p]; [|exact Hk].
  destruct Hk as [Ho' He']. rewrite Ho in *. split; [congruence|].
  eapply extends_trans; eassumption.
Qed.

Lemma steady_throw {A} (p : panic) : p <> SliceBoundsOutOfRange -> steady (@throw V1.State A p).
Proof. intros H s. exact H. Qed.

Lemma steady_when (b : bool) (m : M V1.State unit) : steady m -> steady (when b m).
Proof. intros H. destruct b; [exact H | apply steady_ret]. Qed.

Lemma steady_on_ctx (f : V1.textifyTraverseContext -> V1.textifyTraverseContext) :
  (forall c, V1.options (f c) = V1.options c) -> steady (V1.on_ctx f).
Proof. intros H s. cbn. split; [apply H | apply extends_refl]. Qed.

Lemma steady_on_acc (f : V1.linkAccumulatorType -> V1.linkAccumulatorType) :
  (forall a, V1.linkArray (f a) = V1.linkArray a) -> steady (V1.on_acc f).
Proof. intros H s. cbn. rewrite H. split; [reflexivity | apply extends_refl]. Qed.

Lemma steady_on_tableCtx (f : tableTraverseContext -> tableTraverseContext) :
  steady (V1.on_tableCtx f).
Proof. apply steady_on_ctx. reflexivity. Qed.

Lemma steady_the_ctx : steady V1.the_ctx.
Proof. intros s. cbn. split; [reflexivity | apply extends_refl]. Qed.

Lemma steady_the_acc : steady V1.the_acc.
Proof. intros s. cbn. split; [reflexivity | apply extends_refl]. Qed.

Lemma emitLines_options (lines : list gostring) :
  forall c c', V1.emitLines c lines = Some c' -> V1.options c' = V1.options c.
Proof.
  induction lines as [|line lines IH]; intros c c' H; cbn in H.
  - now injection H as <-.
  - destruct line as [|first rest]; [discriminate|].
    destruct (emitLine_fields c first rest) as (c1 & Hc & _ & _ & _ & Ho & _).
    rewrite Hc in H. rewrite (IH _ _ H). exact Ho.
Qed.

Lemma steady_emit (data : gostring) : steady (V1.emit data).
Proof.
  intros s. unfold V1.emit. destruct (V1.emit_ctx (V1.ctx s) data) as [c'|] eqn:E.
  - cbn. split; [|apply extends_refl].
    unfold V1.emit_ctx in E. destruct (is_empty data); [now injection E as <-|].
    destruct (V1.breakLongLines (V1.ctx s) data); try discriminate.
    eapply emitLines_options. exact E.
  - discriminate.
Qed.

Lemma steady_forceFlush : steady V1.forceFlushGeminiCitations.
Proof.
  unfold V1.forceFlushGeminiCitations, V1.ResetCitationCounters.
  apply steady_bind; [apply steady_the_acc|]. intros a.
  destruct (V1.tableNestLevel a >? 0); [apply steady_ret|].
  repeat (apply steady_bind; [|intros ?]);
    try (apply steady_on_ctx; reflexivity); apply steady_on_acc; reflexivity.
Qed.

Lemma steady_FlushCitations : steady V1.FlushCitations.
Proof.
  unfold V1.FlushCitations, V1.emitGeminiCitations.
  apply steady_bind; [apply steady_the_acc|]. intros a.
  destruct (_ >? _); [apply steady_forceFlush | apply steady_ret].
Qed.

Lemma steady_CheckFlushCitations : steady V1.CheckFlushCitations.
Proof.
  unfold V1.CheckFlushCitations.
  apply steady_bind; [apply steady_the_acc|]. intros a.
  apply steady_bind; [apply steady_the_ctx|]. intros c.
  destruct (_ && _); [apply steady_FlushCitations | apply steady_on_acc; reflexivity].
Qed.

Lemma steady_addGeminiCitation (url display : gostring) :
  is_empty url = false -> steady (V1.addGeminiCitation url display).
Proof.
  intros Hu s. destruct url as [|first rest]; [discriminate|].
  unfold V1.addGeminiCitation. destruct (first =? 35) eqn:E.
  - cbn. split; [reflexivity | apply extends_refl].
  - destruct s as [c a]. cbn. split; [reflexivity|].
    eexists. split; [reflexivity|].
    intros k x H. destruct k as [|k]; [|destruct k; discriminate].
    cbn in H. injection H as <-. cbn [index url]. split.
    + f_equal. lia.
    + cbn [gs HasPrefix]. change (Z.of_N (N_of_ascii "#")) with 35.
      rewrite Z.eqb_sym, E. reflexivity.
Qed.

Lemma steady_FromHTMLNode_within (trav : M V1.State unit) :
  steady trav ->
  steady (x <- V1.the_ctx ;; V1.FromHTMLNode_within trav (V1.options x)).
Proof.
  intros Ht s. unfold bind at 1, V1.the_ctx, V1.FromHTMLNode_within.
  pose proof (steady_bind trav (fun _ => V1.forceFlushGeminiCitations) Ht
                (fun _ => steady_forceFlush)
                (V1.mkState (V1.newContext (V1.options (V1.ctx s))) (V1.linkAccumulator s)))
    as H.
  destruct (bind trav _ _) as [u s'|p]; [|exact H].
  cbn in H |- *. destruct H as [_ He]. split; [reflexivity | exact He].
Qed.

Lemma steady_traverseChildren_of (traverse : Node -> M V1.State unit) (cs : list Node) :
  Forall (fun c => steady (traverse c)) cs ->
  steady (traverseChildren_of traverse cs).
Proof.
  induction 1 as [|c cs Hc Hcs IH]; cbn.
  - apply steady_ret.
  - apply steady_bind; [exact Hc | intros _; exact IH].
Qed.

Lemma steady_renderEachChild_of (render : Node -> M V1.State gostring) (cs : list Node) :
  Forall (fun c => steady (render c)) cs ->
  steady (renderEachChild_of render cs).
Proof.
  induction 1 as [|c cs Hc Hcs IH]; cbn.
  - apply steady_ret.
  - apply steady_bind; [exact Hc | intros s].
    apply steady_bind; [exact IH | intros rest]. apply steady_ret.
Qed.

Ltac guarded_url :=
  match goal with
  | H : (_ && negb (is_empty ?u) && _) = true |- is_empty ?u = false =>
      apply andb_true_iff in H; destruct H as [H _];
      apply andb_true_iff in H; destruct H as [_ H];
      apply negb_true_iff in H; exact H
  end.

Ltac steady_step :=
  match goal with
  | H : steady ?m |- steady ?m => exact H
  | |- steady (bind _ _) => apply steady_bind; [|intros ?]
  | |- steady (ret _) => apply steady_ret
  | |- steady (when _ _) => apply steady_when
  | |- steady (throw _) => apply steady_throw; discriminate
  | |- steady (V1.emit _) => apply steady_emit
  | |- steady (V1.on_ctx _) => apply steady_on_ctx; reflexivity
  | |- steady (V1.on_acc _) => apply steady_on_acc; reflexivity
  | |- steady (V1.on_tableCtx _) => apply steady_on_tableCtx
  | |- steady V1.the_ctx => apply steady_the_ctx
  | |- steady V1.the_acc => apply steady_the_acc
  | |- steady V1.FlushCitations => apply steady_FlushCitations
  | |- steady V1.CheckFlushCitations => apply steady_CheckFlushCitations
  | |- steady (V1.addGeminiCitation _ _) => apply steady_addGeminiCitation; guarded_url
  | |- steady (match ?x with _ => _ end) => destruct x eqn:?
  end.

Section Renders.
Variable tw : TableWriter.

Lemma steady_paragraphHandler (tc : M V1.State unit) :
  steady tc -> steady (V1.paragraphHandler tc).
Proof. intros H. unfold V1.paragraphHandler. repeat steady_step. Qed.

Lemma steady_handleTableElement (tc : M V1.State unit) (rec : M V1.State gostring)
      (node : Node) :
  steady tc -> steady rec -> steady (V1.handleTableElement tw tc rec node).
Proof.
  intros Htc Hrec. unfold V1.handleTableElement. cbv zeta. repeat steady_step.
Qed.

Lemma steady_handleElement (tc : M V1.State unit) (rec : M V1.State gostring)
      (node : Node) :
  steady tc -> steady rec -> steady (V1.handleElement tw tc rec node).
Proof.
  intros Htc Hrec.
  pose proof (steady_paragraphHandler tc Htc) as Hp.
  pose proof (steady_handleTableElement tc rec node Htc Hrec) as Ht.
  unfold V1.handleElement. cbv zeta.
  apply steady_bind; [steady_step|]. intros _.
  destruct (DataAtom node); repeat steady_step.
Qed.

Lemma steady_traverse (node : Node) : steady (V1.traverse tw node).
Proof.
  induction node as [type a data attrs cs IH] using Node_induction.
  cbn [V1.traverse].
  assert (Htc : steady (traverseChildren_of (V1.traverse tw) cs))
    by (apply steady_traverseChildren_of; exact IH).
  assert (Hrec : steady (renderEachChild_of
                           (fun c => x <- V1.the_ctx ;;
                                     V1.FromHTMLNode_within (V1.traverse tw c) (V1.options x))
                           cs)).
  { apply steady_renderEachChild_of. eapply Forall_impl; [|exact IH].
    intros c Hc. apply steady_FromHTMLNode_within. exact Hc. }
  destruct type; try exact Htc.
  - repeat steady_step.
  - apply steady_handleElement; assumption.
Qed.

Lemma FromHTMLNode_steady (doc : Node) (o : list V1.Options) (acc : V1.linkAccumulatorType) :
  match V1.FromHTMLNode tw doc o acc with
  | Ok _ acc' =>
      extends (match o with o0 :: _ => o0 | [] => V1.Options_unset end)
              (V1.linkArray acc) (V1.linkArray acc')
  | Panic p => p <> SliceBoundsOutOfRange
  end.
Proof.
  unfold V1.FromHTMLNode.
  set (options := match o with o0 :: _ => o0 | [] => V1.Options_unset end).
  pose proof (steady_FromHTMLNode_within _ (steady_traverse doc)
                (V1.mkState (V1.newContext options) acc)) as H.
  unfold bind at 1, V1.the_ctx in H. cbn [V1.ctx V1.options V1.newContext] in H.
  destruct (V1.FromHTMLNode_within _ _ _) as [text s|p]; [|exact H].
  destruct H as [_ He]. exact He.
Qed.

End Renders.

(** ** Registration of citations *)

Lemma wrap_int_small (z : Z) : int_min <= z <= int_max -> wrap_int z = z.
Proof.
  unfold int_min, int_max, wrap_int. intros H.
  rewrite Z.mod_small; lia.
Qed.

Lemma int_add_next (z start : Z) : int_add (z + 1) start = int_add (int_add z start) 1.
Proof.
  unfold int_add, wrap_int. f_equal.
  replace (z + 1 + start + 2 ^ 63) with ((z + start + 2 ^ 63) + 1) by lia.
  replace ((z + start + 2 ^ 63) mod 2 ^ 64 - 2 ^ 63 + 1 + 2 ^ 63)
    with ((z + start + 2 ^ 63) mod 2 ^ 64 + 1) by lia.
  now rewrite Zplus_mod_idemp_l.
Qed.

(** C10.  A render that comes in through [FromHTMLNode] (as those of
    [FromReader] and [FromString] do) never runs into the panic of the
    slice [url[0:1]]: that panic is what [addGeminiCitation] does on the
    empty url and on nothing else, and the anchor and image handlers, the
    only callers, ask for a url that is not empty after trimming and
    mailto-stripping. *)
Theorem registration_never_slices_an_empty_url (tw : TableWriter) (doc : Node)
        (o : list V1.Options) (acc : V1.linkAccumulatorType)
        (url display : gostring) (s : V1.State) :
  (V1.addGeminiCitation url display s = Panic SliceBoundsOutOfRange <-> url = [])
  /\ V1.FromHTMLNode tw doc o acc <> Panic SliceBoundsOutOfRange.
Proof.
  split.
  - unfold V1.addGeminiCitation. destruct url as [|first rest].
    + split; reflexivity.
    + split; [|discriminate]. destruct (first =? 35); discriminate.
  - pose proof (FromHTMLNode_steady tw doc o acc) as H.
    destruct (V1.FromHTMLNode tw doc o acc) as [text acc'|p]; [discriminate|].
    intros E. injection E as ->. apply H. reflexivity.
Qed.

(** ** Line breaking terminates *)

Lemma scanWhile_ge (f : rune -> bool) (rest : gostring) :
  forall i, (i <= V1.scanWhile f rest i)%nat.
Proof.
  induction rest as [|r rest IH]; intros i; cbn; [lia|].
  destruct (f r); [|lia]. specialize (IH (S i)). lia.
Qed.

Lemma scanBack_found (runes : gostring) (i0 i : nat) :
  V1.scanBack runes i0 = Some (Some i) ->
  exists r, nth_error runes i = Some r /\ IsSpace r = true.
Proof.
  induction i0 as [|j IH]; cbn [V1.scanBack].
  - destruct (nth_error runes 0) as [r|] eqn:E; [|discriminate].
    destruct (IsSpace r) eqn:Er; [|discriminate].
    intros H. injection H as <-. exists r. split; assumption.
  - destruct (nth_error runes (S j)) as [r|] eqn:E; [|discriminate].
    destruct (IsSpace r) eqn:Er; [|exact IH].
    intros H. injection H as <-. exists r. split; assumption.
Qed.

Lemma skipn_nth_error (runes : gostring) : forall (i : nat) (r : rune),
  nth_error runes i = Some r -> skipn i runes = r :: skipn (S i) runes.
Proof.
  induction runes as [|x runes IH]; intros [|i] r H; try discriminate.
  - now injection H as ->.
  - cbn in H. cbn [skipn]. rewrite (IH i r H). reflexivity.
Qed.

Lemma breakLoop_fuel (fuel : nat) : forall (ret : list gostring) (runes : gostring)
                                           (existing : Z),
  existing < V1.maxLineLen ->
  (length runes < fuel)%nat ->
  V1.breakLoop fuel ret runes existing <> V1.NoFuel.
Proof.
  induction fuel as [|fuel IH]; intros ret runes existing He Hf; [lia|].
  cbn [V1.breakLoop]. destruct (len runes + existing >? V1.maxLineLen) eqn:E; [|discriminate].
  apply Z.gtb_lt in E. unfold len, V1.maxLineLen in *.
  destruct (V1.scanBack runes (Z.to_nat (74 - existing))) as [found|] eqn:Es; [|discriminate].
  apply IH; [lia|].
  rewrite length_skipn.
  match goal with |- (_ - ?i < _)%nat => assert (Hi : (1 <= i)%nat) end; [|lia].
  destruct found as [i|].
  - destruct (scanBack_found _ _ _ Es) as (r & Hn & Hr).
    rewrite (skipn_nth_error _ _ _ Hn). cbn [V1.scanWhile]. rewrite Hr.
    pose proof (scanWhile_ge IsSpace (skipn (S i) runes) (S i)). lia.
  - match goal with |- (1 <= V1.scanWhile IsSpace _ ?i)%nat =>
      pose proof (scanWhile_ge IsSpace (skipn i runes) i);
      assert (Z.to_nat (74 - existing) <= i)%nat by apply scanWhile_ge end.
    lia.
Qed.

(** The fuel [breakLongLines] hands to the loop is never used up. *)
Lemma breakLongLines_fuel (c : V1.textifyTraverseContext) (data : gostring) :
  V1.breakLongLines c data <> V1.NoFuel.
Proof.
  unfold V1.breakLongLines. destruct (V1.blockquoteLevel c =? 0); [discriminate|].
  destruct (V1.lineLength c >=? V1.maxLineLen) eqn:E.
  - apply breakLoop_fuel; [reflexivity | lia].
  - apply breakLoop_fuel; [|lia]. rewrite Z.geb_leb in E.
    apply Z.leb_gt in E. exact E.
Qed.

Lemma scanBack_in_range (runes : gostring) (i0 : nat) :
  (i0 < length runes)%nat -> V1.scanBack runes i0 <> None.
Proof.
  induction i0 as [|j IH]; intros H; cbn [V1.scanBack];
    destruct (nth_error runes _) as [r|] eqn:E;
    try (apply nth_error_None in E; lia);
    destruct (IsSpace r); try discriminate.
  apply IH. lia.
Qed.

Lemma breakLoop_lines (fuel : nat) : forall (ret : list gostring) (runes : gostring)
                                            (existing : Z),
  existing < V1.maxLineLen ->
  (length runes < fuel)%nat ->
  Forall (fun line => line <> []) ret ->
  exists lines,
    V1.breakLoop fuel ret runes existing = V1.Lines lines
    /\ Forall (fun line => line <> []) lines.
Proof.
  induction fuel as [|fuel IH]; intros ret runes existing He Hf Hret; [lia|].
  cbn [V1.breakLoop]. destruct (len runes + existing >? V1.maxLineLen) eqn:E.
  - apply Z.gtb_lt in E. unfold len, V1.maxLineLen in *.
    destruct (V1.scanBack runes (Z.to_nat (74 - existing))) as [found|] eqn:Es.
    2:{ exfalso. apply (scanBack_in_range runes (Z.to_nat (74 - existing))); [lia | exact Es]. }
    apply IH; [lia | |].
    + rewrite length_skipn.
      match goal with |- (_ - ?i < _)%nat => assert (Hi : (1 <= i)%nat) end; [|lia].
      destruct found as [i|].
      * destruct (scanBack_found _ _ _ Es) as (r & Hn & Hr).
        rewrite (skipn_nth_error _ _ _ Hn). cbn [V1.scanWhile]. rewrite Hr.
        pose proof (scanWhile_ge IsSpace (skipn (S i) runes) (S i)). lia.
      * match goal with |- (1 <= V1.scanWhile IsSpace _ ?i)%nat =>
          pose proof (scanWhile_ge IsSpace (skipn i runes) i);
          assert (Z.to_nat (74 - existing) <= i)%nat by apply scanWhile_ge end.
        lia.
    + apply Forall_app. split; [exact Hret|]. constructor; [|constructor].
      intros H. apply app_eq_nil in H. destruct H as [_ H]. discriminate.
  - eexists. split; [reflexivity|]. destruct runes as [|r runes]; [exact Hret|].
    apply Forall_app. split; [exact Hret|]. constructor; [discriminate | constructor].
Qed.

Lemma emitLines_total (lines : list gostring) :
  Forall (fun line => line <> []) lines ->
  forall c, exists c', V1.emitLines c lines = Some c'.
Proof.
  induction 1 as [|line lines Hl _ IH]; intros c; cbn [V1.emitLines].
  - eexists. reflexivity.
  - destruct line as [|first rest]; [contradiction|].
    destruct (emitLine_fields c first rest) as (c1 & Hc & _). rewrite Hc. apply IH.
Qed.

(** [emit] never indexes past the end of a slice, block quote or not. *)
Lemma emit_total (data : gostring) (s : V1.State) :
  exists c', V1.emit data s = Ok tt (V1.mkState c' (V1.linkAccumulator s)).
Proof.
  unfold V1.emit, V1.emit_ctx. destruct (is_empty data) eqn:Ee.
  { eexists. reflexivity. }
  assert (Hl : exists lines, V1.breakLongLines (V1.ctx s) data = V1.Lines lines
                             /\ Forall (fun line => line <> []) lines).
  { unfold V1.breakLongLines. destruct (V1.blockquoteLevel (V1.ctx s) =? 0).
    - eexists. split; [reflexivity|]. constructor; [|constructor].
      intros ->. discriminate.
    - destruct (V1.lineLength (V1.ctx s) >=? V1.maxLineLen) eqn:E.
      + apply breakLoop_lines; [reflexivity | lia |].
        constructor; [discriminate | constructor].
      + apply breakLoop_lines; [|lia | constructor].
        rewrite Z.geb_leb in E. apply Z.leb_gt in E. exact E. }
  destruct Hl as (lines & -> & Hne).
  destruct (emitLines_total lines Hne (V1.ctx s)) as [c' ->]. eexists. reflexivity.
Qed.

(** ** What a flush writes *)

(** The lines of a flush are those of the citations behind position
    [flushedToIndex], each once, in the order of registration. *)
Lemma citationLines_beyond (numbered : bool) (flushedToIndex : Z)
      (links : list citationLink) : forall i : Z,
  citationLines numbered flushedToIndex i links
  = flat_map (citationLine numbered) (skipn (Z.to_nat (flushedToIndex + 1 - i)) links).
Proof.
  induction links as [|link links IH]; intros i.
  - now rewrite skipn_nil.
  - cbn [citationLines]. rewrite IH. destruct (i >? flushedToIndex) eqn:E.
    + apply Z.gtb_lt in E.
      replace (Z.to_nat (flushedToIndex + 1 - i)) with 0%nat by lia.
      replace (Z.to_nat (flushedToIndex + 1 - (i + 1))) with 0%nat by lia.
      cbn [skipn flat_map]. unfold citationLine at 2.
      repeat rewrite <- app_assoc. reflexivity.
    + assert (i <= flushedToIndex) by (destruct (Z.gtb_spec i flushedToIndex); [discriminate | lia]).
      replace (Z.to_nat (flushedToIndex + 1 - i))
        with (S (Z.to_nat (flushedToIndex + 1 - (i + 1)))) by lia.
      reflexivity.
Qed.

(** A flush outside a table moves the cursor to the last citation, never
    back. *)
Lemma forceFlush_cursor (s : V1.State) :
  (V1.tableNestLevel (V1.linkAccumulator s) >? 0) = false ->
  V1.flushedToIndex (V1.linkAccumulator s) <= len (V1.linkArray (V1.linkAccumulator s)) - 1 ->
  exists s',
    V1.forceFlushGeminiCitations s = Ok tt s'
    /\ V1.flushedToIndex (V1.linkAccumulator s) <= V1.flushedToIndex (V1.linkAccumulator s')
    /\ V1.flushedToIndex (V1.linkAccumulator s')
       = len (V1.linkArray (V1.linkAccumulator s')) - 1
    /\ V1.buf (V1.ctx s')
       = V1.buf (V1.ctx s) ++ gs "\n\n"
         ++ flat_map (citationLine (V1.NumberedLinks (V1.options (V1.ctx s))))
              (skipn (Z.to_nat (V1.flushedToIndex (V1.linkAccumulator s) + 1))
                     (V1.linkArray (V1.linkAccumulator s)))
         ++ gs "\n".
Proof.
  intros Ht Hc. rewrite (forceFlush_outside_table s Ht). eexists. split; [reflexivity|].
  cbn. split; [exact Hc|]. split; [reflexivity|].
  rewrite citationLines_beyond. now rewrite Z.sub_0_r.
Qed.

(** ** What a walk keeps *)

Lemma moves_ret {A} (g : ghost) (a : A) : moves g g (ret a).
Proof. intros s H. exact H. Qed.

Lemma moves_bind {A B} (g g1 g2 : ghost) (m : M V1.State A) (k : A -> M V1.State B) :
  g_options g1 = g_options g ->
  moves g g1 m -> (forall a, moves g1 g2 (k a)) -> moves g g2 (bind m k).
Proof.
  intros Ho Hm Hk s H. unfold bind. specialize (Hm s H).
  destruct (m s) as [a s1|p]; [|exact Hm].
  specialize (Hk a s1 Hm). destruct (k a s1) as [b s2|p]; [exact Hk|].
  unfold tablePanic in *. rewrite <- Ho. exact Hk.
Qed.

Lemma moves_when (g : ghost) (b : bool) (m : M V1.State unit) :
  moves g g m -> moves g g (when b m).
Proof. intros H. destruct b; [exact H | apply moves_ret]. Qed.

Lemma moves_throw_index {A} (g g' : ghost) :
  V1.PrettyTables (g_options g) = true -> moves g g' (@throw V1.State A IndexOutOfRange).
Proof. intros Hp s H. split; [reflexivity | exact Hp]. Qed.

Lemma moves_the_ctx {B} (g g' : ghost) (k : V1.textifyTraverseContext -> M V1.State B) :
  (forall c, V1.options c = g_options g -> V1.blockquoteLevel c = g_level g ->
             V1.prefix c = g_prefix g -> moves g g' (k c)) ->
  moves g g' (bind V1.the_ctx k).
Proof.
  intros Hk s H. unfold bind, V1.the_ctx.
  apply (Hk (V1.ctx s)); [apply H .. | exact H].
Qed.

Lemma moves_the_acc {B} (g g' : ghost) (k : V1.linkAccumulatorType -> M V1.State B) :
  (forall a, V1.tableNestLevel a = g_nest g -> moves g g' (k a)) ->
  moves g g' (bind V1.the_acc k).
Proof.
  intros Hk s H. unfold bind, V1.the_acc.
  apply (Hk (V1.linkAccumulator s)); [apply H | exact H].
Qed.

Lemma moves_on_ctx (g : ghost) (f : V1.textifyTraverseContext -> V1.textifyTraverseContext) :
  (forall c, V1.options (f c) = V1.options c) ->
  (forall c, V1.blockquoteLevel (f c) = V1.blockquoteLevel c) ->
  (forall c, V1.prefix (f c) = V1.prefix c) ->
  moves g g (V1.on_ctx f).
Proof.
  intros Ho Hl Hp s H. unfold holds in *. cbn. rewrite Ho, Hl, Hp. exact H.
Qed.

Lemma moves_on_tableCtx (g : ghost) (f : tableTraverseContext -> tableTraverseContext) :
  moves g g (V1.on_tableCtx f).
Proof. apply moves_on_ctx; reflexivity. Qed.

Lemma moves_on_acc (g : ghost) (f : V1.linkAccumulatorType -> V1.linkAccumulatorType) :
  (forall a, V1.linkArray (f a) = V1.linkArray a) ->
  (forall a, V1.flushedToIndex (f a) = V1.flushedToIndex a) ->
  (forall a, V1.tableNestLevel (f a) = V1.tableNestLevel a) ->
  moves g g (V1.on_acc f).
Proof.
  intros Hl Hc Hn s H. unfold holds in *. cbn. rewrite Hl, Hc, Hn. exact H.
Qed.

Lemma emitLines_fields (lines : list gostring) :
  forall c c', V1.emitLines c lines = Some c' ->
    V1.options c' = V1.options c
    /\ V1.blockquoteLevel c' = V1.blockquoteLevel c
    /\ V1.prefix c' = V1.prefix c.
Proof.
  induction lines as [|line lines IH]; intros c c' H; cbn in H.
  - injection H as <-. auto.
  - destruct line as [|first rest]; [discriminate|].
    destruct (emitLine_fields c first rest) as (c1 & Hc & _ & _ & Hp & Ho & _ & Hl & _).
    rewrite Hc in H. destruct (IH _ _ H) as (Ho' & Hl' & Hp').
    rewrite Ho', Hl', Hp'. auto.
Qed.

Lemma moves_emit (g : ghost) (data : gostring) : moves g g (V1.emit data).
Proof.
  intros s H. destruct (emit_total data s) as [c' He]. rewrite He.
  unfold V1.emit in He. destruct (V1.emit_ctx (V1.ctx s) data) as [c1|] eqn:E; [|discriminate].
  injection He as <-.
  assert (Hf : V1.options c1 = V1.options (V1.ctx s)
               /\ V1.blockquoteLevel c1 = V1.blockquoteLevel (V1.ctx s)
               /\ V1.prefix c1 = V1.prefix (V1.ctx s)).
  { unfold V1.emit_ctx in E. destruct (is_empty data); [injection E as <-; auto|].
    destruct (V1.breakLongLines (V1.ctx s) data); try discriminate.
    eapply emitLines_fields. exact E. }
  destruct Hf as (Ho & Hl & Hp). unfold holds in *. cbn. rewrite Ho, Hl, Hp. exact H.
Qed.

Lemma moves_forceFlush (g : ghost) : moves g g V1.forceFlushGeminiCitations.
Proof.
  intros s H. destruct (V1.tableNestLevel (V1.linkAccumulator s) >? 0) eqn:Et.
  - destruct (forceFlush_inside_table s Et) as [-> _]. exact H.
  - rewrite (forceFlush_outside_table s Et). unfold holds in *. cbn.
    destruct H as (Ho & Hl & Hp & Hn & Hc & Ha & Hm).
    repeat split; try assumption; try (apply Hc; assumption); try lia.
    specialize (Hc H). lia.
Qed.

Lemma moves_FlushCitations (g : ghost) : moves g g V1.FlushCitations.
Proof.
  unfold V1.FlushCitations, V1.emitGeminiCitations.
  apply moves_the_acc. intros a _.
  destruct (_ >? _); [apply moves_forceFlush | apply moves_ret].
Qed.

Lemma moves_CheckFlushCitations (g : ghost) : moves g g V1.CheckFlushCitations.
Proof.
  unfold V1.CheckFlushCitations.
  apply moves_the_acc. intros a _. apply moves_the_ctx. intros c _ _ _.
  destruct (_ && _); [apply moves_FlushCitations | apply moves_on_acc; reflexivity].
Qed.

Lemma moves_addGeminiCitation (g : ghost) (url display : gostring) :
  V1.OmitLinks (g_options g) = false ->
  is_empty url = false ->
  moves g g (V1.addGeminiCitation url display).
Proof.
  intros Hom Hu s H. destruct url as [|first rest]; [discriminate|].
  unfold V1.addGeminiCitation. destruct (first =? 35); [exact H|].
  destruct s as [c a]. unfold holds in *. cbn in *.
  destruct H as (Ho & Hl & Hp & Hn & Hc & (added & Ha) & Hm).
  repeat split; try assumption.
  - apply Hc. assumption.
  - specialize (Hc H). unfold len in *. rewrite length_app. cbn. lia.
  - eexists. rewrite Ha, <- app_assoc. reflexivity.
  - intros Hx. congruence.
Qed.

Lemma moves_requote (g : ghost) (level' : Z) (prefix' : gostring)
      (f : V1.textifyTraverseContext -> V1.textifyTraverseContext) :
  (forall c, V1.options (f c) = V1.options c) ->
  (forall c, V1.blockquoteLevel c = g_level g -> V1.prefix c = g_prefix g ->
             V1.blockquoteLevel (f c) = level' /\ V1.prefix (f c) = prefix') ->
  moves g (with_quote level' prefix' g) (V1.on_ctx f).
Proof.
  intros Ho Hf s H. unfold holds in *. cbn.
  destruct H as (H1 & H2 & H3 & H4).
  destruct (Hf (V1.ctx s) H2 H3) as [Hl Hp]. rewrite Ho, Hl, Hp. auto.
Qed.

Lemma moves_renest (g : ghost) (nest' : Z)
      (f : V1.linkAccumulatorType -> V1.linkAccumulatorType) :
  (forall a, V1.linkArray (f a) = V1.linkArray a) ->
  (forall a, V1.flushedToIndex (f a) = V1.flushedToIndex a) ->
  (forall a, V1.tableNestLevel a = g_nest g -> V1.tableNestLevel (f a) = nest') ->
  moves g (with_nest nest' g) (V1.on_acc f).
Proof.
  intros Hl Hc Hn s H. unfold holds in *. cbn.
  destruct H as (H1 & H2 & H3 & H4 & H5).
  rewrite Hl, Hc, (Hn _ H4). auto.
Qed.

Lemma wellQuoted_with_nest (g : ghost) (nest : Z) :
  wellQuoted g -> wellQuoted (with_nest nest g).
Proof. intros H. exact H. Qed.

Ltac omit_off :=
  match goal with
  | Ho : V1.options ?c = g_options ?g,
    H : (negb (V1.OmitLinks (V1.options ?c)) && _ && _) = true
    |- V1.OmitLinks (g_options ?g) = false =>
      rewrite <- Ho;
      apply andb_true_iff in H; destruct H as [H _];
      apply andb_true_iff in H; destruct H as [H _];
      apply negb_true_iff in H; exact H
  end.

Ltac keeps_step :=
  match goal with
  | H : moves ?g ?g ?m |- moves ?g ?g ?m => exact H
  | H : forall g, wellQuoted g -> moves g g ?m, W : wellQuoted ?g |- moves ?g ?g ?m =>
      exact (H g W)
  | |- moves ?g ?g (bind V1.the_ctx _) => apply moves_the_ctx; intros ? ? ? ?
  | |- moves ?g ?g (bind V1.the_acc _) => apply moves_the_acc; intros ? ?
  | |- moves ?g ?g (bind _ _) => apply (moves_bind g g g); [reflexivity | | intros ?]
  | |- moves ?g ?g (ret _) => apply moves_ret
  | |- moves ?g ?g (when _ _) => apply moves_when
  | |- moves ?g ?g (V1.emit _) => apply moves_emit
  | |- moves ?g ?g (V1.on_ctx _) => apply moves_on_ctx; reflexivity
  | |- moves ?g ?g (V1.on_acc _) => apply moves_on_acc; reflexivity
  | |- moves ?g ?g (V1.on_tableCtx _) => apply moves_on_tableCtx
  | |- moves ?g ?g V1.FlushCitations => apply moves_FlushCitations
  | |- moves ?g ?g V1.CheckFlushCitations => apply moves_CheckFlushCitations
  | |- moves ?g ?g (V1.addGeminiCitation _ _) =>
      apply moves_addGeminiCitation; [omit_off | guarded_url]
  | Hp : V1.PrettyTables (g_options ?g) = true |- moves ?g ?g (throw IndexOutOfRange) =>
      apply moves_throw_index; exact Hp
  | |- moves ?g ?g (match ?x with _ => _ end) => destruct x eqn:?
  end.

Section Walks.
Variable tw : TableWriter.

Lemma keeps_paragraphHandler (g : ghost) (tc : M V1.State unit) :
  moves g g tc -> moves g g (V1.paragraphHandler tc).
Proof. intros H. unfold V1.paragraphHandler. repeat keeps_step. Qed.

Lemma keeps_handleTableElement (g : ghost) (tc : M V1.State unit)
      (rec : M V1.State gostring) (node : Node) :
  wellQuoted g ->
  V1.PrettyTables (g_options g) = true ->
  (forall g', wellQuoted g' -> moves g' g' tc) ->
  moves g g rec ->
  moves g g (V1.handleTableElement tw tc rec node).
Proof.
  intros W Hpt Htc Hrec. unfold V1.handleTableElement. cbv zeta.
  apply moves_the_ctx. intros c Ho Hl Hp.
  rewrite Ho, Hpt. cbn [negb].
  destruct (DataAtom node); try solve [repeat keeps_step].
  (* a table: the nesting goes up for the children and comes back *)
  apply moves_the_acc. intros a Hn.
  apply (moves_bind g g g); [reflexivity | destruct (_ =? _); apply moves_emit |]. intros _.
  apply (moves_bind g (with_nest (g_nest g + 1) g) g); [reflexivity | |].
  { apply moves_renest; try reflexivity. intros a0 H0. cbn. now rewrite H0. }
  intros _. set (g1 := with_nest (g_nest g + 1) g).
  assert (W1 : wellQuoted g1) by exact W.
  apply (moves_bind g1 g1 g); [reflexivity | apply moves_on_tableCtx |]. intros _.
  apply (moves_bind g1 g1 g); [reflexivity | exact (Htc g1 W1) |]. intros _.
  apply moves_the_ctx. intros c1 _ _ _.
  apply (moves_bind g1 g1 g); [reflexivity | apply moves_emit |]. intros _.
  apply (moves_bind g1 g g); [reflexivity | |].
  { intros s H. pose proof (moves_renest g1 (g_nest g)
        (fun a => V1.set_tableNestLevel (V1.tableNestLevel a - 1) a)
        ltac:(reflexivity) ltac:(reflexivity)) as Hr.
    specialize (Hr ltac:(intros a0 H0; cbn in *; rewrite H0; lia) s H).
    destruct g. exact Hr. }
  intros _. apply moves_the_acc. intros a1 _.
  destruct (_ =? _); apply moves_emit.
Qed.

Lemma keeps_blockquote (g : ghost) (tc : M V1.State unit) (rest : M V1.State unit) :
  wellQuoted g ->
  (forall g', wellQuoted g' -> moves g' g' tc) ->
  moves g g rest ->
  moves g g
    (V1.on_ctx (fun c => V1.set_blockquoteLevel (V1.blockquoteLevel c + 1) c) ;;
     c <- V1.the_ctx ;;
     (if V1.blockquoteLevel c <? 0 then throw NegativeRepeatCount
      else V1.on_ctx (V1.set_prefix (Repeat (gs ">") (V1.blockquoteLevel c) ++ gs " "))) ;;
     V1.emit (gs "\n") ;;
     c <- V1.the_ctx ;;
     when (V1.blockquoteLevel c =? 1) (V1.emit (gs "\n")) ;;
     tc ;;
     V1.on_ctx (fun c => V1.set_blockquoteLevel (V1.blockquoteLevel c - 1) c) ;;
     c <- V1.the_ctx ;;
     (if V1.blockquoteLevel c <? 0 then throw NegativeRepeatCount
      else V1.on_ctx (V1.set_prefix (Repeat (gs ">") (V1.blockquoteLevel c)))) ;;
     when (V1.blockquoteLevel c >? 0)
          (V1.on_ctx (fun c => V1.set_prefix (V1.prefix c ++ gs " ") c)) ;;
     rest).
Proof.
  intros [W0 Wp] Htc Hrest.
  destruct g as [o L P N b k l]. cbn in W0, Wp. subst P.
  set (g := mkGhost o L (quotePrefix L) N b k l) in *.
  set (gA := mkGhost o (L + 1) (quotePrefix L) N b k l).
  set (gB := mkGhost o (L + 1) (quotePrefix (L + 1)) N b k l).
  set (gC := mkGhost o L (quotePrefix (L + 1)) N b k l).
  set (gD := mkGhost o L (Repeat (gs ">") L) N b k l).
  assert (WB : wellQuoted gB) by (split; cbn; [lia | reflexivity]).
  apply (moves_bind g gA g); [reflexivity | |].
  { apply (moves_requote g (L + 1) (quotePrefix L)); [reflexivity|].
    intros c Hl Hp. cbn in *. split; [lia | exact Hp]. }
  intros _. apply moves_the_ctx. intros c _ Hl _. cbn in Hl.
  apply (moves_bind gA gB g); [reflexivity | |].
  { destruct (V1.blockquoteLevel c <? 0) eqn:E; [apply Z.ltb_lt in E; lia|].
    apply (moves_requote gA (L + 1) (quotePrefix (L + 1))); [reflexivity|].
    intros c0 Hl0 _. cbn in *. split; [exact Hl0|].
    rewrite Hl. unfold quotePrefix.
    destruct (L + 1 >? 0) eqn:E1; [reflexivity|].
    destruct (Z.gtb_spec (L + 1) 0); [discriminate | lia]. }
  intros _.
  apply (moves_bind gB gB g); [reflexivity | apply moves_emit |]. intros _.
  apply moves_the_ctx. intros c1 _ _ _.
  apply (moves_bind gB gB g); [reflexivity | apply moves_when, moves_emit |]. intros _.
  apply (moves_bind gB gB g); [reflexivity | exact (Htc gB WB) |]. intros _.
  apply (moves_bind gB gC g); [reflexivity | |].
  { apply (moves_requote gB L (quotePrefix (L + 1))); [reflexivity|].
    intros c0 Hl0 Hp0. cbn in *. split; [lia | exact Hp0]. }
  intros _. apply moves_the_ctx. intros c2 _ Hl2 _. cbn in Hl2.
  apply (moves_bind gC gD g); [reflexivity | |].
  { destruct (V1.blockquoteLevel c2 <? 0) eqn:E; [apply Z.ltb_lt in E; lia|].
    apply (moves_requote gC L (Repeat (gs ">") L)); [reflexivity|].
    intros c0 Hl0 _. cbn in *. split; [exact Hl0 | now rewrite Hl2]. }
  intros _.
  apply (moves_bind gD g g); [reflexivity | | intros _; exact Hrest].
  rewrite Hl2. unfold when. destruct (L >? 0) eqn:E.
  - apply (moves_requote gD L (quotePrefix L)); [reflexivity|].
    intros c0 Hl0 Hp0. cbn in *. split; [exact Hl0|].
    rewrite Hp0. unfold quotePrefix. now rewrite E.
  - intros s H. cbn. unfold g, holds in *. cbn in *. unfold quotePrefix. rewrite E. exact H.
Qed.

Lemma keeps_handleElement (g : ghost) (tc : M V1.State unit)
      (rec : M V1.State gostring) (node : Node) :
  wellQuoted g ->
  (forall g', wellQuoted g' -> moves g' g' tc) ->
  moves g g rec ->
  moves g g (V1.handleElement tw tc rec node).
Proof.
  intros W Htc Hrec.
  pose proof (Htc g W) as Htcg.
  pose proof (keeps_paragraphHandler g tc Htcg) as Hp.
  unfold V1.handleElement. cbv zeta.
  apply (moves_bind g g g); [reflexivity | keeps_step |]. intros _.
  destruct (DataAtom node) eqn:Ea; try solve [repeat keeps_step].
  1: { (* block quote *)
    apply (moves_bind g g g); [reflexivity | apply moves_FlushCitations |]. intros _.
    apply keeps_blockquote; [exact W | exact Htc | apply moves_emit]. }
  all: apply moves_the_ctx; intros c Ho _ _;
    destruct (V1.PrettyTables (V1.options c)) eqn:E;
    [ apply keeps_handleTableElement; try assumption; congruence
    | cbn [atom.eqb]; repeat keeps_step ].
Qed.

End Walks.

Section WholeWalks.
Variable tw : TableWriter.

Lemma keeps_FromHTMLNode_within (trav : M V1.State unit) (g : ghost) :
  (forall g', wellQuoted g' -> moves g' g' trav) ->
  moves g g (x <- V1.the_ctx ;; V1.FromHTMLNode_within trav (V1.options x)).
Proof.
  intros Ht s H. unfold bind at 1, V1.the_ctx, V1.FromHTMLNode_within.
  set (g' := with_quote 0 [] g).
  assert (W : wellQuoted g') by (split; [cbn; lia | reflexivity]).
  assert (H0 : holds g' (V1.mkState (V1.newContext (V1.options (V1.ctx s)))
                                    (V1.linkAccumulator s))).
  { unfold holds in *. cbn. destruct H as (Ho & _ & _ & Hrest).
    split; [exact Ho|]. split; [reflexivity|]. split; [reflexivity | exact Hrest]. }
  pose proof (moves_bind g' g' g' trav (fun _ => V1.forceFlushGeminiCitations) eq_refl
                (Ht g' W) (fun _ => moves_forceFlush g') _ H0) as Hr.
  destruct (bind trav _ _) as [u s'|p]; [|exact Hr].
  unfold holds in *. cbn in Hr |- *.
  destruct H as (Ho & Hl & Hp & _). destruct Hr as (_ & _ & _ & Hrest). auto.
Qed.

Lemma keeps_traverseChildren_of (traverse : Node -> M V1.State unit) (cs : list Node) :
  Forall (fun c => forall g, wellQuoted g -> moves g g (traverse c)) cs ->
  forall g, wellQuoted g -> moves g g (traverseChildren_of traverse cs).
Proof.
  induction 1 as [|c cs Hc Hcs IH]; intros g W; cbn.
  - apply moves_ret.
  - apply (moves_bind g g g); [reflexivity | exact (Hc g W) | intros _; exact (IH g W)].
Qed.

Lemma keeps_renderEachChild_of (render : Node -> M V1.State gostring) (cs : list Node) :
  Forall (fun c => forall g, moves g g (render c)) cs ->
  forall g, moves g g (renderEachChild_of render cs).
Proof.
  induction 1 as [|c cs Hc Hcs IH]; intros g; cbn.
  - apply moves_ret.
  - apply (moves_bind g g g); [reflexivity | exact (Hc g) | intros s].
    apply (moves_bind g g g); [reflexivity | exact (IH g) | intros rest]. apply moves_ret.
Qed.

Lemma keeps_traverse (node : Node) :
  forall g, wellQuoted g -> moves g g (V1.traverse tw node).
Proof.
  induction node as [type a data attrs cs IH] using Node_induction.
  intros g W. cbn [V1.traverse].
  assert (Htc : forall g', wellQuoted g' ->
                           moves g' g' (traverseChildren_of (V1.traverse tw) cs))
    by (apply keeps_traverseChildren_of; exact IH).
  assert (Hrec : moves g g (renderEachChild_of
                    (fun c => x <- V1.the_ctx ;;
                              V1.FromHTMLNode_within (V1.traverse tw c) (V1.options x))
                    cs)).
  { apply keeps_renderEachChild_of. eapply Forall_impl; [|exact IH].
    intros c Hc g0. apply keeps_FromHTMLNode_within. exact Hc. }
  destruct type; try exact (Htc g W).
  - repeat keeps_step.
  - apply keeps_handleElement; assumption.
Qed.

(** The walk of the document and the final flush, from the context
    [FromHTMLNode] makes. *)
Lemma render_run (doc : Node) (o : list V1.Options) (acc : V1.linkAccumulatorType)
      (bounded : bool) :
  let g := ghostOf bounded (V1.mkState (V1.newContext (optionsOf o)) acc) in
  (bounded = true -> V1.flushedToIndex acc <= len (V1.linkArray acc) - 1) ->
  match V1.traverse tw doc (V1.mkState (V1.newContext (optionsOf o)) acc) with
  | Ok _ s1 =>
      holds g s1
      /\ match V1.forceFlushGeminiCitations s1 with
         | Ok _ s2 =>
             holds g s2
             /\ V1.FromHTMLNode tw doc o acc
                = Ok (normalize (V1.buf (V1.ctx s2))) (V1.linkAccumulator s2)
         | Panic _ => False
         end
  | Panic p => tablePanic g p /\ V1.FromHTMLNode tw doc o acc = Panic p
  end.
Proof.
  intros g Hb.
  assert (H0 : holds g (V1.mkState (V1.newContext (optionsOf o)) acc)).
  { unfold holds, g. cbn. repeat split; try reflexivity; try lia.
    - apply Hb. assumption.
    - exists []. now rewrite app_nil_r. }
  assert (W : wellQuoted g) by (split; [cbn; lia | reflexivity]).
  pose proof (keeps_traverse doc g W _ H0) as Ht.
  unfold V1.FromHTMLNode, V1.FromHTMLNode_within, bind. fold (optionsOf o).
  destruct (V1.traverse tw doc _) as [u s1|p]; [|split; [exact Ht | reflexivity]].
  split; [exact Ht|].
  pose proof (moves_forceFlush g s1 Ht) as Hf.
  destruct (V1.tableNestLevel (V1.linkAccumulator s1) >? 0) eqn:En.
  - destruct (forceFlush_inside_table s1 En) as [Hi _]. rewrite Hi in Hf |- *.
    split; [exact Hf | reflexivity].
  - rewrite (forceFlush_outside_table s1 En) in Hf |- *.
    split; [exact Hf | reflexivity].
Qed.

End WholeWalks.

(** ** Where the index out of range comes from *)

Lemma cellFault_calm {A} (b : bool) (m : M V1.State A) :
  (forall s, m s <> Panic IndexOutOfRange) -> cellFault b m.
Proof. intros H s E. destruct (H s E). Qed.

Lemma cellFault_weaken {A} (b b' : bool) (m : M V1.State A) :
  cellFault b m -> cellFault (b' || b) m.
Proof. intros H s E. rewrite (H s E). apply orb_true_r. Qed.

Lemma cellFault_ret {A} (b : bool) (a : A) : cellFault b (@ret V1.State A a).
Proof. apply cellFault_calm. discriminate. Qed.

Lemma cellFault_bind {A B} (b : bool) (m : M V1.State A) (k : A -> M V1.State B) :
  cellFault b m -> (forall a, cellFault b (k a)) -> cellFault b (bind m k).
Proof.
  intros Hm Hk s E. unfold bind in E. destruct (m s) as [a s1|p] eqn:Em.
  - exact (Hk a s1 E).
  - apply (Hm s). rewrite Em. injection E as ->. reflexivity.
Qed.

Lemma cellFault_throw {A} (b : bool) (p : panic) :
  p <> IndexOutOfRange -> cellFault b (@throw V1.State A p).
Proof. intros H. apply cellFault_calm. intros s E. injection E as E. exact (H E). Qed.

Lemma cellFault_when (b c : bool) (m : M V1.State unit) :
  cellFault b m -> cellFault b (when c m).
Proof. intros H. destruct c; [exact H | apply cellFault_ret]. Qed.

Lemma cellFault_on_ctx (b : bool) (f : V1.textifyTraverseContext -> V1.textifyTraverseContext) :
  cellFault b (V1.on_ctx f).
Proof. apply cellFault_calm. discriminate. Qed.

Lemma cellFault_on_acc (b : bool) (f : V1.linkAccumulatorType -> V1.linkAccumulatorType) :
  cellFault b (V1.on_acc f).
Proof. apply cellFault_calm. discriminate. Qed.

Lemma cellFault_on_tableCtx (b : bool) (f : tableTraverseContext -> tableTraverseContext) :
  cellFault b (V1.on_tableCtx f).
Proof. apply cellFault_calm. discriminate. Qed.

Lemma cellFault_the_ctx (b : bool) : cellFault b V1.the_ctx.
Proof. apply cellFault_calm. discriminate. Qed.

Lemma cellFault_the_acc (b : bool) : cellFault b V1.the_acc.
Proof. apply cellFault_calm. discriminate. Qed.

Lemma cellFault_emit (b : bool) (data : gostring) : cellFault b (V1.emit data).
Proof.
  apply cellFault_calm. intros s E. destruct (emit_total data s) as [c' H].
  rewrite H in E. discriminate.
Qed.

Lemma cellFault_addGeminiCitation (b : bool) (url display : gostring) :
  cellFault b (V1.addGeminiCitation url display).
Proof.
  apply cellFault_calm. intros s. unfold V1.addGeminiCitation.
  destruct url as [|first rest]; [discriminate|].
  destruct (first =? 35); discriminate.
Qed.

Ltac cellFault_step :=
  match goal with
  | H : cellFault ?b ?m |- cellFault ?b ?m => exact H
  | |- cellFault _ (bind _ _) => apply cellFault_bind; [|intros ?]
  | |- cellFault _ (ret _) => apply cellFault_ret
  | |- cellFault _ (when _ _) => apply cellFault_when
  | HB : _ -> ?b = true |- cellFault ?b (throw IndexOutOfRange) =>
      intros ? _; apply HB; first [assumption | reflexivity]
  | |- cellFault _ (throw _) => apply cellFault_throw; discriminate
  | |- cellFault _ (V1.emit _) => apply cellFault_emit
  | |- cellFault _ (V1.on_ctx _) => apply cellFault_on_ctx
  | |- cellFault _ (V1.on_acc _) => apply cellFault_on_acc
  | |- cellFault _ (V1.on_tableCtx _) => apply cellFault_on_tableCtx
  | |- cellFault _ V1.the_ctx => apply cellFault_the_ctx
  | |- cellFault _ V1.the_acc => apply cellFault_the_acc
  | |- cellFault _ (V1.addGeminiCitation _ _) => apply cellFault_addGeminiCitation
  | |- cellFault _ (match ?x with _ => _ end) => destruct x eqn:?
  end.

Lemma cellFault_forceFlush (b : bool) : cellFault b V1.forceFlushGeminiCitations.
Proof.
  unfold V1.forceFlushGeminiCitations, V1.ResetCitationCounters. repeat cellFault_step.
Qed.

Lemma cellFault_FlushCitations (b : bool) : cellFault b V1.FlushCitations.
Proof.
  unfold V1.FlushCitations, V1.emitGeminiCitations.
  repeat cellFault_step; apply cellFault_forceFlush.
Qed.

Lemma cellFault_CheckFlushCitations (b : bool) : cellFault b V1.CheckFlushCitations.
Proof.
  unfold V1.CheckFlushCitations.
  repeat cellFault_step; apply cellFault_FlushCitations.
Qed.

Lemma cellFault_FromHTMLNode_within (b : bool) (trav : M V1.State unit) :
  cellFault b trav ->
  cellFault b (x <- V1.the_ctx ;; V1.FromHTMLNode_within trav (V1.options x)).
Proof.
  intros Ht s E. unfold bind at 1, V1.the_ctx, V1.FromHTMLNode_within in E.
  pose proof (cellFault_bind b trav (fun _ => V1.forceFlushGeminiCitations) Ht
                (fun _ => cellFault_forceFlush b)
                (V1.mkState (V1.newContext (V1.options (V1.ctx s))) (V1.linkAccumulator s)))
    as H.
  destruct (bind trav _ _) as [u s'|p]; [discriminate|].
  apply H. injection E as ->. reflexivity.
Qed.

Lemma cellFault_traverseChildren_of (traverse : Node -> M V1.State unit) (cs : list Node) :
  Forall (fun c => cellFault (hasDataCell c) (traverse c)) cs ->
  cellFault (existsb hasDataCell cs) (traverseChildren_of traverse cs).
Proof.
  induction 1 as [|c cs Hc Hcs IH]; cbn [existsb traverseChildren_of].
  - apply cellFault_ret.
  - apply cellFault_bind.
    + intros s E. rewrite (Hc s E). reflexivity.
    + intros _. apply cellFault_weaken. exact IH.
Qed.

Lemma cellFault_renderEachChild_of (render : Node -> M V1.State gostring) (cs : list Node) :
  Forall (fun c => cellFault (hasDataCell c) (render c)) cs ->
  cellFault (existsb hasDataCell cs) (renderEachChild_of render cs).
Proof.
  induction 1 as [|c cs Hc Hcs IH]; cbn [existsb renderEachChild_of].
  - apply cellFault_ret.
  - apply cellFault_bind.
    + intros s E. rewrite (Hc s E). reflexivity.
    + intros r. apply cellFault_bind; [apply cellFault_weaken; exact IH|].
      intros rest. apply cellFault_ret.
Qed.

Section Faults.
Variable tw : TableWriter.

Lemma cellFault_paragraphHandler (b : bool) (tc : M V1.State unit) :
  cellFault b tc -> cellFault b (V1.paragraphHandler tc).
Proof.
  intros H. pose proof (cellFault_CheckFlushCitations b) as Hc.
  unfold V1.paragraphHandler. repeat cellFault_step.
Qed.

Lemma cellFault_handleTableElement (b : bool) (tc : M V1.State unit)
      (rec : M V1.State gostring) (node : Node) :
  cellFault b tc -> cellFault b rec -> (DataAtom node = atom.Td -> b = true) ->
  cellFault b (V1.handleTableElement tw tc rec node).
Proof.
  intros Htc Hrec Hb. unfold V1.handleTableElement. cbv zeta. repeat cellFault_step.
Qed.

Lemma cellFault_handleElement (b : bool) (tc : M V1.State unit)
      (rec : M V1.State gostring) (node : Node) :
  cellFault b tc -> cellFault b rec -> (DataAtom node = atom.Td -> b = true) ->
  cellFault b (V1.handleElement tw tc rec node).
Proof.
  intros Htc Hrec Hb.
  pose proof (cellFault_paragraphHandler b tc Htc) as Hp.
  pose proof (cellFault_handleTableElement b tc rec node Htc Hrec Hb) as Ht.
  pose proof (cellFault_FlushCitations b) as Hf.
  pose proof (cellFault_CheckFlushCitations b) as Hc.
  unfold V1.handleElement. cbv zeta.
  apply cellFault_bind; [cellFault_step|]. intros _.
  clear Hb. destruct (DataAtom node); repeat cellFault_step.
Qed.

Lemma cellFault_traverse (node : Node) :
  cellFault (hasDataCell node) (V1.traverse tw node).
Proof.
  induction node as [type a data attrs cs IH] using Node_induction.
  cbn [V1.traverse hasDataCell].
  set (b := _ || existsb hasDataCell cs).
  assert (Htc : cellFault b (traverseChildren_of (V1.traverse tw) cs))
    by (apply cellFault_weaken, cellFault_traverseChildren_of; exact IH).
  assert (Hrec : cellFault b (renderEachChild_of
                           (fun c => x <- V1.the_ctx ;;
                                     V1.FromHTMLNode_within (V1.traverse tw c) (V1.options x))
                           cs)).
  { apply cellFault_weaken, cellFault_renderEachChild_of. eapply Forall_impl; [|exact IH].
    intros c Hc. apply cellFault_FromHTMLNode_within. exact Hc. }
  destruct type; try exact Htc.
  - repeat cellFault_step.
  - apply cellFault_handleElement; try assumption.
    cbn [DataAtom]. intros ->. reflexivity.
Qed.

Lemma FromHTMLNode_cellFault (doc : Node) (o : list V1.Options)
      (acc : V1.linkAccumulatorType) :
  V1.FromHTMLNode tw doc o acc = Panic IndexOutOfRange -> hasDataCell doc = true.
Proof.
  unfold V1.FromHTMLNode. intros E.
  set (options := match o with o0 :: _ => o0 | [] => V1.Options_unset end) in E.
  pose proof (cellFault_FromHTMLNode_within _ _ (cellFault_traverse doc)
                (V1.mkState (V1.newContext options) acc)) as H.
  unfold bind at 1, V1.the_ctx in H. cbn [V1.ctx V1.options V1.newContext] in H.
  destruct (V1.FromHTMLNode_within _ _ _) as [text s|p]; [discriminate|].
  apply H. injection E as ->. reflexivity.
Qed.

End Faults.

(** ** Whole renders *)

(** X1.  A render of [html2gemini.go] can end in one panic only, the index
    out of range, and only when pretty tables are on and the tree holds a
    [td] element, whose handler indexes the rows of the table under
    construction.  [emit] returns for every fragment and every state and
    [breakLongLines] for every context and data, so the index that runs
    out is never theirs; and no tree makes [strings.Repeat] see a
    negative count or a url be sliced when it is empty.  (The table
    writer is taken to return for every table.) *)
Theorem render_panics_only_in_pretty_tables (tw : TableWriter) (doc : Node)
        (o : list V1.Options) (acc : V1.linkAccumulatorType) :
  (forall p : panic,
      V1.FromHTMLNode tw doc o acc = Panic p ->
      p = IndexOutOfRange
      /\ V1.PrettyTables (optionsOf o) = true
      /\ hasDataCell doc = true)
  /\ (forall (data : gostring) (s : V1.State), exists s', V1.emit data s = Ok tt s')
  /\ (forall (c : V1.textifyTraverseContext) (data : gostring),
        exists lines, V1.breakLongLines c data = V1.Lines lines).
Proof.
  split; [|split].
  - intros p H. pose proof (render_run tw doc o acc false) as Hr. cbv zeta in Hr.
    specialize (Hr ltac:(discriminate)).
    assert (Hp : p = IndexOutOfRange /\ V1.PrettyTables (optionsOf o) = true).
    { destruct (V1.traverse tw doc _) as [u s1|q].
      - destruct Hr as [_ Hr]. destruct (V1.forceFlushGeminiCitations s1); [|contradiction].
        destruct Hr as [_ Hr]. congruence.
      - destruct Hr as [Hp Hr]. rewrite Hr in H. injection H as <-. exact Hp. }
    destruct Hp as [-> Hp]. split; [reflexivity|]. split; [exact Hp|].
    exact (FromHTMLNode_cellFault tw doc o acc H).
  - intros data s. destruct (emit_total data s) as [c' H]. eexists. exact H.
  - intros c data. unfold V1.breakLongLines. destruct (V1.blockquoteLevel c =? 0).
    + eexists. reflexivity.
    + destruct (V1.lineLength c >=? V1.maxLineLen) eqn:E.
      * destruct (breakLoop_lines (S (length data)) [[LF]] data 0) as (lines & Hl & _);
          [reflexivity | lia | constructor; [discriminate | constructor] |].
        exists lines. exact Hl.
      * destruct (breakLoop_lines (S (length data)) [] data (V1.lineLength c))
          as (lines & Hl & _); [|lia | constructor |].
        -- rewrite Z.geb_leb in E. apply Z.leb_gt in E. exact E.
        -- exists lines. exact Hl.
Qed.

Lemma render_panics_only_in_pretty_tables_witness :
  V1.FromHTMLNode blankTableWriter strayDataCell [prettyOptions] V1.newLinkAccumulator
  = Panic IndexOutOfRange
  /\ V1.PrettyTables (optionsOf [prettyOptions]) = true
  /\ hasDataCell strayDataCell = true.
Proof.
  assert (H : V1.FromHTMLNode blankTableWriter strayDataCell [prettyOptions]
                V1.newLinkAccumulator = Panic IndexOutOfRange)
    by (vm_compute; reflexivity).
  split; [exact H|].
  exact (proj2 (proj1 (render_panics_only_in_pretty_tables blankTableWriter strayDataCell
                         [prettyOptions] V1.newLinkAccumulator) _ H)).
Defined.

(** X2.  With pretty tables off, [FromHTMLNode] returns a text for every
    tree, every other option and every accumulator. *)
Theorem render_without_pretty_tables_returns (tw : TableWriter) (doc : Node)
        (o : list V1.Options) (acc : V1.linkAccumulatorType) :
  V1.PrettyTables (optionsOf o) = false ->
  exists text acc', V1.FromHTMLNode tw doc o acc = Ok text acc'.
Proof.
  intros Hp. pose proof (render_run tw doc o acc false) as Hr. cbv zeta in Hr.
  specialize (Hr ltac:(discriminate)).
  destruct (V1.traverse tw doc _) as [u s1|q].
  - destruct Hr as [_ Hr]. destruct (V1.forceFlushGeminiCitations s1); [|contradiction].
    destruct Hr as [_ Hr]. eexists. eexists. exact Hr.
  - destruct Hr as [[_ Ht] _]. change (V1.PrettyTables (optionsOf o) = true) in Ht.
    congruence.
Qed.

Lemma render_without_pretty_tables_returns_witness :
  exists text acc',
    V1.FromHTMLNode blankTableWriter strayDataCell [V1.NewOptions None]
      V1.newLinkAccumulator = Ok text acc'.
Proof.
  apply (render_without_pretty_tables_returns blankTableWriter strayDataCell
           [V1.NewOptions None] V1.newLinkAccumulator).
  reflexivity.
Defined.

(** X3.  A completed render leaves the table nesting of the accumulator
    as it found it, and when it started outside every table it leaves
    nothing waiting: the cursor is on the last citation and the paragraph
    counter is zero. *)
Theorem render_leaves_everything_flushed (tw : TableWriter) (doc : Node)
        (o : list V1.Options) (acc acc' : V1.linkAccumulatorType) (text : gostring) :
  V1.FromHTMLNode tw doc o acc = Ok text acc' ->
  V1.tableNestLevel acc' = V1.tableNestLevel acc
  /\ ((V1.tableNestLevel acc >? 0) = false ->
      V1.flushedToIndex acc' = len (V1.linkArray acc') - 1
      /\ V1.emitParaCount acc' = 0).
Proof.
  intros H. pose proof (render_run tw doc o acc false) as Hr. cbv zeta in Hr.
  specialize (Hr ltac:(discriminate)).
  destruct (V1.traverse tw doc _) as [u s1|q]; [|destruct Hr as [_ Hr]; congruence].
  destruct Hr as [H1 Hr].
  assert (Hn : V1.tableNestLevel (V1.linkAccumulator s1) = V1.tableNestLevel acc)
    by apply H1.
  destruct (V1.tableNestLevel (V1.linkAccumulator s1) >? 0) eqn:En.
  - destruct (forceFlush_inside_table s1 En) as [Hi _]. rewrite Hi in Hr.
    destruct Hr as [_ Hr]. rewrite Hr in H. injection H as _ <-.
    split; [exact Hn|]. intros Hz. rewrite Hn in En. congruence.
  - rewrite (forceFlush_outside_table s1 En) in Hr.
    destruct Hr as [_ Hr]. rewrite Hr in H. injection H as _ <-. cbn.
    split; [exact Hn|]. intros _. split; reflexivity.
Qed.

Lemma render_leaves_everything_flushed_witness :
  V1.flushedToIndex
    {| V1.emitParaCount := 0; V1.linkArray := [oneLink];
       V1.flushedToIndex := 0; V1.tableNestLevel := 0 |}
  = len [oneLink] - 1.
Proof.
  assert (H : V1.FromHTMLNode blankTableWriter oneLinkDoc [V1.NewOptions None]
                V1.newLinkAccumulator
              = Ok (gs "L [1]\n\n=> x [1] L")
                   {| V1.emitParaCount := 0; V1.linkArray := [oneLink];
                      V1.flushedToIndex := 0; V1.tableNestLevel := 0 |})
    by (vm_compute; reflexivity).
  destruct (render_leaves_everything_flushed _ _ _ _ _ _ H) as [_ Hf].
  exact (proj1 (Hf eq_refl)).
Defined.

(** X4.  From an accumulator whose cursor is not ahead of its link array,
    a completed render never moves the cursor back, never lets it run
    ahead, and never shortens the link array. *)
Theorem render_moves_the_cursor_forward (tw : TableWriter) (doc : Node)
        (o : list V1.Options) (acc acc' : V1.linkAccumulatorType) (text : gostring) :
  V1.flushedToIndex acc <= len (V1.linkArray acc) - 1 ->
  V1.FromHTMLNode tw doc o acc = Ok text acc' ->
  V1.flushedToIndex acc <= V1.flushedToIndex acc' <= len (V1.linkArray acc') - 1
  /\ len (V1.linkArray acc) <= len (V1.linkArray acc').
Proof.
  intros Hc H. pose proof (render_run tw doc o acc true) as Hr. cbv zeta in Hr.
  specialize (Hr (fun _ => Hc)).
  destruct (V1.traverse tw doc _) as [u s1|q]; [|destruct Hr as [_ Hr]; congruence].
  destruct Hr as [_ Hr]. destruct (V1.forceFlushGeminiCitations s1) as [u2 s2|]; [|contradiction].
  destruct Hr as [H2 Hr]. rewrite Hr in H. injection H as _ <-.
  destruct H2 as (_ & _ & _ & _ & Hb & (added & Ha) & _). cbn in Hb, Ha.
  split; [apply Hb; reflexivity|]. rewrite Ha. unfold len. rewrite length_app. lia.
Qed.

Lemma render_moves_the_cursor_forward_witness :
  -1 <= 0 <= len [oneLink] - 1 /\ len (@nil citationLink) <= len [oneLink].
Proof.
  assert (H : V1.FromHTMLNode blankTableWriter oneLinkDoc [V1.NewOptions None]
                V1.newLinkAccumulator
              = Ok (gs "L [1]\n\n=> x [1] L")
                   {| V1.emitParaCount := 0; V1.linkArray := [oneLink];
                      V1.flushedToIndex := 0; V1.tableNestLevel := 0 |})
    by (vm_compute; reflexivity).
  assert (Hc : V1.flushedToIndex V1.newLinkAccumulator
               <= len (V1.linkArray V1.newLinkAccumulator) - 1) by (cbn; lia).
  exact (render_moves_the_cursor_forward _ _ _ _ _ _ Hc H).
Defined.

(** X5.  With [OmitLinks] on, a render registers no citation at all: the
    link array comes out as it went in, whatever anchors and images the
    tree holds. *)
Theorem render_with_links_omitted_registers_nothing (tw : TableWriter) (doc : Node)
        (o : list V1.Options) (acc acc' : V1.linkAccumulatorType) (text : gostring) :
  V1.OmitLinks (optionsOf o) = true ->
  V1.FromHTMLNode tw doc o acc = Ok text acc' ->
  V1.linkArray acc' = V1.linkArray acc.
Proof.
  intros Hom H. pose proof (render_run tw doc o acc false) as Hr. cbv zeta in Hr.
  specialize (Hr ltac:(discriminate)).
  destruct (V1.traverse tw doc _) as [u s1|q]; [|destruct Hr as [_ Hr]; congruence].
  destruct Hr as [_ Hr]. destruct (V1.forceFlushGeminiCitations s1) as [u2 s2|]; [|contradiction].
  destruct Hr as [H2 Hr]. rewrite Hr in H. injection H as _ <-.
  destruct H2 as (_ & _ & _ & _ & _ & _ & Hm). apply Hm. exact Hom.
Qed.

Lemma render_with_links_omitted_registers_nothing_witness :
  V1.FromHTMLNode blankTableWriter oneLinkDoc [omittingOptions] V1.newLinkAccumulator
  = Ok (gs "L") V1.newLinkAccumulator
  /\ V1.linkArray V1.newLinkAccumulator = [].
Proof.
  assert (H : V1.FromHTMLNode blankTableWriter oneLinkDoc [omittingOptions]
                V1.newLinkAccumulator = Ok (gs "L") V1.newLinkAccumulator)
    by (vm_compute; reflexivity).
  split; [exact H|].
  exact (render_with_links_omitted_registers_nothing blankTableWriter oneLinkDoc
           [omittingOptions] _ _ _ eq_refl H).
Defined.

(** X6.  The walk of any subtree that returns leaves the depth of quoting
    and the line prefix as they were when it started (from a context whose
    prefix fits its depth): whatever block quotes the subtree opens, it
    closes. *)
Theorem walk_restores_quoting (tw : TableWriter) (node : Node) (s s' : V1.State) :
  0 <= V1.blockquoteLevel (V1.ctx s) ->
  V1.prefix (V1.ctx s) = quotePrefix (V1.blockquoteLevel (V1.ctx s)) ->
  V1.traverse tw node s = Ok tt s' ->
  V1.blockquoteLevel (V1.ctx s') = V1.blockquoteLevel (V1.ctx s)
  /\ V1.prefix (V1.ctx s') = V1.prefix (V1.ctx s)
  /\ V1.options (V1.ctx s') = V1.options (V1.ctx s)
  /\ V1.tableNestLevel (V1.linkAccumulator s')
     = V1.tableNestLevel (V1.linkAccumulator s).
Proof.
  intros Hl Hp Ht.
  assert (W : wellQuoted (ghostOf false s)) by (split; assumption).
  assert (H0 : holds (ghostOf false s) s).
  { unfold holds, ghostOf. cbn. repeat split; try reflexivity; try discriminate.
    exists []. now rewrite app_nil_r. }
  pose proof (keeps_traverse tw node _ W s H0) as H. rewrite Ht in H.
  destruct H as (Ho & Hl' & Hp' & Hn & _). cbn in *. auto.
Qed.

Lemma walk_restores_quoting_witness :
  exists s',
    V1.traverse blankTableWriter quotedWord (freshState (V1.NewOptions None)) = Ok tt s'
    /\ V1.blockquoteLevel (V1.ctx s') = 0
    /\ V1.prefix (V1.ctx s') = [].
Proof.
  eexists. split; [vm_compute; reflexivity|].
  match goal with |- V1.blockquoteLevel (V1.ctx ?s') = _ /\ _ =>
    assert (Ht : V1.traverse blankTableWriter quotedWord (freshState (V1.NewOptions None))
                 = Ok tt s') by (vm_compute; reflexivity);
    destruct (walk_restores_quoting blankTableWriter quotedWord
                (freshState (V1.NewOptions None)) s'
                ltac:(cbn; lia) eq_refl Ht) as (Hl & Hp & _)
  end.
  split; [exact Hl | exact Hp].
Defined.

(** ** Text nodes *)

Lemma spacingRe_collapse_spaces (s : gostring) : forall inRun : bool,
  Forall (fun r => isSpacing r = true -> r = SP) (spacingRe_collapse inRun s)
  /\ Contains (spacingRe_collapse inRun s) [SP; SP] = false
  /\ (inRun = true -> HasPrefix (spacingRe_collapse inRun s) [SP] = false).
Proof.
  induction s as [|r s IH]; intros inRun.
  - cbn. repeat split; auto.
  - cbn [spacingRe_collapse]. destruct (isSpacing r) eqn:E.
    + destruct (IH true) as (Hf & Hc & Hp). specialize (Hp eq_refl).
      destruct inRun; [repeat split; auto|].
      split; [constructor; auto|]. split; [|discriminate].
      cbn [Contains]. rewrite Hc, orb_false_r.
      cbn [HasPrefix]. rewrite Hp. apply andb_false_r.
    + destruct (IH false) as (Hf & Hc & _).
      assert (Hr : (SP =? r) = false).
      { destruct (SP =? r) eqn:Er; [|reflexivity]. apply Z.eqb_eq in Er. subst r.
        discriminate. }
      split; [constructor; [congruence | exact Hf]|]. split.
      * cbn [Contains]. rewrite Hc, orb_false_r. cbn [HasPrefix]. now rewrite Hr.
      * intros _. cbn [HasPrefix]. now rewrite Hr.
Qed.

(** X7.  What a text node hands to [emit]: inside a preformatted block
    its data as it is; elsewhere its data with every run of space, tab,
    carriage return and newline turned into one space and the ends
    trimmed, so that the text has no tab, carriage return or newline, no
    two spaces in a row, and no white space at either end. *)
Theorem text_node_collapses_spacing (tw : TableWriter) (a : atom.Atom) (data : gostring)
        (attrs : list html.Attribute) (cs : list Node) (s : V1.State) :
  let t := TrimSpace (spacingRe_ReplaceAll_space data) in
  V1.traverse tw (mkNode html.TextNode a data attrs cs) s
  = V1.emit (if V1.isPre (V1.ctx s) then data else t) s
  /\ trimmed t
  /\ ~ occursIn [SP; SP] t
  /\ Forall (fun r => r <> 9 /\ r <> 10 /\ r <> 13) t.
Proof.
  intros t. split; [reflexivity|]. split; [apply TrimSpace_trimmed|].
  destruct (spacingRe_collapse_spaces data false) as (Hf & Hc & _).
  destruct (TrimSpace_infix (spacingRe_ReplaceAll_space data)) as (p & q & Hpq).
  fold t in Hpq. unfold spacingRe_ReplaceAll_space in *. split.
  - intros (x & y & Ht). rewrite Hpq, Ht in Hc.
    replace (p ++ (x ++ [SP; SP] ++ y) ++ q) with ((p ++ x) ++ [SP; SP] ++ (y ++ q)) in Hc
      by (repeat rewrite <- app_assoc; reflexivity).
    rewrite Contains_infix in Hc. discriminate.
  - rewrite Hpq in Hf. apply Forall_app in Hf. destruct Hf as [_ Hf].
    apply Forall_app in Hf. destruct Hf as [Hf _].
    eapply Forall_impl; [|exact Hf]. intros r Hr.
    repeat split; intros ->; specialize (Hr eq_refl); discriminate.
Qed.

(** ** Attributes *)

Lemma string_eqb_eq (a : gostring) : forall b, string_eqb a b = true <-> a = b.
Proof.
  induction a as [|x a IH]; intros [|y b]; cbn; try (split; [discriminate|discriminate]).
  - split; reflexivity.
  - rewrite andb_true_iff, Z.eqb_eq, IH. split.
    + intros [-> ->]. reflexivity.
    + intros H. injection H as -> ->. auto.
Qed.

(** X8.  [getAttrVal] gives the value of the first attribute that has the
    key, whatever attributes of the same key follow, and the empty string
    when no attribute has the key. *)
Theorem getAttrVal_first_match (t : html.NodeType) (a : atom.Atom) (data : gostring)
        (cs : list Node) (before after : list html.Attribute) (at_ : html.Attribute)
        (attrName : gostring) :
  Forall (fun x => html.Key x <> attrName) before ->
  (html.Key at_ = attrName ->
   getAttrVal (mkNode t a data (before ++ at_ :: after) cs) attrName = html.Val at_)
  /\ getAttrVal (mkNode t a data before cs) attrName = [].
Proof.
  intros Hb. unfold getAttrVal. cbn [Attr].
  induction Hb as [|x before Hx Hb IH]; cbn.
  - split; [|reflexivity]. intros He. apply string_eqb_eq in He. now rewrite He.
  - destruct (string_eqb (html.Key x) attrName) eqn:E.
    + apply string_eqb_eq in E. contradiction.
    + exact IH.
Qed.

Lemma getAttrVal_first_match_witness :
  getAttrVal (element atom.A [attr (gs "id") (gs "i"); attr (gs "href") (gs "x");
                              attr (gs "href") (gs "y")] []) (gs "href")
  = gs "x".
Proof.
  refine (proj1 (getAttrVal_first_match html.ElementNode atom.A [] []
                   [attr (gs "id") (gs "i")] [attr (gs "href") (gs "y")]
                   (attr (gs "href") (gs "x")) (gs "href") _) eq_refl).
  constructor; [discriminate | constructor].
Defined.

(** ** Line breaking keeps the text *)

Lemma scanWhile_spec (f : rune -> bool) (rest : gostring) : forall i : nat,
  exists n : nat,
    V1.scanWhile f rest i = (i + n)%nat
    /\ Forall (fun r => f r = true) (firstn n rest).
Proof.
  induction rest as [|r rest IH]; intros i; cbn [V1.scanWhile].
  - exists 0%nat. split; [lia | constructor].
  - destruct (f r) eqn:E.
    + destruct (IH (S i)) as (n & Hn & Hf). exists (S n). split; [lia|].
      cbn. constructor; assumption.
    + exists 0%nat. split; [lia | constructor].
Qed.

Lemma filter_visible_spaces (l : gostring) :
  Forall (fun r => IsSpace r = true) l -> filter visible l = [].
Proof.
  induction 1 as [|r l Hr _ IH]; cbn; [reflexivity|].
  unfold visible at 1. rewrite Hr. exact IH.
Qed.

Lemma breakLoop_visible (fuel : nat) : forall (ret : list gostring) (runes : gostring)
                                              (existing : Z) (lines : list gostring),
  V1.breakLoop fuel ret runes existing = V1.Lines lines ->
  filter visible (concat lines) = filter visible (concat ret) ++ filter visible runes.
Proof.
  induction fuel as [|fuel IH]; intros ret runes existing lines; cbn [V1.breakLoop];
    destruct (len runes + existing >? V1.maxLineLen) eqn:E; try discriminate.
  - intros H. injection H as <-. destruct runes as [|r runes].
    + now rewrite app_nil_r.
    + rewrite concat_app, filter_app. cbn [concat]. now rewrite app_nil_r.
  - destruct (V1.scanBack runes _) as [found|]; [|discriminate].
    set (i := match found with
              | Some i => i
              | None => V1.scanWhile (fun r => negb (IsSpace r))
                          (skipn (Z.to_nat (V1.maxLineLen - existing)) runes)
                          (Z.to_nat (V1.maxLineLen - existing))
              end).
    intros H. apply IH in H. rewrite H. clear H.
    destruct (scanWhile_spec IsSpace (skipn i runes) i) as (n & -> & Hsp).
    rewrite concat_app, !filter_app. cbn [concat]. rewrite app_nil_r, filter_app.
    cbn [filter]. change (visible LF) with false. rewrite app_nil_r, <- app_assoc. f_equal.
    rewrite <- (firstn_skipn i runes) at 3. rewrite filter_app. f_equal.
    symmetry. rewrite <- (firstn_skipn n (skipn i runes)) at 1.
    rewrite filter_app, (filter_visible_spaces _ Hsp), skipn_skipn.
    cbn [app]. f_equal. f_equal. lia.
  - intros H. injection H as <-. destruct runes as [|r runes].
    + now rewrite app_nil_r.
    + rewrite concat_app, filter_app. cbn [concat]. now rewrite app_nil_r.
Qed.

(** X9.  [breakLongLines] always returns, without an index out of range;
    the lines it returns hold, in order, exactly the runes of the data
    that are not white space (it only drops white space and puts in
    newlines); and for data that is not empty none of the lines is
    empty. *)
Theorem breakLongLines_keeps_the_text (c : V1.textifyTraverseContext) (data : gostring) :
  exists lines,
    V1.breakLongLines c data = V1.Lines lines
    /\ filter visible (concat lines) = filter visible data
    /\ (data <> [] -> Forall (fun line => line <> []) lines).
Proof.
  unfold V1.breakLongLines. destruct (V1.blockquoteLevel c =? 0).
  - exists [data]. split; [reflexivity|]. split; [cbn; now rewrite app_nil_r|].
    intros H. constructor; [exact H | constructor].
  - destruct (V1.lineLength c >=? V1.maxLineLen) eqn:E.
    + destruct (breakLoop_lines (S (length data)) [[LF]] data 0) as (lines & Hl & Hne);
        [reflexivity | lia | constructor; [discriminate | constructor] |].
      exists lines. split; [exact Hl|]. split; [|intros _; exact Hne].
      apply breakLoop_visible in Hl. exact Hl.
    + rewrite Z.geb_leb in E. apply Z.leb_gt in E.
      destruct (breakLoop_lines (S (length data)) [] data (V1.lineLength c))
        as (lines & Hl & Hne); [exact E | lia | constructor |].
      exists lines. split; [exact Hl|]. split; [|intros _; exact Hne].
      apply breakLoop_visible in Hl. exact Hl.
Qed.

(** X10.  [emit] never panics: whatever the fragment and the context,
    block quote or not, it returns, and it leaves the accumulator
    alone. *)
Theorem emit_never_panics (data : gostring) (s : V1.State) :
  exists c',
    V1.emit data s = Ok tt (V1.mkState c' (V1.linkAccumulator s))
    /\ V1.options c' = V1.options (V1.ctx s)
    /\ V1.blockquoteLevel c' = V1.blockquoteLevel (V1.ctx s)
    /\ V1.prefix c' = V1.prefix (V1.ctx s).
Proof.
  destruct (emit_total data s) as [c' He]. exists c'. split; [exact He|].
  unfold V1.emit in He. destruct (V1.emit_ctx (V1.ctx s) data) as [c1|] eqn:E; [|discriminate].
  injection He as <-.
  unfold V1.emit_ctx in E. destruct (is_empty data); [injection E as <-; auto|].
  destruct (V1.breakLongLines (V1.ctx s) data); try discriminate.
  eapply emitLines_fields. exact E.
Qed.

(** ** Flushes *)

(** X11.  Outside a table, a forced flush writes a blank line, then the
    line of every citation behind the cursor, each once and in the order
    of registration, then a newline; it puts the cursor on the last
    citation, never further back than it was, and the paragraph counter
    to zero. *)
Theorem flush_writes_what_waits (s : V1.State) :
  (V1.tableNestLevel (V1.linkAccumulator s) >? 0) = false ->
  V1.flushedToIndex (V1.linkAccumulator s) <= len (V1.linkArray (V1.linkAccumulator s)) - 1 ->
  exists s',
    V1.forceFlushGeminiCitations s = Ok tt s'
    /\ V1.buf (V1.ctx s')
       = V1.buf (V1.ctx s) ++ gs "\n\n"
         ++ flat_map (citationLine (V1.NumberedLinks (V1.options (V1.ctx s))))
              (skipn (Z.to_nat (V1.flushedToIndex (V1.linkAccumulator s) + 1))
                     (V1.linkArray (V1.linkAccumulator s)))
         ++ gs "\n"
    /\ V1.linkArray (V1.linkAccumulator s') = V1.linkArray (V1.linkAccumulator s)
    /\ V1.flushedToIndex (V1.linkAccumulator s)
       <= V1.flushedToIndex (V1.linkAccumulator s')
    /\ V1.flushedToIndex (V1.linkAccumulator s')
       = len (V1.linkArray (V1.linkAccumulator s)) - 1
    /\ V1.emitParaCount (V1.linkAccumulator s') = 0.
Proof.
  intros Ht Hc. rewrite (forceFlush_outside_table s Ht). eexists. split; [reflexivity|].
  cbn. rewrite citationLines_beyond, Z.sub_0_r. auto.
Qed.

Lemma flush_writes_what_waits_witness :
  exists s',
    V1.forceFlushGeminiCitations twoParagraphsOneLink = Ok tt s'
    /\ V1.buf (V1.ctx s') = gs "\n\n=> x [1] L\n\n".
Proof.
  destruct (flush_writes_what_waits twoParagraphsOneLink eq_refl ltac:(cbn; lia))
    as (s' & Hf & Hb & _).
  exists s'. split; [exact Hf | rewrite Hb; reflexivity].
Defined.

(** X12.  A flush that follows a flush writes no citation line, only its
    three newlines, and leaves the accumulator as it is: no citation is
    written twice by flushing again. *)
Theorem second_flush_writes_no_citation (s : V1.State) :
  (V1.tableNestLevel (V1.linkAccumulator s) >? 0) = false ->
  exists s1 s2,
    V1.forceFlushGeminiCitations s = Ok tt s1
    /\ V1.FlushCitations s1 = Ok tt s2
    /\ V1.forceFlushGeminiCitations s1 = Ok tt s2
    /\ V1.buf (V1.ctx s2) = V1.buf (V1.ctx s1) ++ gs "\n\n\n"
    /\ V1.linkAccumulator s2 = V1.linkAccumulator s1.
Proof.
  intros Ht. rewrite (forceFlush_outside_table s Ht). eexists. eexists.
  split; [reflexivity|].
  match goal with |- V1.FlushCitations ?s1 = _ /\ _ =>
    assert (Ht1 : (V1.tableNestLevel (V1.linkAccumulator s1) >? 0) = false) by exact Ht;
    assert (Hf : V1.forceFlushGeminiCitations s1 = _)
      by exact (forceFlush_outside_table s1 Ht1);
    assert (Hg : V1.FlushCitations s1 = V1.forceFlushGeminiCitations s1)
  end.
  { unfold V1.FlushCitations, V1.emitGeminiCitations, bind, V1.the_acc.
    cbn [V1.linkAccumulator V1.flushedToIndex V1.linkArray].
    replace (len (V1.linkArray (V1.linkAccumulator s))
             >? len (V1.linkArray (V1.linkAccumulator s)) - 1) with true; [reflexivity|].
    symmetry. apply Z.gtb_lt. lia. }
  rewrite Hg, Hf. split; [reflexivity|]. split; [reflexivity|]. cbn.
  rewrite !citationLines_beyond.
  replace (Z.to_nat (len (V1.linkArray (V1.linkAccumulator s)) - 1 + 1 - 0))
    with (length (V1.linkArray (V1.linkAccumulator s))) by (unfold len; lia).
  rewrite skipn_all. cbn. split; [|reflexivity].
  repeat rewrite <- app_assoc. reflexivity.
Qed.

Lemma second_flush_writes_no_citation_witness :
  exists s1 s2,
    V1.forceFlushGeminiCitations twoParagraphsOneLink = Ok tt s1
    /\ V1.FlushCitations s1 = Ok tt s2
    /\ V1.buf (V1.ctx s2) = gs "\n\n=> x [1] L\n\n" ++ gs "\n\n\n".
Proof.
  destruct (second_flush_writes_no_citation twoParagraphsOneLink eq_refl)
    as (s1 & s2 & H1 & H2 & _ & Hb & _).
  exists s1, s2. split; [exact H1|]. split; [exact H2|].
  rewrite Hb. f_equal.
  assert (H : V1.forceFlushGeminiCitations twoParagraphsOneLink
              = Ok tt (V1.mkState
                         (V1.set_buf (gs "\n\n=> x [1] L\n\n")
                            (V1.newContext (V1.NewOptions None)))
                         {| V1.emitParaCount := 0; V1.linkArray := [oneLink];
                            V1.flushedToIndex := 0; V1.tableNestLevel := 0 |}))
    by reflexivity.
  rewrite H in H1. injection H1 as <-. reflexivity.
Defined.

(** X13.  While the table nesting is positive, a forced flush, a flush
    at a heading or block quote, and the flush a paragraph boundary would
    trigger all leave buffer, cursor and counters exactly as they are. *)
Theorem flush_inside_table_changes_nothing (s : V1.State) :
  (V1.tableNestLevel (V1.linkAccumulator s) >? 0) = true ->
  V1.forceFlushGeminiCitations s = Ok tt s
  /\ V1.FlushCitations s = Ok tt s
  /\ ((V1.emitParaCount (V1.linkAccumulator s)
       >? V1.LinkEmitFrequency (V1.options (V1.ctx s)))
      && (len (V1.linkArray (V1.linkAccumulator s))
          >? V1.flushedToIndex (V1.linkAccumulator s) + 1) = true ->
      V1.CheckFlushCitations s = Ok tt s).
Proof.
  intros Ht. destruct (forceFlush_inside_table s Ht) as [Hf Hg].
  split; [exact Hf|]. split; [exact Hg|]. intros Hd.
  unfold V1.CheckFlushCitations, bind, V1.the_acc, V1.the_ctx. rewrite Hd. exact Hg.
Qed.

Lemma flush_inside_table_changes_nothing_witness :
  V1.FlushCitations insideTable = Ok tt insideTable.
Proof.
  exact (proj1 (proj2 (flush_inside_table_changes_nothing insideTable eq_refl))).
Defined.

(** ** Markers *)

Lemma bytes_of_injective (x : string) : forall y, bytes_of x = bytes_of y -> x = y.
Proof.
  induction x as [|a x IH]; intros [|b y] H; cbn in H; try discriminate; [reflexivity|].
  injection H as Hab Hxy. f_equal; [|apply IH; exact Hxy].
  apply N2Z.inj in Hab.
  rewrite <- (ascii_N_embedding a), <- (ascii_N_embedding b). now rewrite Hab.
Qed.

Lemma itoa_injective (i j : Z) : itoa i = itoa j -> i = j.
Proof.
  unfold itoa. intros H. apply bytes_of_injective in H.
  assert (Hn : forall z, Z.to_int z <> Decimal.Pos Decimal.Nil
                         /\ Z.to_int z <> Decimal.Neg Decimal.Nil).
  { intros [|p|p]; cbn; split; try discriminate; intros E; injection E as E;
      exact (DecimalPos.Unsigned.to_uint_nonnil p E). }
  pose proof (NilZero.isi (Z.to_int i) (proj1 (Hn i)) (proj2 (Hn i))) as Hi.
  pose proof (NilZero.isi (Z.to_int j) (proj1 (Hn j)) (proj2 (Hn j))) as Hj.
  rewrite H in Hi. rewrite Hi in Hj. injection Hj as Hij.
  rewrite <- (DecimalZ.of_to i), <- (DecimalZ.of_to j). now rewrite Hij.
Qed.

(** X14.  Citations with different indices get different markers: the
    marker [[n]] tells the index. *)
Theorem markers_tell_indices_apart (i j : Z) :
  i <> j -> formatGeminiCitation i true <> formatGeminiCitation j true.
Proof.
  intros Hij H. unfold formatGeminiCitation in H. apply app_inv_head in H.
  apply app_inv_tail in H. apply Hij, itoa_injective, H.
Qed.

Lemma markers_tell_indices_apart_witness :
  formatGeminiCitation 1 true <> formatGeminiCitation 11 true.
Proof.
  apply (markers_tell_indices_apart 1 11). discriminate.
Defined.

(** ** The text of an image *)

Lemma ReplaceAll_from_Forall (P : rune -> Prop) (old new : gostring) :
  Forall P new -> forall s k, Forall P s -> Forall P (ReplaceAll_from k s old new).
Proof.
  intros Hn s. induction s as [|r s IH]; intros k Hs; cbn [ReplaceAll_from]; [constructor|].
  inversion Hs as [|? ? Hr Hs']; subst. destruct k as [|k]; [|apply IH; exact Hs'].
  destruct (HasPrefix (r :: s) old).
  - apply Forall_app. split; [exact Hn | apply IH; exact Hs'].
  - constructor; [exact Hr | apply IH; exact Hs'].
Qed.

Lemma ReplaceAll_single (c : rune) (new s : gostring) :
  ReplaceAll s [c] new = flat_map (fun r => if c =? r then new else [r]) s.
Proof.
  unfold ReplaceAll. induction s as [|r s IH]; [reflexivity|].
  cbn [ReplaceAll_from HasPrefix flat_map length Nat.sub].
  destruct s as [|r' s].
  - destruct (c =? r); cbn; rewrite ?app_nil_r; reflexivity.
  - replace (HasPrefix (r' :: s) []) with true by reflexivity.
    rewrite andb_true_r. destruct (c =? r); rewrite IH; reflexivity.
Qed.

Lemma ReplaceAll_single_removes (c : rune) (new s : gostring) :
  Forall (fun r => r <> c) new -> Forall (fun r => r <> c) (ReplaceAll s [c] new).
Proof.
  intros Hn. rewrite ReplaceAll_single. induction s as [|r s IH]; [constructor|].
  cbn [flat_map]. apply Forall_app. split; [|exact IH].
  destruct (c =? r) eqn:E; [exact Hn|].
  constructor; [|constructor]. apply Z.eqb_neq in E. congruence.
Qed.

Lemma ReplaceAll_from_step (r : rune) (s old new : gostring) :
  ReplaceAll_from 0 (r :: s) old new
  = if HasPrefix (r :: s) old
    then new ++ ReplaceAll_from (length old - 1) s old new
    else r :: ReplaceAll_from 0 s old new.
Proof. reflexivity. Qed.

Lemma ReplaceAll_from_skip (k : nat) (r : rune) (s old new : gostring) :
  ReplaceAll_from (S k) (r :: s) old new = ReplaceAll_from k s old new.
Proof. reflexivity. Qed.

Lemma ReplaceAll_two_spaces_last (c : rune) : c <> SP -> forall s,
  ReplaceAll_from 0 (s ++ [c]) [SP; SP] [SP] = ReplaceAll_from 0 s [SP; SP] [SP] ++ [c]
  /\ forall r,
       ReplaceAll_from 0 (r :: s ++ [c]) [SP; SP] [SP]
       = ReplaceAll_from 0 (r :: s) [SP; SP] [SP] ++ [c].
Proof.
  intros Hc.
  assert (Hsp : (SP =? c) = false) by (apply Z.eqb_neq; congruence).
  assert (H0 : ReplaceAll_from 0 [c] [SP; SP] [SP] = [c]).
  { rewrite ReplaceAll_from_step. cbn [HasPrefix]. rewrite andb_false_r. reflexivity. }
  induction s as [|r' s [IH1 IH2]].
  - split; [exact H0|]. intros r. cbn [app].
    rewrite (ReplaceAll_from_step r [c]), (ReplaceAll_from_step r []).
    cbn [HasPrefix]. rewrite Hsp, !andb_false_r. rewrite H0. reflexivity.
  - split; [apply IH2|]. intros r.
    change ((r' :: s) ++ [c]) with (r' :: s ++ [c]).
    rewrite (ReplaceAll_from_step r (r' :: s ++ [c])), (ReplaceAll_from_step r (r' :: s)).
    cbn [HasPrefix length Nat.sub].
    replace (HasPrefix (s ++ [c]) []) with true by (destruct (s ++ [c]); reflexivity).
    replace (HasPrefix s []) with true by (destruct s; reflexivity).
    rewrite !ReplaceAll_from_skip.
    destruct ((SP =? r) && ((SP =? r') && true)).
    + rewrite IH1. reflexivity.
    + rewrite (IH2 r'). reflexivity.
Qed.

(** X15.  The text of an image keeps its two brackets, and contains no
    underscore and no hyphen, wherever they came from: the [alt]
    attribute, the file name or the marker prefix of the options. *)
Theorem image_text_is_bracketed (node : Node) (imageMarkerPrefix : gostring) :
  (exists body, imageAltText node imageMarkerPrefix = gs "[" ++ body ++ gs "]")
  /\ ~ In 95 (imageAltText node imageMarkerPrefix)
  /\ ~ In 45 (imageAltText node imageMarkerPrefix).
Proof.
  unfold imageAltText.
  set (alt := if negb (is_empty (getAttrVal node (gs "alt"))) then _ else _).
  change (gs "[") with [91]. change (gs "]") with [93]. change (gs " ") with [SP].
  change (gs "_") with [95]. change (gs "-") with [45]. change (gs "  ") with [SP; SP].
  set (inner := imageMarkerPrefix ++ [SP] ++ alt).
  match goal with |- context [ReplaceAll ?x (@cons _ 95 _) _] =>
    assert (E : x = [91] ++ inner ++ [93])
      by (unfold inner; now rewrite <- !app_assoc);
    rewrite E; clear E
  end.
  split; [|split].
  - assert (Hb : forall (c : rune) (b : gostring), c <> 91 -> c <> 93 ->
                ReplaceAll ([91] ++ b ++ [93]) [c] [SP]
                = [91] ++ ReplaceAll b [c] [SP] ++ [93]).
    { intros c b H1 H2. rewrite !ReplaceAll_single, !flat_map_app. cbn [flat_map].
      rewrite (proj2 (Z.eqb_neq c 91) H1), (proj2 (Z.eqb_neq c 93) H2), !app_nil_r.
      reflexivity. }
    eexists. rewrite !Hb by discriminate. unfold ReplaceAll at 1.
    cbn [app]. rewrite ReplaceAll_from_step. cbn [HasPrefix].
    change (SP =? 91) with false. cbn [andb].
    rewrite (proj1 (ReplaceAll_two_spaces_last 93 ltac:(discriminate) _)).
    reflexivity.
  - assert (H : Forall (fun r => r <> 95)
                  (ReplaceAll (ReplaceAll (ReplaceAll ([91] ++ inner ++ [93]) [95] [SP])
                                          [45] [SP]) [SP; SP] [SP])).
    { apply ReplaceAll_from_Forall; [repeat constructor; discriminate|].
      apply ReplaceAll_from_Forall; [repeat constructor; discriminate|].
      apply ReplaceAll_single_removes. repeat constructor; discriminate. }
    rewrite Forall_forall in H. intros Hin. exact (H _ Hin eq_refl).
  - assert (H : Forall (fun r => r <> 45)
                  (ReplaceAll (ReplaceAll (ReplaceAll ([91] ++ inner ++ [93]) [95] [SP])
                                          [45] [SP]) [SP; SP] [SP])).
    { apply ReplaceAll_from_Forall; [repeat constructor; discriminate|].
      apply ReplaceAll_single_removes. repeat constructor; discriminate. }
    rewrite Forall_forall in H. intros Hin. exact (H _ Hin eq_refl).
Qed.

(** ** Cells in the second variant *)

Lemma renderCopy_state (m : M V2.State unit) (c c' : V2.State) (text : gostring) :
  V2.renderCopy m c = Ok text c' -> c' = c.
Proof.
  unfold V2.renderCopy. destruct (V2.FromHTMLNode_of m c); [|discriminate].
  intros H. injection H as _ H. now symmetry.
Qed.

Lemma renderEachChild_of_state (render : Node -> M V2.State gostring) :
  (forall n c text c', render n c = Ok text c' -> c' = c) ->
  forall cs c text c', renderEachChild_of render cs c = Ok text c' -> c' = c.
Proof.
  intros Hr. induction cs as [|n cs IH]; intros c text c' H.
  - injection H as _ H. now symmetry.
  - cbn [renderEachChild_of] in H. unfold bind in H.
    destruct (render n c) as [s c1|] eqn:E1; [|discriminate].
    apply Hr in E1. subst c1.
    change ((fix go (cs : list Node) : M V2.State gostring :=
               match cs with
               | [] => ret []
               | c :: cs' =>
                   fun s0 => match render c s0 with
                             | Ok a s' => (fun s1 => match go cs' s1 with
                                                     | Ok a0 s'0 => ret (a ++ match cs' with [] => [] | _ :: _ => [LF] end ++ a0) s'0
                                                     | Panic p => Panic p end) s'
                             | Panic p => Panic p end
               end) cs c) with (renderEachChild_of render cs c) in H.
    destruct (renderEachChild_of render cs c) as [rest c2|] eqn:E2; [|discriminate].
    apply IH in E2. subst c2. injection H as _ H. now symmetry.
Qed.


Lemma if_true {A} (b : bool) (x y : A) : b = true -> (if b then x else y) = x.
Proof. intros ->. reflexivity. Qed.

Lemma V2_cell_step (tw : TableWriter) (walk : M V2.State unit)
      (render : M V2.State gostring) (node : Node) (c : V2.State) :
  DataAtom node = atom.Th \/ DataAtom node = atom.Td ->
  V2.PrettyTables (V2.options c) = true ->
  V2.handleElement tw walk render node c
  = match render (V2.set_justClosedDiv false c) with
    | Ok res c1 =>
        (if atom.eqb (DataAtom node) atom.Th then
           V2.on_tableCtx (fun t => {| header := header t ++ [res]; body := body t;
                                       footer := footer t; tmpRow := tmpRow t;
                                       isInFooter := isInFooter t |})
         else if isInFooter (V2.tableCtx c1) then
           V2.on_tableCtx (fun t => {| header := header t; body := body t;
                                       footer := footer t ++ [res]; tmpRow := tmpRow t;
                                       isInFooter := isInFooter t |})
         else
           match appendToRow (body (V2.tableCtx c1)) (tmpRow (V2.tableCtx c1)) res with
           | None => throw IndexOutOfRange
           | Some body' =>
               V2.on_tableCtx (fun t => {| header := header t; body := body';
                                           footer := footer t; tmpRow := tmpRow t;
                                           isInFooter := isInFooter t |})
           end) c1
    | Panic p => Panic p
    end.
Proof.
  intros Hat Hp. unfold V2.handleElement.
  destruct Hat as [Hat|Hat]; rewrite Hat.
  all: unfold bind at 1, V2.on_ctx, modify.
  all: unfold bind at 1, V2.the_ctx, get.
  all: change (V2.options (V2.set_justClosedDiv false c)) with (V2.options c).
  all: rewrite (if_true _ _ _ Hp).
  all: unfold V2.handleTableElement; rewrite Hat.
  all: unfold bind at 1, V2.the_ctx, get.
  all: change (V2.options (V2.set_justClosedDiv false c)) with (V2.options c).
  all: rewrite Hp; cbn [negb]; unfold bind at 1.
  all: destruct (render (V2.set_justClosedDiv false c)) as [res c1|]; reflexivity.
Qed.

(** X16.  In the second variant, with pretty tables on, a header or data
    cell changes nothing of the context but the table under
    construction: the text and the links of the cell stay in the copies
    its children were rendered in, so the buffer and the link
    accumulator of the caller are as before. *)
Theorem cell_keeps_its_links_to_itself (tw : TableWriter) (node : Node) (c c' : V2.State) :
  Type_ node = html.ElementNode ->
  DataAtom node = atom.Th \/ DataAtom node = atom.Td ->
  V2.PrettyTables (V2.options c) = true ->
  V2.traverse tw node c = Ok tt c' ->
  V2.buf c' = V2.buf c
  /\ V2.linkAccumulator c' = V2.linkAccumulator c
  /\ V2.options c' = V2.options c
  /\ V2.prefix c' = V2.prefix c.
Proof.
  intros Hty Hat Hp Ht. destruct node as [ty da data attrs cs].
  cbn [Type_ DataAtom] in Hty, Hat. subst ty.
  cbn [V2.traverse] in Ht.
  rewrite (V2_cell_step tw _ _ (mkNode html.ElementNode da data attrs cs) c Hat Hp) in Ht.
  match type of Ht with context [renderEachChild_of ?f cs ?c0] =>
    destruct (renderEachChild_of f cs c0) as [res c1|] eqn:E; [|discriminate];
    apply renderEachChild_of_state in E;
      [|intros n c2 text2 c3; apply renderCopy_state]
  end.
  subst c1. cbn [DataAtom] in Ht.
  change (V2.tableCtx (V2.set_justClosedDiv false c)) with (V2.tableCtx c) in Ht.
  unfold V2.on_tableCtx, modify in Ht.
  destruct (atom.eqb da atom.Th); [injection Ht as <-; repeat split|].
  destruct (isInFooter (V2.tableCtx c)); [injection Ht as <-; repeat split|].
  destruct (appendToRow (body (V2.tableCtx c)) (tmpRow (V2.tableCtx c)) res);
    [|discriminate].
  injection Ht as <-. repeat split.
Qed.


Lemma cell_keeps_its_links_to_itself_witness :
  exists c',
    V2.traverse blankTableWriter strayHeaderCell prettyContext = Ok tt c'
    /\ header (V2.tableCtx c') = [gs "L [1]\n\n=> x [1] L"]
    /\ V2.buf c' = [] /\ V2.linkArray (V2.linkAccumulator c') = [].
Proof.
  assert (H : exists c',
             V2.traverse blankTableWriter strayHeaderCell prettyContext = Ok tt c'
             /\ header (V2.tableCtx c') = [gs "L [1]\n\n=> x [1] L"])
    by (vm_compute; eexists; split; reflexivity).
  destruct H as (c' & H & Hh). exists c'. split; [exact H|]. split; [exact Hh|].
  destruct (cell_keeps_its_links_to_itself blankTableWriter strayHeaderCell prettyContext c'
              eq_refl (or_introl eq_refl) eq_refl H) as (Hb & Ha & _).
  rewrite Hb, Ha. split; reflexivity.
Defined.

(** ** Link addresses *)

Lemma href_dropWhile_all (f : rune -> bool) (p s : gostring) :
  Forall (fun r => f r = true) p -> dropWhile f (p ++ s) = dropWhile f s.
Proof.
  induction 1 as [|r p Hr _ IH]; [reflexivity|]. cbn. now rewrite Hr.
Qed.

Lemma href_last_app_cons (l : gostring) (a : rune) (u : gostring) (d d' : rune) :
  last (l ++ a :: u) d = last (a :: u) d'.
Proof.
  induction l as [|x l IH].
  - cbn [app]. revert a. induction u as [|b u IHu]; intros a; [reflexivity|].
    change (last (a :: b :: u) d) with (last (b :: u) d).
    change (last (a :: b :: u) d') with (last (b :: u) d'). apply IHu.
  - cbn [app]. destruct (l ++ a :: u) eqn:E; [destruct l; discriminate|].
    cbn [last]. exact IH.
Qed.

Lemma href_TrimSpace_padded (pad1 pad2 core : gostring) :
  Forall (fun r => IsSpace r = true) pad1 ->
  Forall (fun r => IsSpace r = true) pad2 ->
  trimmed core ->
  TrimSpace (pad1 ++ core ++ pad2) = core.
Proof.
  intros H1 H2 Hc. unfold TrimSpace. rewrite (href_dropWhile_all _ _ _ H1).
  assert (H2r : Forall (fun r => IsSpace r = true) (rev pad2)).
  { rewrite Forall_forall in *. intros r Hr. apply H2. now apply in_rev. }
  destruct core as [|x u].
  - cbn [app]. pose proof (href_dropWhile_all IsSpace pad2 [] H2) as E.
    rewrite app_nil_r in E. rewrite E. reflexivity.
  - destruct Hc as [Hx Hl]. cbn [app dropWhile]. rewrite Hx.
    change (x :: u ++ pad2) with ((x :: u) ++ pad2).
    rewrite rev_app_distr, (href_dropWhile_all _ _ _ H2r).
    rewrite (app_removelast_last x (l := x :: u)) at 1 by discriminate.
    rewrite rev_app_distr. cbn [rev app dropWhile]. rewrite Hl.
    change (last (x :: u) x :: rev (removelast (x :: u)))
      with (rev [last (x :: u) x] ++ rev (removelast (x :: u))).
    rewrite <- rev_app_distr, rev_involutive.
    symmetry. apply app_removelast_last. discriminate.
Qed.

Lemma href_HasPrefix_app (pre s : gostring) : HasPrefix (pre ++ s) pre = true.
Proof.
  induction pre as [|p pre IH]; cbn [app HasPrefix]; [apply HasPrefix_nil|].
  now rewrite Z.eqb_refl.
Qed.

Lemma href_skipn_length_app (pre s : gostring) : skipn (length pre) (pre ++ s) = s.
Proof. induction pre as [|p pre IH]; [reflexivity | exact IH]. Qed.

(** X17.  The address of a mail link is registered bare: white space
    around the attribute value and one leading [mailto:] are removed, and
    nothing of the address itself. *)
Theorem mailto_link_keeps_the_address (pad1 pad2 addr : gostring) :
  Forall (fun r => IsSpace r = true) pad1 ->
  Forall (fun r => IsSpace r = true) pad2 ->
  trimmed addr ->
  normalizeHrefLink (pad1 ++ gs "mailto:" ++ addr ++ pad2) = addr.
Proof.
  intros H1 H2 Ha. unfold normalizeHrefLink.
  assert (Hc : trimmed (gs "mailto:" ++ addr)).
  { change (gs "mailto:") with [109; 97; 105; 108; 116; 111; 58].
    split; [reflexivity|]. destruct addr as [|a u]; [reflexivity|].
    destruct Ha as [_ Hl].
    change ((109 :: [97; 105; 108; 116; 111; 58]) ++ a :: u)
      with ([109; 97; 105; 108; 116; 111; 58] ++ a :: u).
    rewrite (href_last_app_cons _ a u 109 a). exact Hl. }
  replace (gs "mailto:" ++ addr ++ pad2) with ((gs "mailto:" ++ addr) ++ pad2)
    by (now rewrite <- app_assoc).
  rewrite (href_TrimSpace_padded pad1 pad2 _ H1 H2 Hc).
  unfold TrimPrefix. rewrite href_HasPrefix_app. apply href_skipn_length_app.
Qed.

Lemma mailto_link_keeps_the_address_witness :
  normalizeHrefLink (gs " mailto:a@b.c\n") = gs "a@b.c".
Proof.
  apply (mailto_link_keeps_the_address (gs " ") (gs "\n") (gs "a@b.c")).
  - repeat constructor.
  - repeat constructor.
  - split; reflexivity.
Defined.

(** ** Numbering across a render of the second variant *)

Lemma appended_refl (c : V2.State) : appended c c.
Proof.
  split; [reflexivity|]. exists []. split; [now rewrite app_nil_r|].
  intros k x H. destruct k; discriminate.
Qed.

Lemma appended_trans (c1 c2 c3 : V2.State) :
  appended c1 c2 -> appended c2 c3 -> appended c1 c3.
Proof.
  intros [Ho (a & Ha & Hn)] [Ho' (b & Hb & Hn')]. split; [congruence|].
  exists (a ++ b). split; [rewrite Hb, Ha; now rewrite app_assoc|].
  intros k x H. destruct (Nat.lt_ge_cases k (length a)) as [Hk|Hk].
  - rewrite nth_error_app1 in H by exact Hk. apply Hn. exact H.
  - rewrite nth_error_app2 in H by exact Hk. destruct (Hn' _ _ H) as [Hi Hu].
    split; [|exact Hu]. rewrite Hi, Ho, Ha. f_equal. unfold len. rewrite length_app. lia.
Qed.

Lemma appending_ret {A} (a : A) : appending (ret a).
Proof. intros c x c' H. injection H as _ <-. apply appended_refl. Qed.

Lemma appending_bind {A B} (m : M V2.State A) (k : A -> M V2.State B) :
  appending m -> (forall a, appending (k a)) -> appending (bind m k).
Proof.
  intros Hm Hk c b c' H. unfold bind in H.
  destruct (m c) as [a c1|p] eqn:E; [|discriminate].
  eapply appended_trans; [exact (Hm _ _ _ E) | exact (Hk _ _ _ _ H)].
Qed.

Lemma appending_throw {A} (p : panic) : appending (@throw V2.State A p).
Proof. intros c a c' H. discriminate. Qed.

Lemma appending_when (b : bool) (m : M V2.State unit) : appending m -> appending (when b m).
Proof. intros H. destruct b; [exact H | apply appending_ret]. Qed.

Lemma appending_same {A} (m : M V2.State A) :
  (forall c a c', m c = Ok a c' -> c' = c) -> appending m.
Proof. intros Hm c a c' H. rewrite (Hm _ _ _ H). apply appended_refl. Qed.

Lemma appending_on_ctx (f : V2.State -> V2.State) :
  (forall c, V2.options (f c) = V2.options c
             /\ V2.linkArray (V2.linkAccumulator (f c))
                = V2.linkArray (V2.linkAccumulator c)) ->
  appending (V2.on_ctx f).
Proof.
  intros Hf c a c' H. injection H as _ <-. destruct (Hf c) as [Ho Hl].
  split; [exact Ho|]. exists []. rewrite Hl, app_nil_r. split; [reflexivity|].
  intros k x H. destruct k; discriminate.
Qed.

Lemma appending_on_acc (f : V2.linkAccumulatorType -> V2.linkAccumulatorType) :
  (forall a, V2.linkArray (f a) = V2.linkArray a) -> appending (V2.on_acc f).
Proof. intros Hf. apply appending_on_ctx. intros c. split; [reflexivity | apply Hf]. Qed.

Lemma appending_on_tableCtx (f : tableTraverseContext -> tableTraverseContext) :
  appending (V2.on_tableCtx f).
Proof. apply appending_on_ctx. intros c. split; reflexivity. Qed.

Lemma appending_the_ctx : appending V2.the_ctx.
Proof. apply appending_same. intros c a c' H. now injection H as _ <-. Qed.

Lemma appending_the_acc : appending V2.the_acc.
Proof. apply appending_same. intros c a c' H. now injection H as _ <-. Qed.

Lemma V2_writeRunes_options (data : gostring) : forall c : V2.State,
  V2.options (fold_left V2.writeRune data c) = V2.options c.
Proof.
  induction data as [|r data IH]; intros c; [reflexivity|].
  cbn [fold_left]. rewrite IH. unfold V2.writeRune.
  destruct (r =? LF); [|reflexivity].
  destruct (negb (is_empty _)); reflexivity.
Qed.

Lemma V2_emitLine_keeps (c c' : V2.State) (line : gostring) :
  V2.emitLine c line = Some c' ->
  V2.options c' = V2.options c /\ V2.linkAccumulator c' = V2.linkAccumulator c.
Proof.
  destruct line as [|first rest]; [discriminate|]. unfold V2.emitLine.
  intros H. injection H as <-.
  pose proof (V2_writeRunes_options (first :: rest)) as Ho.
  pose proof (fun c0 => proj2 (proj2 (proj2 (V2_writeRunes_fields (first :: rest) c0))))
    as Ha.
  cbn [fold_left] in Ho, Ha. rewrite Ho, Ha.
  destruct (negb _ && negb _); split; reflexivity.
Qed.

Lemma appending_emit (data : gostring) : appending (V2.emit data).
Proof.
  intros c a c' H. unfold V2.emit in H.
  destruct (is_empty data); [injection H as _ <-; apply appended_refl|].
  destruct (V2.emitLine c data) as [c1|] eqn:E; [|discriminate].
  injection H as _ <-. destruct (V2_emitLine_keeps _ _ _ E) as [Ho Ha].
  split; [exact Ho|]. exists []. rewrite Ha, app_nil_r. split; [reflexivity|].
  intros k x H. destruct k; discriminate.
Qed.

Lemma appending_probe (m : M V2.State unit) : appending (V2.probe m).
Proof.
  apply appending_same. intros c a c' H. unfold V2.probe in H.
  destruct (m _); [|discriminate]. now injection H as _ <-.
Qed.

Lemma appending_renderCopy (m : M V2.State unit) : appending (V2.renderCopy m).
Proof.
  apply appending_same. intros c a c' H. unfold V2.renderCopy in H.
  destruct (V2.FromHTMLNode_of m c); [|discriminate]. now injection H as _ <-.
Qed.

Lemma appending_addGeminiCitation (url display : gostring) :
  appending (V2.addGeminiCitation url display).
Proof.
  intros c a c' H. destruct url as [|first rest]; [discriminate|].
  unfold V2.addGeminiCitation in H. destruct (first =? 35) eqn:E.
  - injection H as _ <-. apply appended_refl.
  - cbn in H. injection H as _ <-. split; [reflexivity|].
    eexists. split; [reflexivity|].
    intros k x H. destruct k as [|k]; [|destruct k; discriminate].
    cbn in H. injection H as <-. cbn [index url]. split; [f_equal; lia|].
    destruct (_ || _); [destruct (_ && _)|];
      cbn [gs HasPrefix]; change (Z.of_N (N_of_ascii "#")) with 35;
      try reflexivity; rewrite Z.eqb_sym, E; reflexivity.
Qed.

Ltac appending_step :=
  match goal with
  | H : appending ?m |- appending ?m => exact H
  | |- appending (bind _ _) => apply appending_bind; [|intros ?]
  | |- appending (ret _) => apply appending_ret
  | |- appending (when _ _) => apply appending_when
  | |- appending (throw _) => apply appending_throw
  | |- appending (V2.emit _) => apply appending_emit
  | |- appending (V2.on_ctx _) => apply appending_on_ctx; intros ?; split; reflexivity
  | |- appending (V2.on_acc _) => apply appending_on_acc; reflexivity
  | |- appending (V2.on_tableCtx _) => apply appending_on_tableCtx
  | |- appending V2.the_ctx => apply appending_the_ctx
  | |- appending V2.the_acc => apply appending_the_acc
  | |- appending (V2.probe _) => apply appending_probe
  | |- appending (V2.addGeminiCitation _ _) => apply appending_addGeminiCitation
  | |- appending (match ?x with _ => _ end) => destruct x eqn:?
  end.

Lemma appending_forceFlush : appending V2.forceFlushGeminiCitations.
Proof.
  unfold V2.forceFlushGeminiCitations, V2.ResetCitationCounters. repeat appending_step.
Qed.

Lemma appending_FlushCitations : appending V2.FlushCitations.
Proof.
  unfold V2.FlushCitations, V2.emitGeminiCitations.
  repeat appending_step; apply appending_forceFlush.
Qed.

Lemma appending_CheckFlushCitations : appending V2.CheckFlushCitations.
Proof.
  unfold V2.CheckFlushCitations.
  repeat appending_step; apply appending_FlushCitations.
Qed.

Lemma appending_traverseChildren_of (traverse : Node -> M V2.State unit) (cs : list Node) :
  Forall (fun c => appending (traverse c)) cs ->
  appending (traverseChildren_of traverse cs).
Proof.
  induction 1 as [|c cs Hc Hcs IH]; cbn.
  - apply appending_ret.
  - apply appending_bind; [exact Hc | intros _; exact IH].
Qed.

Lemma appending_renderEachChild_of (render : Node -> M V2.State gostring) (cs : list Node) :
  (forall c, appending (render c)) ->
  appending (renderEachChild_of render cs).
Proof.
  intros Hr. induction cs as [|c cs IH]; cbn.
  - apply appending_ret.
  - apply appending_bind; [apply Hr | intros s].
    apply appending_bind; [exact IH | intros rest]. apply appending_ret.
Qed.

Section SecondWalk.
Variable tw : TableWriter.

Lemma appending_paragraphHandler (tc : M V2.State unit) :
  appending tc -> appending (V2.paragraphHandler tc).
Proof.
  intros H. pose proof appending_CheckFlushCitations as Hc.
  unfold V2.paragraphHandler. repeat appending_step.
Qed.

Lemma appending_handleTableElement (tc : M V2.State unit) (rec : M V2.State gostring)
      (node : Node) :
  appending tc -> appending rec -> appending (V2.handleTableElement tw tc rec node).
Proof.
  intros Htc Hrec. unfold V2.handleTableElement. cbv zeta. repeat appending_step.
Qed.

Lemma appending_handleElement (tc : M V2.State unit) (rec : M V2.State gostring)
      (node : Node) :
  appending tc -> appending rec -> appending (V2.handleElement tw tc rec node).
Proof.
  intros Htc Hrec.
  pose proof (appending_paragraphHandler tc Htc) as Hp.
  pose proof (appending_handleTableElement tc rec node Htc Hrec) as Ht.
  pose proof appending_FlushCitations as Hf.
  unfold V2.handleElement. cbv zeta.
  apply appending_bind; [appending_step|]. intros _.
  destruct (DataAtom node); repeat appending_step.
Qed.

Lemma appending_traverse (node : Node) : appending (V2.traverse tw node).
Proof.
  induction node as [type a data attrs cs IH] using Node_induction.
  cbn [V2.traverse].
  assert (Htc : appending (traverseChildren_of (V2.traverse tw) cs))
    by (apply appending_traverseChildren_of; exact IH).
  assert (Hrec : appending (renderEachChild_of
                              (fun c => V2.renderCopy (V2.traverse tw c)) cs))
    by (apply appending_renderEachChild_of; intros c; apply appending_renderCopy).
  destruct type; try exact Htc.
  - repeat appending_step.
  - apply appending_handleElement; assumption.
Qed.

Lemma FromHTMLNode_appends (doc : Node) (ctx ctx' : V2.State) (text : gostring) :
  V2.FromHTMLNode tw doc ctx = Ok text ctx' -> appended ctx ctx'.
Proof.
  unfold V2.FromHTMLNode, V2.FromHTMLNode_of.
  assert (H : appending (V2.traverse tw doc ;;
                         V2.forceFlushGeminiCitations ;;
                         c <- V2.the_ctx ;;
                         ret (V2.tidyQuotes (normalize (V2.buf c))))).
  { pose proof (appending_traverse doc) as Ht. pose proof appending_forceFlush as Hf.
    repeat appending_step. }
  apply H.
Qed.

End SecondWalk.

Lemma numberedFrom_wellNumbered (start : Z) (before added : list citationLink) :
  numberedFrom start (len before) added -> wellNumbered start before added.
Proof.
  intros Hr. split; [|split].
  - intros k c Hk. apply (Hr k c Hk).
  - intros k c c' Hk Hk'.
    destruct (Hr k c Hk) as [Hi _]. destruct (Hr (S k) c' Hk') as [Hi' _].
    rewrite Hi', Hi, <- int_add_next. f_equal. lia.
  - intros Hnil Hrange c Hc. destruct (Hr 0%nat c Hc) as [Hi _].
    rewrite Hi, Hnil. cbn. unfold int_add. cbn. apply wrap_int_small. exact Hrange.
Qed.



